(** * Chuckterm: mail synchronisation and grouping engine

    A shallow embedding of the Go sources

      - [internal/util]   : [NormalizeSender]
      - [internal/gmail]  : [AggregateBySenderSubject], [SortGroups],
                            [extractHTTPUnsubscribeURL], [FetchGroups],
                            [FetchInitialEmails], [FullScan],
                            [SyncSinceHistory], [fetchMetadataBatch],
                            [LoadGroupsFromDB], [ArchiveMessages],
                            [TrashMessages], [GetMessageBody],
                            [stripHTMLTags], [OpenUnsubscribeURL]
      - [internal/store]  : the SQLite-backed [MessageStore]
      - [internal/tui]    : the commands of the screens

    Go strings are byte strings; they are embedded as [string] (a list of
    [ascii], one per byte).  Go maps are [gmap], Go sets
    ([map[string]struct{}]) are [gset]. *)

From Stdlib Require Import ZArith NArith Ascii String List Lia Bool.
From Stdlib Require Import DecimalString.
From Stdlib Require DecimalN.
From stdpp Require Import base option list gmap strings sorting.

Open Scope string_scope.

(* ===================================================================== *)
(** * Part of the Go standard library used by the sources                 *)
(* ===================================================================== *)

(** [mail.Address] of [net/mail]: the display name and the addr-spec
    ([Addr] is the Go field [Address]). *)
Record Address := { Name : string; Addr : string }.

(** Go [error] values: a message, an error wrapped by
    [fmt.Errorf("...: %w", err)], or [ctx.Err()]. *)
Inductive error : Type :=
| Err (msg : string)
| Wrap (context : string) (cause : error)
| Canceled.

(** Bytes and their ASCII classes. *)
Module GoBytes.

Definition code (c : ascii) : N := N_of_ascii c.

(** [c < utf8.RuneSelf] *)
Definition is_ascii_byte (c : ascii) : bool := (code c <? 128)%N.

Definition is_upper (c : ascii) : bool := ((65 <=? code c) && (code c <=? 90))%N.
Definition is_lower (c : ascii) : bool := ((97 <=? code c) && (code c <=? 122))%N.

Definition lower_byte (c : ascii) : ascii :=
  if is_upper c then ascii_of_N (code c + 32) else c.
Definition upper_byte (c : ascii) : ascii :=
  if is_lower c then ascii_of_N (code c - 32) else c.

Fixpoint str_forall (p : ascii -> bool) (s : string) : bool :=
  match s with
  | EmptyString => true
  | String c r => p c && str_forall p r
  end.

Fixpoint str_map (f : ascii -> ascii) (s : string) : string :=
  match s with
  | EmptyString => EmptyString
  | String c r => String (f c) (str_map f r)
  end.

End GoBytes.

(** What the Go runtime decides with tables or code that the embedding does
    not carry: Unicode case mapping, the date layouts of [time.Parse], and
    the part of [net/mail] beyond plain addresses.  Every definition below
    takes it as a parameter.  The one fact used about it: no rune is mapped
    by [unicode.ToLower] to an upper-case ASCII letter. *)
Record GoRuntime := {
  (** [strings.Map(unicode.ToLower, s)], used by [strings.ToLower] when [s]
      holds a byte at or above [utf8.RuneSelf]. *)
  unicode_ToLower : string -> string;
  (** [strings.Map(unicode.ToUpper, s)], same use by [strings.ToUpper]. *)
  unicode_ToUpper : string -> string;
  (** [time.Parse(layout, value)] followed by
      [t.UTC().Format(time.RFC3339)]; [None] when parsing fails. *)
  time_Parse : string -> string -> option string;
  (** [mail.ParseAddress] on an input that leaves the plain
      name-addr / addr-spec grammar (see [mail.presult]). *)
  mail_beyond : string -> option Address;
  unicode_ToLower_lower :
    forall s, GoBytes.str_forall (fun c => negb (GoBytes.is_upper c)) (unicode_ToLower s) = true
}.

Module GoStrings.
Export GoBytes.

(** [strings.ToLower]: the ASCII fast path is written out, the Unicode
    path is the runtime's. *)
Definition ToLower (rt : GoRuntime) (s : string) : string :=
  if str_forall is_ascii_byte s then str_map lower_byte s
  else unicode_ToLower rt s.

Definition ToUpper (rt : GoRuntime) (s : string) : string :=
  if str_forall is_ascii_byte s then str_map upper_byte s
  else unicode_ToUpper rt s.

(** [s[n:]] and [s[:n]] *)
Fixpoint drop (n : nat) (s : string) : string :=
  match n, s with
  | O, _ => s
  | S n', String _ r => drop n' r
  | S _, EmptyString => EmptyString
  end.

Fixpoint take (n : nat) (s : string) : string :=
  match n, s with
  | O, _ => EmptyString
  | S n', String c r => String c (take n' r)
  | S _, EmptyString => EmptyString
  end.

(** [strings.HasPrefix(s, p)] *)
Fixpoint HasPrefix (s p : string) : bool :=
  match p, s with
  | EmptyString, _ => true
  | String a p', String b s' => if ascii_dec a b then HasPrefix s' p' else false
  | String _ _, EmptyString => false
  end.

(** [strings.IndexByte(s, c)]: index of the first [c], or -1. *)
Fixpoint IndexByte (s : string) (c : ascii) : Z :=
  match s with
  | EmptyString => (-1)%Z
  | String a r =>
      if ascii_dec a c then 0%Z
      else let i := IndexByte r c in
           if (i <? 0)%Z then (-1)%Z else (i + 1)%Z
  end.

(** [strings.LastIndexByte(s, c)]: index of the last [c], or -1. *)
Fixpoint LastIndexByte (s : string) (c : ascii) : Z :=
  match s with
  | EmptyString => (-1)%Z
  | String a r =>
      let i := LastIndexByte r c in
      if (0 <=? i)%Z then (i + 1)%Z
      else if ascii_dec a c then 0%Z else (-1)%Z
  end.

(** [strings.Split(s, sep)] for a one-byte separator: always at least one
    piece. *)
Fixpoint Split (s : string) (sep : ascii) : list string :=
  match s with
  | EmptyString => [EmptyString]
  | String a r =>
      if ascii_dec a sep then EmptyString :: Split r sep
      else match Split r sep with
           | p :: ps => String a p :: ps
           | [] => [String a EmptyString]
           end
  end.

(** [strings.Join(parts, sep)] *)
Fixpoint Join (parts : list string) (sep : string) : string :=
  match parts with
  | [] => EmptyString
  | [p] => p
  | p :: ps => p ++ sep ++ Join ps sep
  end.

(** Membership of a byte in an ASCII cutset. *)
Fixpoint in_cutset (cutset : string) (c : ascii) : bool :=
  match cutset with
  | EmptyString => false
  | String a r => if ascii_dec a c then true else in_cutset r c
  end.

(** [strings.TrimLeft(s, cutset)] for an ASCII cutset. *)
Fixpoint TrimLeft (s cutset : string) : string :=
  match s with
  | EmptyString => EmptyString
  | String a r => if in_cutset cutset a then TrimLeft r cutset else s
  end.

(** [strings.TrimRight(s, cutset)]: the string is kept up to its last
    byte outside the cutset. *)
Fixpoint TrimRight (s cutset : string) : string :=
  match s with
  | EmptyString => EmptyString
  | String a r =>
      match TrimRight r cutset with
      | EmptyString => if in_cutset cutset a then EmptyString else String a EmptyString
      | t => String a t
      end
  end.

(** [strings.Trim(s, cutset)] *)
Definition Trim (s cutset : string) : string :=
  TrimRight (TrimLeft s cutset) cutset.

(** The UTF-8 encodings of the code points of [unicode.IsSpace]:
    U+0009..U+000D, U+0020, U+0085, U+00A0, U+1680, U+2000..U+200A,
    U+2028, U+2029, U+202F, U+205F, U+3000.  [space_prefix s] is the
    number of bytes of the white-space rune [s] starts with, 0 if it
    starts with none. *)
Definition is_ascii_space (c : ascii) : bool :=
  ((9 <=? code c) && (code c <=? 13) || (code c =? 32))%N.

Definition space_prefix (s : string) : nat :=
  match s with
  | EmptyString => 0
  | String a r =>
      if is_ascii_space a then 1
      else match code a, r with
           | 194%N, String b _ =>
               if ((code b =? 133) || (code b =? 160))%N then 2 else 0
           | 225%N, String b (String c _) =>
               if ((code b =? 154) && (code c =? 128))%N then 3 else 0
           | 226%N, String b (String c _) =>
               if ((code b =? 128) &&
                   ((128 <=? code c) && (code c <=? 138) || (code c =? 168)
                    || (code c =? 169) || (code c =? 175)))%N then 3
               else if ((code b =? 129) && (code c =? 159))%N then 3 else 0
           | 227%N, String b (String c _) =>
               if ((code b =? 128) && (code c =? 128))%N then 3 else 0
           | _, _ => 0
           end
  end.

(** [strings.TrimLeftFunc(s, unicode.IsSpace)]; the fuel is the length of
    the string, every round removes at least one byte. *)
Fixpoint trim_space_left (fuel : nat) (s : string) : string :=
  match fuel with
  | O => s
  | S fuel' =>
      match space_prefix s with
      | O => s
      | n => trim_space_left fuel' (drop n s)
      end
  end.

(** The same test at the end of the string, as
    [utf8.DecodeLastRuneInString] finds the last rune: on the reversed
    bytes, with the encodings reversed. *)
Definition space_suffix_rev (r : string) : nat :=
  match r with
  | EmptyString => 0
  | String a t =>
      if is_ascii_space a then 1
      else match t with
           | String b u =>
               if ((code b =? 194) && ((code a =? 133) || (code a =? 160)))%N then 2
               else match u with
                    | String c _ =>
                        if Nat.eqb (space_prefix (String c (String b (String a EmptyString)))) 3
                        then 3 else 0
                    | EmptyString => 0
                    end
           | EmptyString => 0
           end
  end.

Fixpoint trim_space_right_rev (fuel : nat) (r : string) : string :=
  match fuel with
  | O => r
  | S fuel' =>
      match space_suffix_rev r with
      | O => r
      | n => trim_space_right_rev fuel' (drop n r)
      end
  end.

(** [strings.TrimSpace] *)
Definition TrimSpace (s : string) : string :=
  let l := trim_space_left (String.length s) s in
  String.rev (trim_space_right_rev (String.length l) (String.rev l)).

End GoStrings.

(** ** [net/mail]: [mail.ParseAddress]

    The address parser of [net/mail] ([addrParser], Go 1.24) for the plain
    grammar: an addr-spec or a name-addr whose display name is made of atoms
    and quoted strings, all in ASCII.  Where the Go parser would enter a
    parenthesised comment, a group, a domain literal, an RFC 2047 encoded
    word or a multi-byte rune, the parse is [Beyond] and the answer is the
    runtime's ([mail_beyond]). *)
Module mail.
Import GoStrings.

Inductive presult (A : Type) : Type :=
| Parsed (a : A) (rest : string)
| Failed
| Beyond.
Arguments Parsed {A} a rest.
Arguments Failed {A}.
Arguments Beyond {A}.

Definition pmap {A B} (f : A -> B) (r : presult A) : presult B :=
  match r with
  | Parsed a rest => Parsed (f a) rest
  | Failed => Failed
  | Beyond => Beyond
  end.

(** The double quote, byte 34. *)
Definition dquote : ascii := ascii_of_N 34.

(** [isVchar] on a one-byte rune: visible US-ASCII. *)
Definition isVchar (c : ascii) : bool := ((33 <=? code c) && (code c <=? 126))%N.
Definition isWSP (c : ascii) : bool := ((code c =? 32) || (code c =? 9))%N.
(** [isQtext]: printable US-ASCII except backslash and double quote. *)
Definition isQtext (c : ascii) : bool :=
  if ((code c =? 92) || (code c =? 34))%N then false else isVchar c.
(** [isAtext(r, dot)]: the RFC 5322 specials are excluded. *)
Definition isAtext (c : ascii) (dot : bool) : bool :=
  if (code c =? 46)%N then dot
  else if in_cutset (String dquote "()<>[]:;@\,") c then false
  else isVchar c.

(** [p.skipSpace()] *)
Definition skipSpace (s : string) : string :=
  TrimLeft s (String " " (String (ascii_of_N 9) EmptyString)).

Definition peek_is (s : string) (c : ascii) : bool :=
  match s with
  | String a _ => if ascii_dec a c then true else false
  | EmptyString => false
  end.

(** [p.consume(c)] *)
Definition consume (c : ascii) (s : string) : option string :=
  match s with
  | String a r => if ascii_dec a c then Some r else None
  | EmptyString => None
  end.

(** The scanning loop of [consumeAtom]: the longest prefix of atext. *)
Fixpoint atom_span (dot : bool) (s : string) : presult string :=
  match s with
  | EmptyString => Parsed EmptyString EmptyString
  | String c r =>
      if negb (is_ascii_byte c) then Beyond
      else if isAtext c dot then pmap (String c) (atom_span dot r)
      else Parsed EmptyString s
  end.

(** [strings.Contains(atom, "..")] *)
Fixpoint has_double_dot (s : string) : bool :=
  match s with
  | String a (String b _ as r) =>
      if ((code a =? 46) && (code b =? 46))%N then true else has_double_dot r
  | _ => false
  end.

Definition has_trailing_dot (s : string) : bool := peek_is (String.rev s) ".".

(** [p.consumeAtom(dot, permissive)] *)
Definition consumeAtom (dot permissive : bool) (s : string) : presult string :=
  match atom_span dot s with
  | Parsed atom rest =>
      if decide (atom = EmptyString) then Failed
      else if permissive then Parsed atom rest
      else if peek_is atom "." then Failed
      else if has_double_dot atom then Failed
      else if has_trailing_dot atom then Failed
      else Parsed atom rest
  | Failed => Failed
  | Beyond => Beyond
  end.

(** The loop of [consumeQuotedString], after the opening quote. *)
Fixpoint quoted_span (escaped : bool) (s : string) : presult string :=
  match s with
  | EmptyString => Failed
  | String c r =>
      if negb (is_ascii_byte c) then Beyond
      else if escaped then
        if isVchar c || isWSP c then pmap (String c) (quoted_span false r) else Failed
      else if isQtext c || isWSP c then pmap (String c) (quoted_span false r)
      else if (code c =? 34)%N then Parsed EmptyString r
      else if (code c =? 92)%N then quoted_span true r
      else Failed
  end.

(** [p.consumeQuotedString()]; the first byte is the opening quote. *)
Definition consumeQuotedString (s : string) : presult string :=
  quoted_span false (drop 1 s).

(** [p.consumeAddrSpec()]: on failure the Go parser is put back where it
    was, here the caller still holds its input. *)
Definition consumeAddrSpec (s : string) : presult string :=
  let s := skipSpace s in
  if decide (s = EmptyString) then Failed else
  let localPart :=
    if peek_is s dquote then
      match consumeQuotedString s with
      | Parsed lp rest => if decide (lp = EmptyString) then Failed else Parsed lp rest
      | Failed => Failed
      | Beyond => Beyond
      end
    else consumeAtom true false s in
  match localPart with
  | Parsed lp rest =>
      match consume "@" rest with
      | None => Failed
      | Some rest =>
          let rest := skipSpace rest in
          if decide (rest = EmptyString) then Failed
          else if peek_is rest "[" then Beyond
          else pmap (fun domain => lp ++ "@" ++ domain) (consumeAtom true false rest)
      end
  | Failed => Failed
  | Beyond => Beyond
  end.

(** [p.skipCFWS()] without comments: an opening parenthesis is [None]. *)
Definition skipCFWS (s : string) : option string :=
  let s := skipSpace s in
  if peek_is s "(" then None else Some s.

(** The loop of [consumePhrase].  A word that may be an RFC 2047 encoded
    word is [Beyond].  Every round takes at least one byte, so a fuel of
    the length of the input is never used up. *)
Fixpoint phrase_words (fuel : nat) (words : list string) (s : string)
  : presult (list string) :=
  match fuel with
  | O => Beyond
  | S fuel' =>
      match (if decide (words = []) then Some s else skipCFWS s) with
      | None => Beyond
      | Some s =>
          let s := skipSpace s in
          if decide (s = EmptyString) then Parsed words s
          else
            let word :=
              if peek_is s dquote then consumeQuotedString s
              else consumeAtom true true s in
            match word with
            | Parsed w rest =>
                if HasPrefix w "=?" then Beyond
                else phrase_words fuel' (words ++ [w])%list rest
            | Failed => if decide (words = []) then Failed else Parsed words s
            | Beyond => Beyond
            end
      end
  end.

(** [p.consumePhrase()] *)
Definition consumePhrase (s : string) : presult string :=
  pmap (fun words => Join words " ") (phrase_words (S (String.length s)) [] s).

(** [p.parseAddress(handleGroup)] *)
Definition parseAddress (handleGroup : bool) (s : string) : presult Address :=
  let s := skipSpace s in
  if decide (s = EmptyString) then Failed else
  match consumeAddrSpec s with
  | Parsed spec rest =>
      let rest := skipSpace rest in
      if peek_is rest "(" then Beyond
      else Parsed {| Name := EmptyString; Addr := spec |} rest
  | Beyond => Beyond
  | Failed =>
      let displayName :=
        if peek_is s "<" then Parsed EmptyString s else consumePhrase s in
      match displayName with
      | Parsed displayName rest =>
          let rest := skipSpace rest in
          if handleGroup && peek_is rest ":" then Beyond else
          match consume "<" rest with
          | None => Failed
          | Some rest =>
              match consumeAddrSpec rest with
              | Parsed spec rest =>
                  match consume ">" rest with
                  | None => Failed
                  | Some rest => Parsed {| Name := displayName; Addr := spec |} rest
                  end
              | Failed => Failed
              | Beyond => Beyond
              end
          end
      | Failed => Failed
      | Beyond => Beyond
      end
  end.

(** [p.parseSingleAddress()] *)
Definition parseSingleAddress (s : string) : presult Address :=
  match parseAddress true s with
  | Parsed a rest =>
      match skipCFWS rest with
      | None => Beyond
      | Some rest => if decide (rest = EmptyString) then Parsed a rest else Failed
      end
  | Failed => Failed
  | Beyond => Beyond
  end.

(** [mail.ParseAddress(address)]; [None] is a non-nil error. *)
Definition ParseAddress (rt : GoRuntime) (address : string) : option Address :=
  match parseSingleAddress address with
  | Parsed a _ => Some a
  | Failed => None
  | Beyond => mail_beyond rt address
  end.

End mail.

(* ===================================================================== *)
(** * [internal/util]: the sender normaliser                              *)
(* ===================================================================== *)

Module util.
Import GoStrings.

(** The fallback loop of [NormalizeSender]: the first comma-separated
    piece that parses. *)
Fixpoint first_parsed (rt : GoRuntime) (parts : list string) : option Address :=
  match parts with
  | [] => None
  | p :: ps =>
      match mail.ParseAddress rt (TrimSpace p) with
      | Some a => Some a
      | None => first_parsed rt ps
      end
  end.

Definition NormalizeSender (rt : GoRuntime) (fromHeader : string) : string :=
  if decide (fromHeader = EmptyString) then EmptyString else
  let addr :=
    match mail.ParseAddress rt fromHeader with
    | Some a => Some a
    | None => first_parsed rt (Split fromHeader ",")
    end in
  match addr with
  | None => EmptyString
  | Some addr =>
      let email := ToLower rt (TrimSpace (Addr addr)) in
      let at_ := LastIndexByte email "@" in
      if (at_ <=? 0)%Z then email else
      let local := take (Z.to_nat at_) email in
      let domain := drop (Z.to_nat (at_ + 1)) email in
      let plus := IndexByte local "+" in
      let local := if (plus >? -1)%Z then take (Z.to_nat plus) local else local in
      local ++ "@" ++ domain
  end.

End util.

(* ===================================================================== *)
(** * [internal/model]: shared types                                      *)
(* ===================================================================== *)

(** Go's [int] on the 64-bit targets: the result of an addition wraps
    around. *)
Definition wrap_int (z : Z) : Z := ((z + 2 ^ 63) mod 2 ^ 64 - 2 ^ 63)%Z.
Definition int_incr (z : Z) : Z := wrap_int (z + 1).

Module MessageRef.
Record t := mk {
  ID : string;
  Subject : string;
  DateRFC3339 : string;
  From : string;
  ListUnsubscribe : string;
  ListUnsubscribePost : string
}.
(** The zero value of the struct. *)
Definition zero : t := mk "" "" "" "" "" "".
End MessageRef.

Module SenderGroup.
Record t := mk {
  Email : string;
  Subject : string;
  DisplayName : string;
  Count : Z;
  Sample : string;
  FirstDate : string;
  LastDate : string;
  MessageIDs : list string;
  UnsubscribeURL : string
}.
End SenderGroup.

(** The order in which Go ranges over a map is not specified: a run picks
    an enumeration of the entries. *)
Record MapOrder := {
  range : forall A : Type, list A -> list A;
  range_perm : forall (A : Type) (l : list A), range A l ≡ₚ l
}.
Arguments range _ {A} _.

(* ===================================================================== *)
(** * [internal/gmail/fetch.go]: aggregation and ordering                 *)
(* ===================================================================== *)

Module gmail_fetch.
Import GoStrings.
Import util.

(** [extractHTTPUnsubscribeURL]: the loop over the pieces of the header. *)
Fixpoint first_http_part (rt : GoRuntime) (parts : list string) : string :=
  match parts with
  | [] => ""
  | p :: ps =>
      let p := TrimSpace p in
      let p := Trim p "<>" in
      let p := TrimSpace p in
      let lower := ToLower rt p in
      if HasPrefix lower "http://" || HasPrefix lower "https://" then p
      else first_http_part rt ps
  end.

Definition extractHTTPUnsubscribeURL (rt : GoRuntime) (header : string) : string :=
  first_http_part rt (Split header ",").

(** The layouts [parseDateRFC3339] tries, in order: the constants
    [time.RFC1123Z], [time.RFC1123], [time.RFC822Z], [time.RFC822],
    [time.RFC850], [time.RFC3339] and one literal. *)
Definition layouts : list string :=
  [ "Mon, 02 Jan 2006 15:04:05 -0700";
    "Mon, 02 Jan 2006 15:04:05 MST";
    "02 Jan 06 15:04 -0700";
    "02 Jan 06 15:04 MST";
    "Monday, 02-Jan-06 15:04:05 MST";
    "2006-01-02T15:04:05Z07:00";
    "Mon, 2 Jan 2006 15:04:05 -0700" ].

Fixpoint try_layouts (rt : GoRuntime) (ls : list string) (h : string) : string :=
  match ls with
  | [] => ""
  | l :: ls' =>
      match time_Parse rt l h with
      | Some t => t
      | None => try_layouts rt ls' h
      end
  end.

Definition parseDateRFC3339 (rt : GoRuntime) (h : string) : string :=
  if decide (h = "") then "" else try_layouts rt layouts h.

(** [parts[i] = strings.ToUpper(parts[i][:1]) + parts[i][1:]] *)
Definition capitalise (rt : GoRuntime) (p : string) : string :=
  if decide (p = "") then p else ToUpper rt (take 1 p) ++ drop 1 p.

Definition displayNameFromFrom (rt : GoRuntime) (fromHeader normalized : string) : string :=
  let idx := IndexByte fromHeader "<" in
  let name :=
    if (idx >? 0)%Z then Trim (TrimSpace (take (Z.to_nat idx) fromHeader)) (String mail.dquote "'")
    else "" in
  if negb (String.eqb name "") then name
  else
    let at_ := IndexByte normalized "@" in
    if (at_ >? 0)%Z then
      let lp := take (Z.to_nat at_) normalized in
      Join (map (capitalise rt) (Split lp ".")) " "
    else normalized.

(** One round of the loop of [AggregateBySenderSubject]. *)
Definition aggregate_step (rt : GoRuntime)
    (groups : gmap string SenderGroup.t) (m : MessageRef.t)
  : gmap string SenderGroup.t :=
  let email := NormalizeSender rt (MessageRef.From m) in
  if decide (email = "") then groups else
  let subject := MessageRef.Subject m in
  let key := email ++ "||" ++ subject in
  let g :=
    match groups !! key with
    | Some g => g
    | None =>
        SenderGroup.mk email subject
          (displayNameFromFrom rt (MessageRef.From m) email) 0 "" "" "" [] ""
    end in
  let count := int_incr (SenderGroup.Count g) in
  let sample :=
    if decide (SenderGroup.Sample g = "" /\ subject <> "") then subject
    else SenderGroup.Sample g in
  let ts := TrimSpace (MessageRef.DateRFC3339 m) in
  let first :=
    if negb (String.eqb ts "")
       && (String.eqb (SenderGroup.FirstDate g) "" || String.ltb ts (SenderGroup.FirstDate g))
    then ts else SenderGroup.FirstDate g in
  let last :=
    if negb (String.eqb ts "")
       && (String.eqb (SenderGroup.LastDate g) "" || String.ltb (SenderGroup.LastDate g) ts)
    then ts else SenderGroup.LastDate g in
  let ids :=
    if decide (MessageRef.ID m <> "") then (SenderGroup.MessageIDs g ++ [MessageRef.ID m])%list
    else SenderGroup.MessageIDs g in
  let unsub :=
    if decide (SenderGroup.UnsubscribeURL g = "" /\ MessageRef.ListUnsubscribe m <> "")
    then extractHTTPUnsubscribeURL rt (MessageRef.ListUnsubscribe m)
    else SenderGroup.UnsubscribeURL g in
  <[key := SenderGroup.mk (SenderGroup.Email g) (SenderGroup.Subject g)
             (SenderGroup.DisplayName g) count sample first last ids unsub]> groups.

(** [AggregateBySenderSubject(msgs)] *)
Definition AggregateBySenderSubject (rt : GoRuntime) (msgs : list MessageRef.t)
  : gmap string SenderGroup.t :=
  fold_left (aggregate_step rt) msgs ∅.

(** The comparison function [SortGroups] hands to [sort.SliceStable]. *)
Definition less (a b : SenderGroup.t) : bool :=
  if (SenderGroup.Count a =? SenderGroup.Count b)%Z then
    if String.eqb (SenderGroup.Email a) (SenderGroup.Email b) then
      String.ltb (SenderGroup.Subject a) (SenderGroup.Subject b)
    else String.ltb (SenderGroup.Email a) (SenderGroup.Email b)
  else (SenderGroup.Count a >? SenderGroup.Count b)%Z.

(** [sort.SliceStable]: the library sorts blocks by insertion and merges
    them stably; here by insertion throughout.  An element moves left
    past the elements it is less than, and so ends before the first of
    them in the sorted prefix. *)
Fixpoint insert_stable {A} (lt : A -> A -> bool) (x : A) (l : list A) : list A :=
  match l with
  | [] => [x]
  | y :: ys => if lt x y then x :: l else y :: insert_stable lt x ys
  end.

Definition SliceStable {A} (lt : A -> A -> bool) (l : list A) : list A :=
  fold_left (fun sorted x => insert_stable lt x sorted) l [].

(** [SortGroups(m)]: the groups are copied out of the map in the order
    the range yields them, then sorted. *)
Definition SortGroups (ord : MapOrder) (m : gmap string SenderGroup.t)
  : list SenderGroup.t :=
  SliceStable less (range ord (map snd (map_to_list m))).

End gmail_fetch.

(* ===================================================================== *)
(** * [internal/store]: the message store                                 *)
(* ===================================================================== *)

(** The interface [gmail.MessageStore].  A method takes the store and gives
    back the store it leaves and its [error] ([None] is [nil]). *)
Class MessageStore (S : Type) := {
  UpsertMessages : S -> list MessageRef.t -> S * option error;
  DeleteMessages : S -> list string -> S * option error;
  LoadAllMessages : S -> S * (list MessageRef.t * option error);
  CountMessages : S -> S * (Z * option error);
  GetMessagesByIDs : S -> list string -> S * (list MessageRef.t * option error);
  GetLastHistoryID : S -> S * (string * option error);
  SetLastHistoryID : S -> string -> S * option error
}.

Module store.

(** [SQLiteStore]: the two tables of [migrate], and what the database
    will answer to the coming calls ([Some e]: the call fails with [e]).
    A failed call leaves the tables as they were: [UpsertMessages] and
    [DeleteMessages] run in a transaction that is rolled back. *)
Record SQLiteStore := {
  messages : gmap string MessageRef.t;
  metadata : gmap string string;
  faults : list (option error)
}.

(** The database takes the next call. *)
Definition db_call (s : SQLiteStore) : SQLiteStore * option error :=
  match faults s with
  | [] => (s, None)
  | f :: fs => ({| messages := messages s; metadata := metadata s; faults := fs |}, f)
  end.

(** [INSERT ... ON CONFLICT(id) DO UPDATE], statement by statement. *)
Definition upsert_rows (rows : gmap string MessageRef.t) (msgs : list MessageRef.t)
  : gmap string MessageRef.t :=
  fold_left (fun rows m => <[MessageRef.ID m := m]> rows) msgs rows.

Definition delete_rows (rows : gmap string MessageRef.t) (ids : list string)
  : gmap string MessageRef.t :=
  fold_left (fun rows id => delete id rows) ids rows.

Definition SQLite_UpsertMessages (s : SQLiteStore) (msgs : list MessageRef.t)
  : SQLiteStore * option error :=
  match db_call s with
  | (s, Some e) => (s, Some e)
  | (s, None) =>
      ({| messages := upsert_rows (messages s) msgs;
          metadata := metadata s; faults := faults s |}, None)
  end.

Definition SQLite_DeleteMessages (s : SQLiteStore) (ids : list string)
  : SQLiteStore * option error :=
  if decide (ids = []) then (s, None) else
  match db_call s with
  | (s, Some e) => (s, Some e)
  | (s, None) =>
      ({| messages := delete_rows (messages s) ids;
          metadata := metadata s; faults := faults s |}, None)
  end.

Definition SQLite_LoadAllMessages (s : SQLiteStore)
  : SQLiteStore * (list MessageRef.t * option error) :=
  match db_call s with
  | (s, Some e) => (s, ([], Some e))
  | (s, None) => (s, (map snd (map_to_list (messages s)), None))
  end.

Definition SQLite_CountMessages (s : SQLiteStore) : SQLiteStore * (Z * option error) :=
  match db_call s with
  | (s, Some e) => (s, (0%Z, Some e))
  | (s, None) => (s, (Z.of_nat (size (messages s)), None))
  end.

Definition SQLite_GetMessagesByIDs (s : SQLiteStore) (ids : list string)
  : SQLiteStore * (list MessageRef.t * option error) :=
  if decide (ids = []) then (s, ([], None)) else
  match db_call s with
  | (s, Some e) => (s, ([], Some e))
  | (s, None) =>
      (s, (map snd (map_to_list (filter (fun kv => kv.1 ∈ ids) (messages s))), None))
  end.

(** [sql.ErrNoRows] is turned into the empty string. *)
Definition SQLite_GetLastHistoryID (s : SQLiteStore)
  : SQLiteStore * (string * option error) :=
  match db_call s with
  | (s, Some e) => (s, ("", Some e))
  | (s, None) => (s, (default "" (metadata s !! "last_history_id"), None))
  end.

Definition SQLite_SetLastHistoryID (s : SQLiteStore) (historyID : string)
  : SQLiteStore * option error :=
  match db_call s with
  | (s, Some e) => (s, Some e)
  | (s, None) =>
      ({| messages := messages s;
          metadata := <["last_history_id" := historyID]> (metadata s);
          faults := faults s |}, None)
  end.

#[export] Instance SQLite_MessageStore : MessageStore SQLiteStore := {
  UpsertMessages := SQLite_UpsertMessages;
  DeleteMessages := SQLite_DeleteMessages;
  LoadAllMessages := SQLite_LoadAllMessages;
  CountMessages := SQLite_CountMessages;
  GetMessagesByIDs := SQLite_GetMessagesByIDs;
  GetLastHistoryID := SQLite_GetLastHistoryID;
  SetLastHistoryID := SQLite_SetLastHistoryID
}.

(** A store that records the calls made to it and hands them on, the way
    a test double does. *)
Inductive call : Type :=
| CallUpsert (msgs : list MessageRef.t) (result : option error)
| CallDelete (ids : list string) (result : option error)
| CallSetLastHistoryID (historyID : string) (result : option error)
| CallRead.

Record Recording (S : Type) := { inner : S; calls : list call }.
Arguments inner {S} _.
Arguments calls {S} _.

Definition record_call {S} (r : Recording S) (s : S) (c : call) : Recording S :=
  {| inner := s; calls := (calls r ++ [c])%list |}.

#[export] Instance Recording_MessageStore {S} `{MessageStore S}
  : MessageStore (Recording S) := {
  UpsertMessages r msgs :=
    let '(s, e) := UpsertMessages (inner r) msgs in
    (record_call r s (CallUpsert msgs e), e);
  DeleteMessages r ids :=
    let '(s, e) := DeleteMessages (inner r) ids in
    (record_call r s (CallDelete ids e), e);
  LoadAllMessages r :=
    let '(s, x) := LoadAllMessages (inner r) in (record_call r s CallRead, x);
  CountMessages r :=
    let '(s, x) := CountMessages (inner r) in (record_call r s CallRead, x);
  GetMessagesByIDs r ids :=
    let '(s, x) := GetMessagesByIDs (inner r) ids in (record_call r s CallRead, x);
  GetLastHistoryID r :=
    let '(s, x) := GetLastHistoryID (inner r) in (record_call r s CallRead, x);
  SetLastHistoryID r historyID :=
    let '(s, e) := SetLastHistoryID (inner r) historyID in
    (record_call r s (CallSetLastHistoryID historyID e), e)
}.

End store.

(* ===================================================================== *)
(** * The remote mail gateway ([google.golang.org/api/gmail/v1])          *)
(* ===================================================================== *)

Module gmailv1.

Record MessagePartHeader := { HeaderName : string; HeaderValue : string }.

(** [Message]: [Payload_Headers] is [msg.Payload.Headers]. *)
Record Message := {
  Id : string;
  LabelIds : list string;
  Payload_Headers : list MessagePartHeader
}.

(** The four kinds of change of a history record; [changed] is the
    [Message] pointer ([None] is [nil]) and [labels] the [LabelIds] of a
    label change. *)
Record HistoryMessageAdded := { added : option Message }.
Record HistoryMessageDeleted := { deleted : option Message }.
Record HistoryLabelAdded := { la_LabelIds : list string; la_Message : option Message }.
Record HistoryLabelRemoved := { lr_LabelIds : list string; lr_Message : option Message }.

Record History := {
  HistoryRecordId : N;
  MessagesAdded : list HistoryMessageAdded;
  MessagesDeleted : list HistoryMessageDeleted;
  LabelsAdded : list HistoryLabelAdded;
  LabelsRemoved : list HistoryLabelRemoved
}.

Record ListHistoryResponse := {
  HistoryList : list History;
  HistoryId : N;
  History_NextPageToken : string
}.

Record ListMessagesResponse := {
  Messages : list Message;
  Messages_NextPageToken : string;
  ResultSizeEstimate : Z
}.

(** The service as one run sees it: the profile's [HistoryId], the
    answers to the successive [Users.Messages.List] and
    [Users.History.List] calls, and the answer to
    [Users.Messages.Get] for each id. *)
Record Service := {
  Users_GetProfile : error + N;
  Users_Messages_List : list (error + ListMessagesResponse);
  Users_Messages_Get : string -> error + Message;
  Users_History_List : list (error + ListHistoryResponse)
}.

(** [call.Do()] on a scripted listing takes the next answer; a call past
    the end of the script fails with this error. *)
Definition no_response : error := Err "gateway: no response".

End gmailv1.

(** What one run owes to scheduling: after how many polls of [ctx.Done()]
    by a paging loop the context is cancelled ([None]: never), and which of
    the results sent by the workers reach the collector, in which order (a
    worker that sees the context cancelled returns and leaves its jobs). *)
Record Scheduler := {
  arrive : forall A : Type, list A -> list A;
  arrive_sub : forall (A : Type) (l : list A), arrive A l ⊆+ l
}.
Arguments arrive _ {A} _.

Record Run := {
  ctx_cancel : option nat;
  workers : Scheduler;
  map_order : MapOrder
}.

Definition ctx_done (run : Run) (poll : nat) : bool :=
  match ctx_cancel run with
  | Some n => bool_decide (n <= poll)
  | None => false
  end.

(* ===================================================================== *)
(** * [internal/gmail]: full scan and incremental sync                    *)
(* ===================================================================== *)

Module gmail_sync.
Import GoStrings.
Import util.
Import gmail_fetch.
Import gmailv1.

(** [fmt.Sprintf("%d", n)] for a [uint64]. *)
Definition Sprintf_d (n : N) : string := NilZero.string_of_uint (N.to_uint n).

Definition is_digit (c : ascii) : bool := ((48 <=? code c) && (code c <=? 57))%N.

Fixpoint digits_value (acc : N) (s : string) : N :=
  match s with
  | EmptyString => acc
  | String c r => digits_value (acc * 10 + (code c - 48))%N r
  end.

(** [strconv.ParseUint(s, 10, 64)]; [None] is a syntax or range error. *)
Definition ParseUint (s : string) : option N :=
  if decide (s = "") then None
  else if negb (str_forall is_digit s) then None
  else let v := digits_value 0 s in
       if (v <? 2 ^ 64)%N then Some v else None.

(** [currentHistoryID] *)
Definition currentHistoryID (svc : Service) : string * option error :=
  match Users_GetProfile svc with
  | inl e => ("", Some e)
  | inr hid => (Sprintf_d hid, None)
  end.

Record result := { ref : MessageRef.t; err : option error }.

(** The header loop of a worker: the last header of each name wins. *)
Record decoded := {
  h_from : string; h_subject : string; h_date : string;
  h_listUnsub : string; h_listUnsubPost : string
}.

Definition decode_header (rt : GoRuntime) (d : decoded) (h : MessagePartHeader) : decoded :=
  let name := ToLower rt (HeaderName h) in
  let v := HeaderValue h in
  if String.eqb name "from" then
    {| h_from := v; h_subject := h_subject d; h_date := h_date d;
       h_listUnsub := h_listUnsub d; h_listUnsubPost := h_listUnsubPost d |}
  else if String.eqb name "subject" then
    {| h_from := h_from d; h_subject := v; h_date := h_date d;
       h_listUnsub := h_listUnsub d; h_listUnsubPost := h_listUnsubPost d |}
  else if String.eqb name "date" then
    {| h_from := h_from d; h_subject := h_subject d; h_date := v;
       h_listUnsub := h_listUnsub d; h_listUnsubPost := h_listUnsubPost d |}
  else if String.eqb name "list-unsubscribe" then
    {| h_from := h_from d; h_subject := h_subject d; h_date := h_date d;
       h_listUnsub := v; h_listUnsubPost := h_listUnsubPost d |}
  else if String.eqb name "list-unsubscribe-post" then
    {| h_from := h_from d; h_subject := h_subject d; h_date := h_date d;
       h_listUnsub := h_listUnsub d; h_listUnsubPost := v |}
  else d.

Definition decode_headers (rt : GoRuntime) (msg : Message) : decoded :=
  fold_left (decode_header rt) (Payload_Headers msg)
    {| h_from := ""; h_subject := ""; h_date := "";
       h_listUnsub := ""; h_listUnsubPost := "" |}.

(** What a worker sends for one job, in [FullScan] and in
    [fetchMetadataBatch] alike. *)
Definition worker (rt : GoRuntime) (svc : Service) (id : string) : result :=
  match Users_Messages_Get svc id with
  | inl e => {| ref := MessageRef.zero; err := Some e |}
  | inr msg =>
      let d := decode_headers rt msg in
      {| ref := MessageRef.mk (Id msg) (h_subject d) (parseDateRFC3339 rt (h_date d))
                  (NormalizeSender rt (h_from d)) (h_listUnsub d) (h_listUnsubPost d);
         err := None |}
  end.

(** ** [FullScan] *)

(** The paging goroutine: the ids it queues and the error result it
    sends when a page fails. *)
Fixpoint list_pages (run : Run) (poll : nat)
    (script : list (error + ListMessagesResponse))
  : list string * option error :=
  if ctx_done run poll then ([], None) else
  match script with
  | [] => ([], Some (Wrap "list messages" no_response))
  | inl e :: _ => ([], Some (Wrap "list messages" e))
  | inr resp :: rest =>
      let ids := map Id (Messages resp) in
      if decide (Messages_NextPageToken resp = "") then (ids, None)
      else let '(more, e) := list_pages run (S poll) rest in
           ((ids ++ more)%list, e)
  end.

(** The state of the collecting loop. *)
Record collector (St : Type) := {
  c_store : St;
  c_collectErr : option error;
  c_buf : list MessageRef.t;
  c_done : Z
}.
Arguments c_store {St} _.
Arguments c_collectErr {St} _.
Arguments c_buf {St} _.
Arguments c_done {St} _.

Definition first_error (collectErr e : option error) : option error :=
  match collectErr with
  | Some _ => collectErr
  | None => e
  end.

Definition batch : nat := 500.

Definition collect {St} `{MessageStore St} (c : collector St) (r : result) : collector St :=
  match err r with
  | Some e =>
      {| c_store := c_store c; c_collectErr := first_error (c_collectErr c) (Some e);
         c_buf := c_buf c; c_done := c_done c |}
  | None =>
      if decide (MessageRef.From (ref r) = "") then c else
      let buf := (c_buf c ++ [ref r])%list in
      let done := int_incr (c_done c) in
      if decide (batch <= length buf) then
        let '(s, e) := UpsertMessages (c_store c) buf in
        {| c_store := s; c_collectErr := first_error (c_collectErr c) e;
           c_buf := []; c_done := done |}
      else
        {| c_store := c_store c; c_collectErr := c_collectErr c;
           c_buf := buf; c_done := done |}
  end.

(** What is sent on the [results] channel: by the workers for the ids
    queued, and by the paging goroutine when a page fails. *)
Definition scan_sent (rt : GoRuntime) (run : Run) (svc : Service) : list result :=
  let '(ids, listErr) := list_pages run 0 (Users_Messages_List svc) in
  (map (worker rt svc) ids ++
   match listErr with
   | Some e => [{| ref := MessageRef.zero; err := Some e |}]
   | None => []
   end)%list.

(** What [for r := range results] receives. *)
Definition scan_results (rt : GoRuntime) (run : Run) (svc : Service) : list result :=
  arrive (workers run) (scan_sent rt run svc).

(** The [progress] callback only reports [done] and the estimated total to
    the caller; it touches neither the store nor the control flow and is
    left out, here and in [SyncSinceHistory]. *)
Definition FullScan {St} `{MessageStore St} (rt : GoRuntime) (run : Run)
    (svc : Service) (store : option St) : option St * option error :=
  match store with
  | None => (None, Some (Err "message store is required"))
  | Some st =>
      match currentHistoryID svc with
      | (_, Some e) => (Some st, Some (Wrap "get current historyId" e))
      | (hid, None) =>
          let results := scan_results rt run svc in
          let c := fold_left collect results
                     {| c_store := st; c_collectErr := None; c_buf := []; c_done := 0 |} in
          let '(st, collectErr) :=
            if decide (0 < length (c_buf c)) then
              let '(s, e) := UpsertMessages (c_store c) (c_buf c) in
              (s, first_error (c_collectErr c) e)
            else (c_store c, c_collectErr c) in
          let '(st, collectErr) :=
            if (c_done c >? 0)%Z then
              let '(s, e) := SetLastHistoryID st hid in
              (s, first_error collectErr e)
            else (st, collectErr) in
          (Some st, collectErr)
      end
  end.

(** ** [SyncSinceHistory] *)

Fixpoint contains (arr : list string) (v : string) : bool :=
  match arr with
  | [] => false
  | x :: xs => if decide (x = v) then true else contains xs v
  end.

Definition hasLabel (m : option Message) (id : string) : bool :=
  match m with
  | None => false
  | Some m => contains (LabelIds m) id
  end.

(** [addSet] and [delSet]. *)
Record sets := { addSet : gset string; delSet : gset string }.

Definition set_add (id : string) (s : sets) : sets :=
  {| addSet := {[id]} ∪ addSet s; delSet := delSet s ∖ {[id]} |}.
Definition set_del (id : string) (s : sets) : sets :=
  {| addSet := addSet s ∖ {[id]}; delSet := {[id]} ∪ delSet s |}.

Definition on_added (s : sets) (ma : HistoryMessageAdded) : sets :=
  match added ma with
  | None => s
  | Some m => if hasLabel (Some m) "INBOX" then set_add (Id m) s else s
  end.

Definition on_deleted (s : sets) (md : HistoryMessageDeleted) : sets :=
  match deleted md with
  | None => s
  | Some m => set_del (Id m) s
  end.

Definition on_label_added (s : sets) (la : HistoryLabelAdded) : sets :=
  match la_Message la with
  | None => s
  | Some m => if contains (la_LabelIds la) "INBOX" then set_add (Id m) s else s
  end.

Definition on_label_removed (s : sets) (lr : HistoryLabelRemoved) : sets :=
  match lr_Message lr with
  | None => s
  | Some m => if contains (lr_LabelIds lr) "INBOX" then set_del (Id m) s else s
  end.

(** The state of the paging loop: the two sets and [newestHistoryID]. *)
Record walk := { w_sets : sets; w_newest : string }.

(** The body of [for _, h := range resp.History]. *)
Definition on_history (w : walk) (h : History) : walk :=
  let newest :=
    if negb (HistoryRecordId h =? 0)%N then Sprintf_d (HistoryRecordId h)
    else w_newest w in
  let s := fold_left on_added (MessagesAdded h) (w_sets w) in
  let s := fold_left on_deleted (MessagesDeleted h) s in
  let s := fold_left on_label_added (LabelsAdded h) s in
  let s := fold_left on_label_removed (LabelsRemoved h) s in
  {| w_sets := s; w_newest := newest |}.

Definition on_page (w : walk) (resp : ListHistoryResponse) : walk :=
  let newest :=
    if negb (HistoryId resp =? 0)%N then Sprintf_d (HistoryId resp)
    else w_newest w in
  fold_left on_history (HistoryList resp) {| w_sets := w_sets w; w_newest := newest |}.

(** The paging loop of [SyncSinceHistory]. *)
Fixpoint history_pages (run : Run) (poll : nat)
    (script : list (error + ListHistoryResponse)) (w : walk)
  : walk + error :=
  if ctx_done run poll then inr Canceled else
  match script with
  | [] => inr (Wrap "history list" no_response)
  | inl e :: _ => inr (Wrap "history list" e)
  | inr resp :: rest =>
      let w := on_page w resp in
      if decide (History_NextPageToken resp = "") then inl w
      else history_pages run (S poll) rest w
  end.

(** [keys(m)] *)
Definition keys (run : Run) (m : gset string) : list string :=
  range (map_order run) (elements m).

(** The collecting loop of [fetchMetadataBatch]. *)
Definition gather (acc : list MessageRef.t * option error) (r : result)
  : list MessageRef.t * option error :=
  let '(out, firstErr) := acc in
  match err r, firstErr with
  | Some e, None => (out, Some e)
  | _, _ =>
      if decide (MessageRef.From (ref r) = "") then (out, firstErr)
      else ((out ++ [ref r])%list, firstErr)
  end.

(** What the collecting loop of [fetchMetadataBatch] receives. *)
Definition batch_results (rt : GoRuntime) (run : Run) (svc : Service)
    (ids : list string) : list result :=
  arrive (workers run) (map (worker rt svc) ids).

Definition fetchMetadataBatch (rt : GoRuntime) (run : Run) (svc : Service)
    (ids : list string) : list MessageRef.t * option error :=
  fold_left gather (batch_results rt run svc ids) ([], None).

Definition SyncSinceHistory {St} `{MessageStore St} (rt : GoRuntime) (run : Run)
    (svc : Service) (store : option St) (lastHistoryID : string)
  : option St * option error :=
  match store with
  | None => (None, Some (Err "message store is required"))
  | Some st =>
      if decide (TrimSpace lastHistoryID = "") then
        (Some st, Some (Err "lastHistoryID is required"))
      else
      match ParseUint lastHistoryID with
      | None => (Some st, Some (Err "invalid lastHistoryID"))
      | Some startID =>
          let script := Users_History_List svc in
          match history_pages run 0 script
                  {| w_sets := {| addSet := ∅; delSet := ∅ |}; w_newest := "" |} with
          | inr e => (Some st, Some e)
          | inl w =>
              let addIDs := keys run (addSet (w_sets w)) in
              let '(st, e) :=
                if decide (0 < length addIDs) then
                  match fetchMetadataBatch rt run svc addIDs with
                  | (_, Some e) => (st, Some e)
                  | (msgs, None) => UpsertMessages st msgs
                  end
                else (st, None) in
              match e with
              | Some e => (Some st, Some e)
              | None =>
                  let '(st, e) :=
                    if decide (0 < size (delSet (w_sets w))) then
                      DeleteMessages st (keys run (delSet (w_sets w)))
                    else (st, None) in
                  match e with
                  | Some e => (Some st, Some e)
                  | None =>
                      let '(newest, e) :=
                        if decide (w_newest w = "") then
                          match currentHistoryID svc with
                          | (_, Some e) => ("", Some (Wrap "get current historyId" e))
                          | (hid, None) => (hid, None)
                          end
                        else (w_newest w, None) in
                      match e with
                      | Some e => (Some st, Some e)
                      | None =>
                          let '(st, e) := SetLastHistoryID st newest in
                          (Some st, e)
                      end
                  end
              end
          end
      end
  end.

End gmail_sync.

(* ===================================================================== *)
(** * [internal/gmail/fetch.go]: [FetchGroups]                            *)
(* ===================================================================== *)

Module gmail_fetch_groups.
Import GoStrings.
Import util.
Import gmail_fetch.
Import gmailv1.
Import gmail_sync.

Record result := {
  r_from : string; r_subject : string; r_date : string;
  r_listUnsub : string; r_listUnsubPost : string;
  r_id : string;
  r_err : option error
}.

(** What a worker of [FetchGroups] sends for one job. *)
Definition worker (rt : GoRuntime) (svc : Service) (id : string) : result :=
  match Users_Messages_Get svc id with
  | inl e => {| r_from := ""; r_subject := ""; r_date := ""; r_listUnsub := "";
               r_listUnsubPost := ""; r_id := ""; r_err := Some e |}
  | inr msg =>
      let d := decode_headers rt msg in
      {| r_from := h_from d; r_subject := h_subject d; r_date := h_date d;
         r_listUnsub := h_listUnsub d; r_listUnsubPost := h_listUnsubPost d;
         r_id := Id msg; r_err := None |}
  end.

(** One round of the collector goroutine: [groups] and [collectErr]. *)
Definition collect (rt : GoRuntime)
    (acc : gmap string SenderGroup.t * option error) (r : result)
  : gmap string SenderGroup.t * option error :=
  let '(groups, collectErr) := acc in
  match r_err r with
  | Some e => (groups, first_error collectErr (Some e))
  | None =>
      let email := NormalizeSender rt (r_from r) in
      if decide (email = "") then acc else
      let subject := r_subject r in
      let key := email ++ "||" ++ subject in
      let g :=
        match groups !! key with
        | Some g => g
        | None =>
            SenderGroup.mk email subject (displayNameFromFrom rt (r_from r) email)
              0 "" "" "" [] ""
        end in
      let count := int_incr (SenderGroup.Count g) in
      let sample :=
        if decide (SenderGroup.Sample g = "" /\ subject <> "") then subject
        else SenderGroup.Sample g in
      let ts := parseDateRFC3339 rt (r_date r) in
      let first :=
        if negb (String.eqb ts "")
           && (String.eqb (SenderGroup.FirstDate g) "" || String.ltb ts (SenderGroup.FirstDate g))
        then ts else SenderGroup.FirstDate g in
      let last :=
        if negb (String.eqb ts "")
           && (String.eqb (SenderGroup.LastDate g) "" || String.ltb (SenderGroup.LastDate g) ts)
        then ts else SenderGroup.LastDate g in
      let ids := (SenderGroup.MessageIDs g ++ [r_id r])%list in
      let unsub :=
        if decide (SenderGroup.UnsubscribeURL g = "" /\ r_listUnsub r <> "")
        then extractHTTPUnsubscribeURL rt (r_listUnsub r)
        else SenderGroup.UnsubscribeURL g in
      (<[key := SenderGroup.mk (SenderGroup.Email g) (SenderGroup.Subject g)
                  (SenderGroup.DisplayName g) count sample first last ids unsub]> groups,
       collectErr)
  end.

(** The paging loop: the ids queued, and the error it returns with when
    the context is cancelled or a page fails. *)
Fixpoint fetch_pages (run : Run) (poll : nat)
    (script : list (error + ListMessagesResponse))
  : list string * option error :=
  if ctx_done run poll then ([], Some Canceled) else
  match script with
  | [] => ([], Some (Wrap "list messages" no_response))
  | inl e :: _ => ([], Some (Wrap "list messages" e))
  | inr resp :: rest =>
      let ids := map Id (Messages resp) in
      if decide (Messages_NextPageToken resp = "") then (ids, None)
      else let '(more, e) := fetch_pages run (S poll) rest in
           ((ids ++ more)%list, e)
  end.

(** What the collector receives. *)
Definition fetch_results (rt : GoRuntime) (run : Run) (svc : Service) : list result :=
  let '(ids, _) := fetch_pages run 0 (Users_Messages_List svc) in
  arrive (workers run) (map (worker rt svc) ids).

Definition FetchGroups (rt : GoRuntime) (run : Run) (svc : Service)
  : gmap string SenderGroup.t * option error :=
  let '(_, pageErr) := fetch_pages run 0 (Users_Messages_List svc) in
  let '(groups, collectErr) := fold_left (collect rt) (fetch_results rt run svc) (∅, None) in
  match pageErr with
  | Some e => (groups, Some e)
  | None => (groups, collectErr)
  end.

End gmail_fetch_groups.

(* ===================================================================== *)
(** * [internal/gmail]: the cached groups and the first page              *)
(* ===================================================================== *)

Module gmail_cache.
Import GoStrings.
Import util.
Import gmail_fetch.
Import gmailv1.
Import gmail_sync.

(** [LoadGroupsFromDB(ctx, store)]; a nil slice is the empty list. *)
Definition LoadGroupsFromDB {St} `{MessageStore St} (rt : GoRuntime) (run : Run)
    (store : option St) : option St * (list SenderGroup.t * option error) :=
  match store with
  | None => (None, ([], Some (Err "message store is required")))
  | Some st =>
      match LoadAllMessages st with
      | (st, (_, Some e)) => (Some st, ([], Some e))
      | (st, (msgs, None)) =>
          let m := AggregateBySenderSubject rt msgs in
          (Some st, (SortGroups (map_order run) m, None))
      end
  end.

(** The body of the loop of [FetchInitialEmails]: a message that cannot be
    fetched is passed over. *)
Definition initial_ref (rt : GoRuntime) (svc : Service) (m : Message)
  : option MessageRef.t :=
  match Users_Messages_Get svc (Id m) with
  | inl _ => None
  | inr msg =>
      let d := decode_headers rt msg in
      Some (MessageRef.mk (Id msg) (h_subject d) (parseDateRFC3339 rt (h_date d))
              (h_from d) (h_listUnsub d) (h_listUnsubPost d))
  end.

(** [FetchInitialEmails(ctx, svc, n)]: one [Users.Messages.List] call, of
    which [n] is the page size asked for, then one
    [Users.Messages.Get] per message listed. *)
Definition FetchInitialEmails (rt : GoRuntime) (svc : Service)
  : list MessageRef.t * option error :=
  match Users_Messages_List svc with
  | [] => ([], Some (Wrap "list messages" no_response))
  | inl e :: _ => ([], Some (Wrap "list messages" e))
  | inr listed :: _ => (omap (initial_ref rt svc) (Messages listed), None)
  end.

End gmail_cache.

(* ===================================================================== *)
(** * [internal/gmail]: opening the unsubscribe link                      *)
(* ===================================================================== *)

Module gmail_unsubscribe.
Import GoStrings.
Import gmail_fetch.

(** The machine the program runs on: [runtime.GOOS], and what
    [exec.Command(cmd, args...).Start()] answers. *)
Record Host := {
  GOOS : string;
  exec_Start : string -> list string -> option error
}.

(** A command handed to [Start]. *)
Record command := { cmd : string; args : list string }.

(** The [switch runtime.GOOS] of [OpenBrowser]: the command of the
    platform, [None] on a platform that has none. *)
Definition platform_command (host : Host) (url : string) : option command :=
  if String.eqb (GOOS host) "darwin" then Some {| cmd := "open"; args := [url] |}
  else if String.eqb (GOOS host) "linux" then Some {| cmd := "xdg-open"; args := [url] |}
  else if String.eqb (GOOS host) "windows" then
    Some {| cmd := "rundll32"; args := ["url.dll,FileProtocolHandler"; url] |}
  else None.

(** [OpenBrowser(url)]: the commands handed to the operating system and
    the error returned. *)
Definition OpenBrowser (rt : GoRuntime) (host : Host) (url : string)
  : list command * option error :=
  match platform_command host url with
  | None => ([], Some (Err ("unsupported platform " ++ GOOS host)))
  | Some c =>
      let lower := ToLower rt url in
      if negb (HasPrefix lower "http://") && negb (HasPrefix lower "https://") then
        ([], Some (Err ("refusing to open non-HTTP URL: " ++ url)))
      else ([c], exec_Start host (cmd c) (args c))
  end.

Definition no_http_url : error :=
  Err "no HTTP unsubscribe URL found (header may contain only mailto links)".

(** [OpenUnsubscribeURL(rawHeader)] *)
Definition OpenUnsubscribeURL (rt : GoRuntime) (host : Host) (rawHeader : string)
  : list command * option error :=
  let url := extractHTTPUnsubscribeURL rt rawHeader in
  if decide (url = "") then ([], Some no_http_url)
  else OpenBrowser rt host url.

End gmail_unsubscribe.

(* ===================================================================== *)
(** * [internal/gmail]: archive and trash                                 *)
(* ===================================================================== *)

Module gmail_actions.
Import GoStrings.

Record ModifyMessageRequest := {
  AddLabelIds : list string;
  RemoveLabelIds : list string
}.

(** The mailbox as the two loops see it: the answer to the [n]-th request
    of a loop, for the message asked ([None] is a nil error). *)
Record Mailbox := {
  Users_Messages_Modify : nat -> string -> ModifyMessageRequest -> option error;
  Users_Messages_Trash : nat -> string -> option error
}.

(** A request sent to the mailbox. *)
Inductive request : Type :=
| Modify (id : string) (req : ModifyMessageRequest)
| Trash (id : string).

(** The loop of [ArchiveMessages] from its [n]-th round on: the requests
    sent and the error returned. *)
Fixpoint archive_from (run : Run) (box : Mailbox) (n : nat) (messageIDs : list string)
  : list request * option error :=
  match messageIDs with
  | [] => ([], None)
  | id :: rest =>
      if ctx_done run n then ([], Some Canceled) else
      let req := {| AddLabelIds := []; RemoveLabelIds := ["INBOX"] |} in
      match Users_Messages_Modify box n id req with
      | Some e => ([Modify id req], Some (Wrap ("archive message " ++ id) e))
      | None =>
          let '(sent, e) := archive_from run box (S n) rest in
          (Modify id req :: sent, e)
      end
  end.

Definition ArchiveMessages (run : Run) (box : Mailbox) (messageIDs : list string)
  : list request * option error :=
  archive_from run box 0 messageIDs.

Fixpoint trash_from (run : Run) (box : Mailbox) (n : nat) (messageIDs : list string)
  : list request * option error :=
  match messageIDs with
  | [] => ([], None)
  | id :: rest =>
      if ctx_done run n then ([], Some Canceled) else
      match Users_Messages_Trash box n id with
      | Some e => ([Trash id], Some (Wrap ("trash message " ++ id) e))
      | None =>
          let '(sent, e) := trash_from run box (S n) rest in
          (Trash id :: sent, e)
      end
  end.

Definition TrashMessages (run : Run) (box : Mailbox) (messageIDs : list string)
  : list request * option error :=
  trash_from run box 0 messageIDs.

End gmail_actions.

(* ===================================================================== *)
(** * [internal/gmail]: the body of a message                             *)
(* ===================================================================== *)

Module gmail_body.
Import GoStrings.

(** The two decoders of [encoding/base64] that [decodeBase64URL] calls;
    [None] is a non-nil error. *)
Record GoEncoding := {
  base64_URLEncoding_DecodeString : string -> option string;
  base64_RawURLEncoding_DecodeString : string -> option string
}.

Record MessagePartBody := { Data : string }.

(** [gmailv1.MessagePart]: [Body] is a pointer ([None] is nil); [Parts]
    holds the sub-parts the decoder allocated (none of them nil). *)
#[warnings="-register-all"]
Inductive MessagePart : Type :=
  Build_MessagePart (MimeType : string) (Body : option MessagePartBody)
    (Parts : list MessagePart).

Definition MimeType (p : MessagePart) : string :=
  match p with Build_MessagePart m _ _ => m end.
Definition Body (p : MessagePart) : option MessagePartBody :=
  match p with Build_MessagePart _ b _ => b end.
Definition Parts (p : MessagePart) : list MessagePart :=
  match p with Build_MessagePart _ _ ps => ps end.

(** [Users.Messages.Get(...).Format("full")] answers with the payload
    ([None] is nil) and the snippet. *)
Record FullMessage := { Payload : option MessagePart; Snippet : string }.

Definition decodeBase64URL (enc : GoEncoding) (data : string) : string :=
  match base64_URLEncoding_DecodeString enc data with
  | Some b => b
  | None =>
      match base64_RawURLEncoding_DecodeString enc data with
      | Some b => b
      | None => ""
      end
  end.

(** [part.Body != nil && part.Body.Data != ""] *)
Definition has_data (p : MessagePart) : bool :=
  match Body p with
  | Some b => negb (String.eqb (Data b) "")
  | None => false
  end.

Definition body_data (p : MessagePart) : string :=
  match Body p with
  | Some b => Data b
  | None => ""
  end.

(** [extractPlainText] on a part that is not nil.  The first loop looks
    at the sub-parts of type text/plain, the second at all of them. *)
Fixpoint extractPlainText_part (enc : GoEncoding) (rt : GoRuntime) (part : MessagePart)
  : string :=
  let mime := ToLower rt (MimeType part) in
  if String.eqb mime "text/plain" && has_data part then
    decodeBase64URL enc (body_data part)
  else
    match part with
    | Build_MessagePart _ _ parts =>
        let plain :=
          (fix prefer (subs : list MessagePart) : string :=
             match subs with
             | [] => ""
             | sub :: rest =>
                 if String.eqb (ToLower rt (MimeType sub)) "text/plain" then
                   let body := extractPlainText_part enc rt sub in
                   if negb (String.eqb body "") then body else prefer rest
                 else prefer rest
             end) parts in
        if negb (String.eqb plain "") then plain
        else
          (fix any (subs : list MessagePart) : string :=
             match subs with
             | [] => ""
             | sub :: rest =>
                 let body := extractPlainText_part enc rt sub in
                 if negb (String.eqb body "") then body else any rest
             end) parts
    end.

(** [extractPlainText(part)] *)
Definition extractPlainText (enc : GoEncoding) (rt : GoRuntime)
    (part : option MessagePart) : string :=
  match part with
  | None => ""
  | Some p => extractPlainText_part enc rt p
  end.

Fixpoint extractHTML_part (enc : GoEncoding) (rt : GoRuntime) (part : MessagePart)
  : string :=
  let mime := ToLower rt (MimeType part) in
  if String.eqb mime "text/html" && has_data part then
    decodeBase64URL enc (body_data part)
  else
    match part with
    | Build_MessagePart _ _ parts =>
        (fix any (subs : list MessagePart) : string :=
           match subs with
           | [] => ""
           | sub :: rest =>
               let body := extractHTML_part enc rt sub in
               if negb (String.eqb body "") then body else any rest
           end) parts
    end.

(** [extractHTML(part)] *)
Definition extractHTML (enc : GoEncoding) (rt : GoRuntime)
    (part : option MessagePart) : string :=
  match part with
  | None => ""
  | Some p => extractHTML_part enc rt p
  end.

(** [strings.ReplaceAll(s, old, new)] for an [old] that is not empty: the
    occurrences are taken from the left and do not overlap.  [skip] counts
    the bytes of an occurrence still to pass over. *)
Fixpoint replace_from (skip : nat) (s old new : string) : string :=
  match s with
  | EmptyString => EmptyString
  | String c r =>
      match skip with
      | S k => replace_from k r old new
      | O =>
          if HasPrefix s old then new ++ replace_from (String.length old - 1) r old new
          else String c (replace_from 0 r old new)
      end
  end.

Definition ReplaceAll (s old new : string) : string := replace_from 0 s old new.

(** [strings.Contains(s, substr)] *)
Fixpoint Contains (s substr : string) : bool :=
  HasPrefix s substr ||
  match s with
  | EmptyString => false
  | String _ r => Contains r substr
  end.

(** The line feed. *)
Definition nl : string := String (ascii_of_N 10) EmptyString.

(** The closing tags and line breaks that become a line feed. *)
Definition block_tags : list string :=
  [ "<br>"; "<br/>"; "<br />"; "</p>"; "</div>"; "</tr>"; "</li>";
    "</h1>"; "</h2>"; "</h3>"; "</h4>"; "</h5>"; "</h6>" ].

Definition break_blocks (rt : GoRuntime) (html : string) : string :=
  fold_left
    (fun html tag => ReplaceAll (ReplaceAll html tag nl) (ToUpper rt tag) nl)
    block_tags html.

(** The bytes of the UTF-8 encoding that [s] starts with, as
    [utf8.DecodeRuneInString] accepts it: 0 when [s] starts with no valid
    encoding (the loop over the string then yields [utf8.RuneError] and
    moves on by one byte). *)
Definition continuation (c : ascii) : bool := ((128 <=? code c) && (code c <=? 191))%N.

Definition rune_len (s : string) : nat :=
  match s with
  | EmptyString => 0
  | String a r =>
      let x := code a in
      if (x <? 128)%N then 1
      else if (x <? 194)%N then 0
      else if (x <? 224)%N then
        match r with
        | String b _ => if continuation b then 2 else 0
        | _ => 0
        end
      else if (x <? 240)%N then
        match r with
        | String b (String c _) =>
            let lo := if (x =? 224)%N then 160%N else 128%N in
            let hi := if (x =? 237)%N then 159%N else 191%N in
            if (lo <=? code b)%N && (code b <=? hi)%N && continuation c then 3 else 0
        | _ => 0
        end
      else if (x <? 245)%N then
        match r with
        | String b (String c (String d _)) =>
            let lo := if (x =? 240)%N then 144%N else 128%N in
            let hi := if (x =? 244)%N then 143%N else 191%N in
            if (lo <=? code b)%N && (code b <=? hi)%N && continuation c && continuation d
            then 4 else 0
        | _ => 0
        end
      else 0
  end.

(** The encoding of [utf8.RuneError], U+FFFD. *)
Definition rune_error : string :=
  String (ascii_of_N 239) (String (ascii_of_N 191) (String (ascii_of_N 189) EmptyString)).

(** The loop of [stripHTMLTags] over the runes of the text: [inTag] is the
    flag of the source, [more] counts the bytes that remain of the rune the
    loop is at. *)
Fixpoint strip_tags (more : nat) (inTag : bool) (s : string) : string :=
  match s with
  | EmptyString => EmptyString
  | String a r =>
      match more with
      | S k => if inTag then strip_tags k inTag r else String a (strip_tags k inTag r)
      | O =>
          if (code a =? 60)%N then strip_tags 0 true r
          else if (code a =? 62)%N then strip_tags 0 false r
          else
            match rune_len s with
            | O => if inTag then strip_tags 0 inTag r
                   else rune_error ++ strip_tags 0 inTag r
            | S k => if inTag then strip_tags k inTag r
                     else String a (strip_tags k inTag r)
            end
      end
  end.

(** The pairs given to [strings.NewReplacer]. *)
Definition entities : list (string * string) :=
  [ ("&amp;", "&"); ("&lt;", "<"); ("&gt;", ">");
    ("&quot;", String (ascii_of_N 34) EmptyString);
    ("&#39;", "'"); ("&apos;", "'"); ("&nbsp;", " ") ].

(** The pair whose old string starts [s]; no old string of [entities] starts
    another one, so at most one does. *)
Fixpoint lookup_pair (pairs : list (string * string)) (s : string)
  : option (string * string) :=
  match pairs with
  | [] => None
  | (old, new) :: rest => if HasPrefix s old then Some (old, new) else lookup_pair rest s
  end.

(** [replacer.Replace(s)]: the text is read once from the left, what has
    been written is not read again. *)
Fixpoint replacer_from (skip : nat) (pairs : list (string * string)) (s : string)
  : string :=
  match s with
  | EmptyString => EmptyString
  | String c r =>
      match skip with
      | S k => replacer_from k pairs r
      | O =>
          match lookup_pair pairs s with
          | Some (old, new) => new ++ replacer_from (String.length old - 1) pairs r
          | None => String c (replacer_from 0 pairs r)
          end
      end
  end.

(** [for strings.Contains(result, "\n\n\n") { ... }]: every round makes
    the text shorter, the fuel is its length. *)
Fixpoint collapse_blank (fuel : nat) (result : string) : string :=
  match fuel with
  | O => result
  | S fuel' =>
      if Contains result (nl ++ nl ++ nl)
      then collapse_blank fuel' (ReplaceAll result (nl ++ nl ++ nl) (nl ++ nl))
      else result
  end.

Definition stripHTMLTags (rt : GoRuntime) (html : string) : string :=
  let html := break_blocks rt html in
  let result := strip_tags 0 false html in
  let result := replacer_from 0 entities result in
  let result := collapse_blank (String.length result) result in
  TrimSpace result.

(** [GetMessageBody(ctx, svc, messageID)]; [get_full] is
    [svc.Users.Messages.Get(user, id).Format("full").Do()]. *)
Definition GetMessageBody (enc : GoEncoding) (rt : GoRuntime)
    (get_full : string -> error + FullMessage) (messageID : string)
  : string * option error :=
  match get_full messageID with
  | inl e => ("", Some (Wrap ("get message " ++ messageID) e))
  | inr msg =>
      let found :=
        match Payload msg with
        | Some p =>
            let body := extractPlainText enc rt (Some p) in
            if negb (String.eqb body "") then Some body
            else
              let html := extractHTML enc rt (Some p) in
              if negb (String.eqb html "") then
                let text := stripHTMLTags rt html in
                if negb (String.eqb text "") then Some text else None
              else None
        | None => None
        end in
      match found with
      | Some body => (body, None)
      | None =>
          if negb (String.eqb (Snippet msg) "") then (Snippet msg, None)
          else ("(no content)", None)
      end
  end.

End gmail_body.

(* ===================================================================== *)
(** * [internal/tui]: what the screens ask of the engine                  *)
(* ===================================================================== *)

Module tui.
Import GoStrings.
Import gmail_fetch.
Import gmail_sync.
Import gmail_cache.
Import gmail_actions.
Import gmail_unsubscribe.

(** [context.Background()]: the run with a context that is never
    cancelled. *)
Definition background (run : Run) : Run :=
  {| ctx_cancel := None; workers := workers run; map_order := map_order run |}.

Record syncCompleteMsg := { groups : list SenderGroup.t; sync_err : option error }.
Record actionResultMsg := { action : string; action_err : option error }.

(** [buildMessageRefsFromGroup(g)] *)
Definition buildMessageRefsFromGroup (g : SenderGroup.t) : list MessageRef.t :=
  map (fun id => MessageRef.mk id (SenderGroup.Subject g) "" (SenderGroup.Email g) "" "")
      (SenderGroup.MessageIDs g).

(** The comparison function of [sortedMessageItems]:
    [sorted[i].DateRFC3339 > sorted[j].DateRFC3339]. *)
Definition newer (a b : MessageRef.t) : bool :=
  String.ltb (MessageRef.DateRFC3339 b) (MessageRef.DateRFC3339 a).

(** [sortedMessageItems(refs)]; a [messageItem] is the [MessageRef] it
    wraps. *)
Definition sortedMessageItems (refs : list MessageRef.t) : list MessageRef.t :=
  SliceStable newer refs.

(** [enterGroup] from the selected group on: the store it leaves and the
    items it gives to the message list ([msgs] is [None] while it is
    nil). *)
Definition enterGroup {St} `{MessageStore St} (store : option St) (g : SenderGroup.t)
  : option St * list MessageRef.t :=
  let '(store, msgs) :=
    match store with
    | Some st =>
        let '(st, (loaded, err)) := GetMessagesByIDs st (SenderGroup.MessageIDs g) in
        if decide (err = None /\ 0 < length loaded) then (Some st, Some loaded)
        else (Some st, None)
    | None => (None, None)
    end in
  let msgs :=
    match msgs with
    | Some msgs => msgs
    | None => buildMessageRefsFromGroup g
    end in
  (store, sortedMessageItems msgs).

(** [archiveCmd(ids)]: the requests sent to the mailbox, the store it
    leaves and the message it returns. *)
Definition archiveCmd {St} `{MessageStore St} (run : Run) (box : Mailbox)
    (store : option St) (ids : list string)
  : list request * option St * actionResultMsg :=
  let '(sent, err) := ArchiveMessages (background run) box ids in
  let store :=
    match err, store with
    | None, Some st => Some (DeleteMessages st ids).1
    | _, _ => store
    end in
  (sent, store, {| action := "Archive"; action_err := err |}).

Definition trashCmd {St} `{MessageStore St} (run : Run) (box : Mailbox)
    (store : option St) (ids : list string)
  : list request * option St * actionResultMsg :=
  let '(sent, err) := TrashMessages (background run) box ids in
  let store :=
    match err, store with
    | None, Some st => Some (DeleteMessages st ids).1
    | _, _ => store
    end in
  (sent, store, {| action := "Trash"; action_err := err |}).

(** The command of [unsubscribeSelectedGroup] for a group that has an
    unsubscribe URL. *)
Definition unsubscribeCmd (rt : GoRuntime) (host : Host) (g : SenderGroup.t)
  : list command * actionResultMsg :=
  let '(started, err) := OpenUnsubscribeURL rt host (SenderGroup.UnsubscribeURL g) in
  match err with
  | Some e => (started, {| action := "Unsubscribe"; action_err := Some e |})
  | None => (started, {| action := "Unsubscribe (opened browser)"; action_err := None |})
  end.

(** [syncCmd]: the message it returns, and the store as the command and
    the goroutine it starts for the incremental sync leave it. *)
Definition syncCmd {St} `{MessageStore St} (rt : GoRuntime) (run : Run)
    (svc : gmailv1.Service) (store : option St) : option St * syncCompleteMsg :=
  let ctx := background run in
  match store with
  | Some st =>
      let '(st, (count, _)) := CountMessages st in
      let '(st, cached) :=
        if (count >? 0)%Z then
          match LoadGroupsFromDB rt ctx (Some st) with
          | (Some st, (groups, None)) =>
              if decide (0 < length groups) then (st, Some groups) else (st, None)
          | (Some st, (_, Some _)) => (st, None)
          | (None, _) => (st, None)
          end
        else (st, None) in
      match cached with
      | Some groups =>
          let '(st, (hid, _)) := GetLastHistoryID st in
          let store :=
            if decide (hid <> "") then (SyncSinceHistory rt ctx svc (Some st) hid).1
            else Some st in
          (store, {| groups := groups; sync_err := None |})
      | None =>
          match FullScan rt ctx svc (Some st) with
          | (store, Some err) => (store, {| groups := []; sync_err := Some err |})
          | (store, None) =>
              let '(store, (groups, err)) := LoadGroupsFromDB rt ctx store in
              (store, {| groups := groups; sync_err := err |})
          end
      end
  | None =>
      match FetchInitialEmails rt svc with
      | (_, Some err) => (None, {| groups := []; sync_err := Some err |})
      | (emails, None) =>
          let groupMap := AggregateBySenderSubject rt emails in
          (None, {| groups := SortGroups (map_order ctx) groupMap; sync_err := None |})
      end
  end.

End tui.

(* ===================================================================== *)
(** * Runs used in the examples                                           *)
(* ===================================================================== *)

Section ByteFacts.
Import GoBytes.

Lemma lower_byte_not_upper (c : ascii) : is_upper (lower_byte c) = false.
Proof. destruct c as [[] [] [] [] [] [] [] []]; reflexivity. Qed.

Lemma lower_byte_idem (c : ascii) : lower_byte (lower_byte c) = lower_byte c.
Proof. destruct c as [[] [] [] [] [] [] [] []]; reflexivity. Qed.

Lemma lower_upper_byte (c : ascii) : lower_byte (upper_byte c) = lower_byte c.
Proof. destruct c as [[] [] [] [] [] [] [] []]; reflexivity. Qed.

Lemma lower_byte_fixed (c : ascii) : is_upper c = false -> lower_byte c = c.
Proof. unfold lower_byte. by intros ->. Qed.

Lemma str_map_lower_no_upper (s : string) :
  str_forall (fun c => negb (is_upper c)) (str_map lower_byte s) = true.
Proof.
  induction s as [|c s IH]; simpl; [done|].
  by rewrite lower_byte_not_upper, IH.
Qed.

End ByteFacts.

(** A runtime for the examples: outside ASCII it maps the ASCII letters
    only, parses no date and no address. *)
Definition ascii_runtime : GoRuntime := {|
  unicode_ToLower := GoBytes.str_map GoBytes.lower_byte;
  unicode_ToUpper := GoBytes.str_map GoBytes.upper_byte;
  time_Parse := fun _ _ => None;
  mail_beyond := fun _ => None;
  unicode_ToLower_lower := str_map_lower_no_upper
|}.

(** Channels delivering in the order of sending; a map ranged over in the
    order of [map_to_list]. *)
Definition fifo : Scheduler :=
  {| arrive := fun A l => l; arrive_sub := fun A l => reflexivity l |}.

Definition in_order : MapOrder :=
  {| range := fun A l => l; range_perm := fun A l => reflexivity l |}.

Definition plain_run : Run :=
  {| ctx_cancel := None; workers := fifo; map_order := in_order |}.

(** ** The cases of the test files of the repository *)

Module go_tests.
Import GoStrings.
Import util.
Import gmail_fetch.

Definition quoted (s : string) : string := String mail.dquote (s ++ String mail.dquote "").

(** [TestNormalizeSender_Basic] *)
Example TestNormalizeSender_Basic (rt : GoRuntime) :
  map (NormalizeSender rt)
    [ "Name <User@Example.COM>";
      quoted "Name" ++ " <user+news@Example.com>";
      "user+tag@EXAMPLE.com";
      "user.name+tag@EXAMPLE.com";
      "user.name@example.com";
      "bad address";
      quoted "A" ++ " <not-an-email> , " ++ quoted "B" ++ " <c@D.com>";
      "" ]
  = [ "user@example.com"; "user@example.com"; "user@example.com";
      "user.name@example.com"; "user.name@example.com"; ""; "c@d.com"; "" ].
Proof. reflexivity. Qed.

(** [TestAggregateBySenderSubject_BasicGrouping] *)
Definition basic_grouping : list MessageRef.t :=
  [ MessageRef.mk "1" "Promo" "2024-01-02T15:04:05Z" "Alice <user+ads@Example.com>" "" "";
    MessageRef.mk "2" "Promo" "2024-01-03T15:04:05Z"
      (quoted "Alice" ++ " <user@EXAMPLE.com>") "" "";
    MessageRef.mk "3" "Promo" "2024-01-01T00:00:00Z" "bob@example.com" "" "";
    MessageRef.mk "4" "Other" "2024-01-05T00:00:00Z" "bob@example.com" "" "";
    MessageRef.mk "5" "other" "2024-01-06T00:00:00Z" "bob@example.com" "" "" ].

Example TestAggregateBySenderSubject_BasicGrouping (rt : GoRuntime) :
  size (AggregateBySenderSubject rt basic_grouping) = 4%nat
  /\ AggregateBySenderSubject rt basic_grouping !! "user@example.com||Promo"
     = Some (SenderGroup.mk "user@example.com" "Promo" "Alice" 2 "Promo"
               "2024-01-02T15:04:05Z" "2024-01-03T15:04:05Z" ["1"; "2"] "")
  /\ SenderGroup.Count <$> AggregateBySenderSubject rt basic_grouping !! "bob@example.com||Promo"
     = Some 1%Z
  /\ SenderGroup.Count <$> AggregateBySenderSubject rt basic_grouping !! "bob@example.com||Other"
     = Some 1%Z
  /\ SenderGroup.Count <$> AggregateBySenderSubject rt basic_grouping !! "bob@example.com||other"
     = Some 1%Z.
Proof. repeat split; vm_compute; reflexivity. Qed.

End go_tests.

(* ===================================================================== *)
(** * Unsubscribe-URL extraction                                          *)
(* ===================================================================== *)

Module unsubscribe_spec.
Import GoStrings.
Import gmail_fetch.

(** An entry has an http or https scheme, whatever the case. *)
Definition has_http_scheme (rt : GoRuntime) (e : string) : bool :=
  HasPrefix (ToLower rt e) "http://" || HasPrefix (ToLower rt e) "https://".

(** The entries of the header when one pair of angle brackets is stripped:
    an opening bracket at the start together with a closing one at the
    end. *)
Definition strip_one_pair (e : string) : string :=
  match e with
  | String a r =>
      if ((code a =? 60)%N && mail.peek_is (String.rev r) ">")%bool
      then String.rev (drop 1 (String.rev r)) else e
  | EmptyString => e
  end.

Definition entries_one_pair (header : string) : list string :=
  map (fun p => strip_one_pair (TrimSpace p)) (Split header ",").

(** The entries as the code cleans them: outer white space, then every
    angle bracket at either end, then outer white space again. *)
Definition entries (header : string) : list string :=
  map (fun p => TrimSpace (Trim (TrimSpace p) "<>")) (Split header ",").

(** The first entry with an http(s) scheme, or the empty string. *)
Definition first_http (rt : GoRuntime) (es : list string) : string :=
  default "" (head (filter (fun e => has_http_scheme rt e = true) es)).

Lemma first_http_part_entries (rt : GoRuntime) (parts : list string) :
  first_http_part rt parts =
  first_http rt (map (fun p => TrimSpace (Trim (TrimSpace p) "<>")) parts).
Proof.
  unfold first_http. induction parts as [|p ps IH]; [done|].
  cbn [map first_http_part]. rewrite filter_cons. fold (has_http_scheme rt (TrimSpace (Trim (TrimSpace p) "<>"))).
  destruct (has_http_scheme rt _) eqn:E.
  - rewrite decide_True by done. done.
  - rewrite decide_False by done. exact IH.
Qed.

Lemma first_http_scheme (rt : GoRuntime) (es : list string) :
  first_http rt es = "" \/ has_http_scheme rt (first_http rt es) = true.
Proof.
  unfold first_http.
  destruct (filter _ es) as [|e l] eqn:E; [by left|right]. simpl.
  assert (e ∈ filter (fun e => has_http_scheme rt e = true) es) as Hin
    by (rewrite E; left).
  by apply list_elem_of_filter in Hin as [? _].
Qed.

Lemma HasPrefix_first (s p q : string) (a b : ascii) :
  HasPrefix s (String a p) = true -> a <> b -> HasPrefix s (String b q) = false.
Proof.
  destruct s as [|c s]; simpl; [done|].
  destruct (ascii_dec a c) as [->|]; [|done].
  intros _ Hn. destruct (ascii_dec b c); congruence.
Qed.

(** C9, as stated, fails: with two pairs of brackets around the URL the
    code returns the URL, stripping one pair leaves an entry that has no
    http scheme. *)
Lemma extract_one_pair_counterexample :
  (forall rt, extractHTTPUnsubscribeURL rt "<<https://ex.com/u>>" = "https://ex.com/u")
  /\ (forall rt, first_http rt (entries_one_pair "<<https://ex.com/u>>") = "").
Proof. split; intros rt; reflexivity. Qed.

(** C9 (amended): [extractHTTPUnsubscribeURL] splits the header on commas,
    strips from each entry the outer white space, then every angle bracket
    at either end, then the outer white space again, and returns the first
    entry whose scheme is http or https whatever the case, the empty string
    when there is none; what it returns is never a mailto entry.  The
    header with a mailto entry and an https entry yields the https URL, the
    mailto-only header yields the empty string. *)
Theorem extract_http_unsubscribe (rt : GoRuntime) (header : string) :
  extractHTTPUnsubscribeURL rt header = first_http rt (entries header)
  /\ (extractHTTPUnsubscribeURL rt header = ""
      \/ has_http_scheme rt (extractHTTPUnsubscribeURL rt header) = true)
  /\ HasPrefix (ToLower rt (extractHTTPUnsubscribeURL rt header)) "mailto:" = false
  /\ extractHTTPUnsubscribeURL rt "<mailto:u@x.com>, <https://ex.com/u>" = "https://ex.com/u"
  /\ extractHTTPUnsubscribeURL rt "<mailto:u@x.com>" = "".
Proof.
  assert (extractHTTPUnsubscribeURL rt header = first_http rt (entries header)) as Heq
    by apply first_http_part_entries.
  split; [exact Heq|]. rewrite Heq.
  split; [apply first_http_scheme|].
  split; [|split; reflexivity].
  destruct (first_http_scheme rt (entries header)) as [->|H].
  - unfold ToLower. reflexivity.
  - unfold has_http_scheme in H. apply orb_true_iff in H as [H|H];
      (eapply HasPrefix_first; [exact H|done]).
Qed.

End unsubscribe_spec.

(* ===================================================================== *)
(** * Sorting the groups                                                  *)
(* ===================================================================== *)

Lemma filter_none {A} (P : A -> Prop) `{forall x, Decision (P x)} (l : list A) :
  Forall (fun x => ~ P x) l -> filter P l = [].
Proof.
  induction 1 as [|x xs Hx _ IH]; [done|]. by rewrite filter_cons_False.
Qed.

(** Stable insertion under a strict weak order. *)
Section StableInsertion.
Open Scope list_scope.
Import gmail_fetch.
Context {A : Type} (lt : A -> A -> bool).
Hypothesis lt_asym : forall a b, lt a b = true -> lt b a = false.
Hypothesis lt_trans : forall a b c, lt a b = true -> lt b c = true -> lt a c = true.
Hypothesis lt_cut : forall a b c, lt a c = true -> lt a b = true \/ lt b c = true.

(** [a] may stand before [b]. *)
Definition may_precede (a b : A) : Prop := lt b a = false.

(** [a] and [b] tie. *)
Definition tie (a b : A) : Prop := lt a b = false /\ lt b a = false.

#[local] Instance tie_dec a b : Decision (tie a b).
Proof. unfold tie. apply _. Defined.

Lemma insert_stable_perm (x : A) (l : list A) : insert_stable lt x l ≡ₚ x :: l.
Proof.
  induction l as [|y ys IH]; simpl; [done|].
  destruct (lt x y); [done|]. rewrite IH. apply Permutation_swap.
Qed.

Lemma insert_stable_sorted (x : A) (l : list A) :
  StronglySorted may_precede l -> StronglySorted may_precede (insert_stable lt x l).
Proof.
  induction l as [|y ys IH]; simpl; intros Hs.
  - repeat constructor.
  - apply StronglySorted_inv in Hs as [Hys Hy].
    destruct (lt x y) eqn:Hxy.
    + constructor; [by constructor|].
      constructor; [by apply lt_asym|].
      eapply Forall_impl; [exact Hy|]. intros z Hz. unfold may_precede in *.
      destruct (lt z x) eqn:Hzx; [|done].
      by rewrite (lt_trans _ _ _ Hzx Hxy) in Hz.
    + constructor; [by apply IH|].
      rewrite insert_stable_perm. by constructor.
Qed.

Lemma insert_stable_last (x : A) (l : list A) :
  Forall (fun y => may_precede y x) l -> insert_stable lt x l = l ++ [x].
Proof.
  induction 1 as [|y ys Hy _ IH]; simpl; [done|].
  unfold may_precede in Hy. by rewrite Hy, IH.
Qed.

Lemma insert_stable_ties (g x : A) (l : list A) :
  StronglySorted may_precede l ->
  filter (tie g) (insert_stable lt x l) = filter (tie g) l ++ filter (tie g) [x].
Proof.
  induction l as [|y ys IH]; simpl; intros Hs; [done|].
  apply StronglySorted_inv in Hs as [Hys Hy].
  destruct (lt x y) eqn:Hxy.
  - destruct (decide (tie g x)) as [Hg|Hg].
    + assert (Forall (fun z => ~ tie g z) (y :: ys)) as Hno.
      { assert (Forall (fun z => lt x z = true) (y :: ys)) as Hlt.
        { constructor; [done|]. eapply Forall_impl; [exact Hy|].
          intros z Hz. destruct (lt_cut _ z _ Hxy) as [?|Hzy]; [done|].
          unfold may_precede in Hz. congruence. }
        eapply Forall_impl; [exact Hlt|]. intros z Hxz [Hgz _].
        destruct Hg as [_ Hxg].
        destruct (lt_cut _ g _ Hxz); congruence. }
      rewrite (filter_cons_True _ x) by done.
      rewrite (filter_none _ (y :: ys)) by done.
      by rewrite filter_cons_True.
    + rewrite (filter_cons_False _ x) by done.
      rewrite (filter_cons_False _ x []) by done.
      by rewrite filter_nil, app_nil_r.
  - rewrite !(filter_cons _ y), IH by done.
    by destruct (decide (tie g y)).
Qed.

(** The loop of the sort, from any sorted prefix. *)
Definition sort_from (sorted l : list A) : list A :=
  fold_left (fun sorted x => insert_stable lt x sorted) l sorted.

Lemma sort_from_props (l sorted : list A) :
  StronglySorted may_precede sorted ->
  sort_from sorted l ≡ₚ sorted ++ l
  /\ StronglySorted may_precede (sort_from sorted l)
  /\ forall g, filter (tie g) (sort_from sorted l) = filter (tie g) sorted ++ filter (tie g) l.
Proof.
  revert sorted. induction l as [|x l IH]; intros sorted Hs; simpl.
  - rewrite app_nil_r. split; [done|]. split; [done|]. intros g.
    by rewrite filter_nil, app_nil_r.
  - destruct (IH (insert_stable lt x sorted)) as (Hp & Hsorted & Hties);
      [by apply insert_stable_sorted|].
    split; [|split; [done|]].
    + unfold sort_from in Hp. rewrite Hp, insert_stable_perm.
      simpl. apply Permutation_middle.
    + intros g. unfold sort_from in Hties. rewrite Hties, insert_stable_ties by done.
      rewrite <- app_assoc. f_equal.
      rewrite (filter_cons _ x l), (filter_cons _ x []), filter_nil.
      by destruct (decide (tie g x)).
Qed.

Lemma sort_from_sorted (l sorted : list A) :
  StronglySorted may_precede (sorted ++ l) -> sort_from sorted l = sorted ++ l.
Proof.
  revert sorted. induction l as [|x l IH]; intros sorted Hs; simpl.
  - by rewrite app_nil_r.
  - rewrite insert_stable_last.
    + rewrite (IH (sorted ++ [x])); rewrite <- app_assoc; done.
    + apply Forall_forall. intros y Hy.
      eapply StronglySorted_app_1_elem_of; [exact Hs|done|left].
Qed.

Lemma SliceStable_perm (l : list A) : SliceStable lt l ≡ₚ l.
Proof. apply (sort_from_props l []). constructor. Qed.

Lemma SliceStable_sorted (l : list A) : StronglySorted may_precede (SliceStable lt l).
Proof. apply (sort_from_props l []). constructor. Qed.

Lemma SliceStable_stable (l : list A) (g : A) :
  filter (tie g) (SliceStable lt l) = filter (tie g) l.
Proof. apply (sort_from_props l []). constructor. Qed.

Lemma SliceStable_idem (l : list A) : SliceStable lt (SliceStable lt l) = SliceStable lt l.
Proof. apply (sort_from_sorted _ []). apply SliceStable_sorted. Qed.

End StableInsertion.

(** The order of Go's [<] on strings. *)
Section StringOrder.

Lemma ltb_leb (a b : string) : String.ltb a b = negb (String.leb b a).
Proof.
  unfold String.ltb, String.leb. rewrite (String.compare_antisym a b).
  by destruct (String.compare b a).
Qed.

Lemma ltb_irrefl (a : string) : String.ltb a a = false.
Proof.
  rewrite ltb_leb. assert (String.le a a) as H by reflexivity.
  unfold String.le in H. by destruct (String.leb a a).
Qed.

Lemma leb_trans (a b c : string) :
  String.leb a b = true -> String.leb b c = true -> String.leb a c = true.
Proof.
  intros H1 H2. apply Is_true_true.
  apply (transitivity (R := String.le) (y := b)); by apply Is_true_true.
Qed.

Lemma ltb_asym (a b : string) : String.ltb a b = true -> String.ltb b a = false.
Proof.
  rewrite !ltb_leb. destruct (String.leb_total a b) as [->| ->]; [done|]. done.
Qed.

Lemma ltb_cut (a b c : string) :
  String.ltb a c = true -> String.ltb a b = true \/ String.ltb b c = true.
Proof.
  rewrite !ltb_leb.
  destruct (String.leb b a) eqn:Hba; [|by left].
  destruct (String.leb c b) eqn:Hcb; [|by right].
  by rewrite (leb_trans _ _ _ Hcb Hba).
Qed.

Lemma ltb_trans (a b c : string) :
  String.ltb a b = true -> String.ltb b c = true -> String.ltb a c = true.
Proof.
  intros Hab Hbc. destruct (ltb_cut _ c _ Hab) as [H|H]; [done|].
  by rewrite (ltb_asym _ _ Hbc) in H.
Qed.

End StringOrder.

Module sort_spec.
Import gmail_fetch.
Import SenderGroup.

(** Count descending, then Email ascending, then Subject ascending. *)
Definition before (a b : SenderGroup.t) : Prop :=
  (Count a > Count b)%Z
  \/ (Count a = Count b
      /\ (String.ltb (Email a) (Email b) = true
          \/ (Email a = Email b /\ String.ltb (Subject a) (Subject b) = true))).

Lemma less_before (a b : SenderGroup.t) : less a b = true <-> before a b.
Proof.
  unfold less, before.
  destruct (Z.eqb_spec (Count a) (Count b)) as [Hc|Hc].
  - destruct (String.eqb_spec (Email a) (Email b)) as [He|He].
    + rewrite He, ltb_irrefl. split; [intros H; right; auto|].
      intros [?|[_ [?|[_ ?]]]]; [lia|done..].
    + split; [intros H; right; auto|].
      intros [?|[_ [?|[? ?]]]]; [lia|done..].
  - rewrite Z.gtb_gt. split; [by left|]. intros [?|[? _]]; done.
Qed.

Lemma less_not_before (a b : SenderGroup.t) : less a b = false <-> ~ before a b.
Proof. rewrite <- less_before. by destruct (less a b). Qed.

Lemma before_asym (a b : SenderGroup.t) : before a b -> ~ before b a.
Proof.
  intros [H1|[E1 [H1|[F1 H1]]]] [H2|[E2 [H2|[F2 H2]]]]; try lia;
    try (rewrite (ltb_asym _ _ H1) in H2; done).
  - rewrite F2, ltb_irrefl in H1. done.
  - rewrite F1, ltb_irrefl in H2. done.
Qed.

Lemma before_cut (a b c : SenderGroup.t) : before a c -> before a b \/ before b c.
Proof.
  unfold before. intros [H|[E [H|[F H]]]].
  - destruct (Z.lt_trichotomy (Count a) (Count b)) as [?|[?|?]];
      [right; left; lia|right; left; lia|left; left; lia].
  - destruct (Z.lt_trichotomy (Count a) (Count b)) as [?|[Hab|?]];
      [right; left; lia| |left; left; lia].
    destruct (ltb_cut _ (Email b) _ H) as [?|?]; [left|right]; right; (split; [lia|by left]).
  - destruct (Z.lt_trichotomy (Count a) (Count b)) as [?|[Hab|?]];
      [right; left; lia| |left; left; lia].
    destruct (String.ltb (Email a) (Email b)) eqn:Hl; [left; right; split; [lia|by left]|].
    destruct (String.eqb_spec (Email a) (Email b)) as [He|He].
    + destruct (ltb_cut _ (Subject b) _ H) as [?|?]; [left|right]; right;
        (split; [lia|right; split; [congruence|done]]).
    + right. right. split; [lia|]. left. rewrite <- F.
      rewrite ltb_leb in Hl |- *. apply negb_false_iff in Hl.
      apply negb_true_iff. destruct (String.leb (Email a) (Email b)) eqn:Hab'; [|done].
      exfalso. apply He. by apply String.leb_antisym.
Qed.

Lemma less_asym (a b : SenderGroup.t) : less a b = true -> less b a = false.
Proof. rewrite less_before, less_not_before. apply before_asym. Qed.

Lemma less_cut (a b c : SenderGroup.t) :
  less a c = true -> less a b = true \/ less b c = true.
Proof. rewrite !less_before. apply before_cut. Qed.

Lemma less_trans (a b c : SenderGroup.t) :
  less a b = true -> less b c = true -> less a c = true.
Proof.
  intros Hab Hbc. destruct (less_cut _ c _ Hab) as [H|H]; [done|].
  by rewrite (less_asym _ _ Hbc) in H.
Qed.

Lemma StronglySorted_weaken {A} (R R' : A -> A -> Prop) (l : list A) :
  (forall a b, R a b -> R' a b) -> StronglySorted R l -> StronglySorted R' l.
Proof.
  intros HR. induction 1 as [|x l _ IH Hx]; constructor; [done|].
  eapply Forall_impl; [exact Hx|]. apply HR.
Qed.

#[local] Instance SenderGroup_eq_dec : EqDecision SenderGroup.t.
Proof. solve_decision. Defined.

(** The groups of [TestSortGroups_TieBreakers]. *)
Definition group (email subject : string) (count : Z) : SenderGroup.t :=
  SenderGroup.mk email subject "" count "" "" "" [] "".

Definition tie_break_groups : gmap string SenderGroup.t :=
  list_to_map [ ("a1", group "a@example.com" "A" 5);
                ("a2", group "a@example.com" "B" 5);
                ("b1", group "b@example.com" "A" 5);
                ("c1", group "c@example.com" "A" 3) ].

Definition tie_break_sorted : list SenderGroup.t :=
  [ group "a@example.com" "A" 5; group "a@example.com" "B" 5;
    group "b@example.com" "A" 5; group "c@example.com" "A" 3 ].

Lemma tie_break_groups_perm : map snd (map_to_list tie_break_groups) ≡ₚ tie_break_sorted.
Proof.
  apply (bool_decide_unpack _ (dec := Permutation_dec _ _)). vm_compute. exact I.
Qed.

(** C8: whatever the order in which the map is ranged over, [SortGroups]
    returns the groups of the map (a permutation of them) so that no group
    stands after one it must precede by count descending, then Email
    ascending, then Subject ascending; groups that tie keep the order in
    which they were copied out of the map (the sort is stable); sorting the
    result again changes nothing; and the four groups (a,A,5), (a,B,5),
    (b,A,5), (c,A,3) come out as (a,A), (a,B), (b,A), (c,A). *)
Theorem SortGroups_sorted_stable (ord : MapOrder) (m : gmap string SenderGroup.t) :
  SortGroups ord m ≡ₚ map snd (map_to_list m)
  /\ StronglySorted (fun a b => ~ before b a) (SortGroups ord m)
  /\ (forall a b, less a b = true <-> before a b)
  /\ (forall g, filter (tie less g) (SortGroups ord m)
                = filter (tie less g) (range ord (map snd (map_to_list m))))
  /\ SliceStable less (SortGroups ord m) = SortGroups ord m
  /\ SortGroups ord tie_break_groups = tie_break_sorted.
Proof.
  assert (forall l, StronglySorted (fun a b => ~ before b a) (SliceStable less l)) as Hsorted.
  { intros l. apply (StronglySorted_weaken (may_precede less)).
    - intros a b. unfold may_precede. by rewrite less_not_before.
    - apply (SliceStable_sorted less less_asym less_trans less_cut). }
  split; [|split; [|split; [|split; [|split]]]].
  - unfold SortGroups. rewrite (SliceStable_perm less less_asym less_trans less_cut).
    apply range_perm.
  - apply Hsorted.
  - apply less_before.
  - intros g. apply (SliceStable_stable less less_asym less_trans less_cut).
  - apply (SliceStable_idem less less_asym less_trans less_cut).
  - apply (StronglySorted_unique_strong (fun a b => ~ before b a)).
    + assert (SortGroups ord tie_break_groups ≡ₚ tie_break_sorted) as Hp.
      { unfold SortGroups. rewrite (SliceStable_perm less less_asym less_trans less_cut), range_perm.
        apply tie_break_groups_perm. }
      intros x1 x2 H1 H2. rewrite Hp in H1. revert H1 H2.
      rewrite <- !less_not_before. unfold tie_break_sorted.
      rewrite !elem_of_cons, !elem_of_nil.
      intros [->|[->|[->|[->|[]]]]] [->|[->|[->|[->|[]]]]]; vm_compute; congruence.
    + apply Hsorted.
    + unfold tie_break_sorted.
      repeat (constructor; [repeat constructor; rewrite <- less_not_before; reflexivity|]).
      constructor.
    + unfold SortGroups. rewrite (SliceStable_perm less less_asym less_trans less_cut), range_perm.
      apply tie_break_groups_perm.
Qed.

End sort_spec.

(* ===================================================================== *)
(** * The aggregator: count and message ids                               *)
(* ===================================================================== *)

Section IntFacts.

Lemma int_incr_small (z : Z) : (0 <= z < 2 ^ 63 - 1)%Z -> int_incr z = (z + 1)%Z.
Proof.
  intros Hz. unfold int_incr, wrap_int.
  rewrite Z.mod_small by lia. lia.
Qed.

Lemma iter_int_incr (n : nat) :
  (Z.of_nat n < 2 ^ 63)%Z -> Nat.iter n int_incr 0%Z = Z.of_nat n.
Proof.
  induction n as [|n IH]; intros Hn; [done|].
  rewrite Nat.iter_succ, IH by lia. rewrite int_incr_small by lia. lia.
Qed.

End IntFacts.

Module aggregate_spec.
Import GoStrings.
Import util.
Import gmail_fetch.
Open Scope list_scope.

(** A record belongs to the group of a key. *)
Definition member (rt : GoRuntime) (key : string) (m : MessageRef.t) : Prop :=
  NormalizeSender rt (MessageRef.From m) <> ""
  /\ (NormalizeSender rt (MessageRef.From m) ++ "||" ++ MessageRef.Subject m)%string = key.

#[local] Instance member_dec rt key m : Decision (member rt key m).
Proof. unfold member. apply _. Defined.

Definition members (rt : GoRuntime) (key : string) (msgs : list MessageRef.t)
  : list MessageRef.t :=
  filter (member rt key) msgs.

Definition has_id (m : MessageRef.t) : Prop := MessageRef.ID m <> "".
Definition no_id (m : MessageRef.t) : Prop := MessageRef.ID m = "".

(** What the loop keeps true of every key. *)
Definition group_ok (rt : GoRuntime) (msgs : list MessageRef.t)
    (groups : gmap string SenderGroup.t) : Prop :=
  forall key,
    match groups !! key with
    | Some g =>
        SenderGroup.Count g = Nat.iter (length (members rt key msgs)) int_incr 0%Z
        /\ SenderGroup.MessageIDs g
           = map MessageRef.ID (filter has_id (members rt key msgs))
    | None => members rt key msgs = []
    end.

Lemma aggregate_step_ok rt msgs groups m :
  group_ok rt msgs groups -> group_ok rt (msgs ++ [m]) (aggregate_step rt groups m).
Proof.
  intros Hok key. unfold aggregate_step, members.
  rewrite filter_app, filter_cons, filter_nil. fold (members rt key msgs).
  specialize (Hok key) as Hkey.
  destruct (decide (NormalizeSender rt (MessageRef.From m) = "")) as [He|He].
  { rewrite (decide_False (P := member rt key m)) by (intros [? _]; done).
    by rewrite app_nil_r. }
  set (k := (NormalizeSender rt (MessageRef.From m) ++ "||" ++ MessageRef.Subject m)%string).
  destruct (decide (k = key)) as [<-|Hk].
  - rewrite (decide_True (P := member rt k m)) by (split; [exact He|reflexivity]).
    rewrite lookup_insert_eq. cbn.
    rewrite length_app, Nat.add_comm. cbn.
    rewrite filter_app, map_app, filter_cons, filter_nil.
    destruct (groups !! k) as [g|].
    + destruct Hkey as [-> ->]. split; [done|].
      unfold has_id. repeat case_decide; try done. by rewrite app_nil_r.
    + rewrite Hkey. cbn. split; [done|].
      unfold has_id. repeat case_decide; done.
  - rewrite (decide_False (P := member rt key m)) by (intros [_ ?]; done).
    rewrite app_nil_r. by rewrite lookup_insert_ne.
Qed.

Lemma aggregate_ok rt msgs : group_ok rt msgs (AggregateBySenderSubject rt msgs).
Proof.
  induction msgs as [|m msgs IH] using rev_ind.
  - intros key. unfold AggregateBySenderSubject. cbn [fold_left].
    by rewrite lookup_empty.
  - unfold AggregateBySenderSubject. rewrite fold_left_app. cbn [fold_left].
    by apply aggregate_step_ok.
Qed.

Import gmail_fetch_groups.

(** The same for the collector of [FetchGroups], over the results that
    carry no error. *)
Definition fetched (rt : GoRuntime) (key : string) (r : result) : Prop :=
  r_err r = None
  /\ NormalizeSender rt (r_from r) <> ""
  /\ (NormalizeSender rt (r_from r) ++ "||" ++ r_subject r)%string = key.

#[local] Instance fetched_dec rt key r : Decision (fetched rt key r).
Proof. unfold fetched. apply _. Defined.

Definition collected_ok (rt : GoRuntime) (results : list result)
    (groups : gmap string SenderGroup.t) : Prop :=
  forall key,
    match groups !! key with
    | Some g =>
        SenderGroup.Count g = Nat.iter (length (filter (fetched rt key) results)) int_incr 0%Z
        /\ SenderGroup.MessageIDs g = map r_id (filter (fetched rt key) results)
    | None => filter (fetched rt key) results = []
    end.

Lemma collect_ok rt results acc r :
  collected_ok rt results acc.1 -> collected_ok rt (results ++ [r]) (collect rt acc r).1.
Proof.
  destruct acc as [groups collectErr]. intros Hok key. unfold collect. cbn [fst] in *.
  rewrite filter_app, filter_cons, filter_nil.
  specialize (Hok key) as Hkey.
  destruct (r_err r) as [e|] eqn:Herr.
  { cbn [fst]. rewrite (decide_False (P := fetched rt key r)) by (intros [? _]; congruence).
    by rewrite app_nil_r. }
  destruct (decide (NormalizeSender rt (r_from r) = "")) as [He|He].
  { cbn [fst]. rewrite (decide_False (P := fetched rt key r)) by (intros (_ & ? & _); done).
    by rewrite app_nil_r. }
  set (k := (NormalizeSender rt (r_from r) ++ "||" ++ r_subject r)%string).
  cbn [fst].
  destruct (decide (k = key)) as [<-|Hk].
  - rewrite (decide_True (P := fetched rt k r))
      by (split; [done|split; [exact He|reflexivity]]).
    rewrite lookup_insert_eq. cbn.
    rewrite length_app, Nat.add_comm, map_app. cbn.
    destruct (groups !! k) as [g|].
    + by destruct Hkey as [-> ->].
    + by rewrite Hkey.
  - rewrite (decide_False (P := fetched rt key r)) by (intros (_ & _ & ?); done).
    rewrite app_nil_r. by rewrite lookup_insert_ne.
Qed.

Lemma collected rt results :
  collected_ok rt results (fold_left (collect rt) results (∅, None)).1.
Proof.
  induction results as [|r results IH] using rev_ind.
  - intros key. cbn [fold_left fst]. by rewrite lookup_empty.
  - rewrite fold_left_app. cbn [fold_left]. by apply collect_ok.
Qed.

(** C5, as stated, fails: a record with an empty id is counted in its
    group and adds no message id. *)
Lemma aggregate_empty_id_counterexample :
  exists g,
    AggregateBySenderSubject ascii_runtime
      [MessageRef.mk "" "Hello" "" "bob@example.com" "" ""]
      !! "bob@example.com||Hello" = Some g
    /\ SenderGroup.Count g = 1%Z
    /\ length (SenderGroup.MessageIDs g) = 0%nat.
Proof. eexists. split; [vm_compute; reflexivity|]. split; reflexivity. Qed.

(** C5 (amended): in every group produced by [AggregateBySenderSubject],
    count equals the number of elements of messageIds plus the number of
    records of the group whose id is the empty string (those are counted
    and add no id), so count = |messageIds| when no record has an empty
    id; in every group produced by [FetchGroups], count = |messageIds|.
    The records are as many as a Go slice can hold. *)
Theorem aggregate_count_ids (rt : GoRuntime) (msgs : list MessageRef.t)
    (run : Run) (svc : gmailv1.Service) (key : string) :
  (Z.of_nat (length msgs) < 2 ^ 63)%Z ->
  (Z.of_nat (length (fetch_results rt run svc)) < 2 ^ 63)%Z ->
  (forall g, AggregateBySenderSubject rt msgs !! key = Some g ->
     SenderGroup.Count g
     = (Z.of_nat (length (SenderGroup.MessageIDs g))
        + Z.of_nat (length (filter no_id (members rt key msgs))))%Z
     /\ (Forall has_id msgs ->
         SenderGroup.Count g = Z.of_nat (length (SenderGroup.MessageIDs g))))
  /\ (forall g, (FetchGroups rt run svc).1 !! key = Some g ->
        SenderGroup.Count g = Z.of_nat (length (SenderGroup.MessageIDs g))).
Proof.
  intros Hn Hr. split.
  - intros g Hg. pose proof (aggregate_ok rt msgs key) as Hok. rewrite Hg in Hok.
    destruct Hok as [Hc Hids].
    assert (length (members rt key msgs) <= length msgs)%nat as Hle
      by apply length_filter.
    rewrite iter_int_incr in Hc by lia.
    assert (length (members rt key msgs)
            = length (filter has_id (members rt key msgs))
              + length (filter no_id (members rt key msgs)))%nat as Hsplit.
    { generalize (members rt key msgs). intros l.
      induction l as [|m l IH]; [done|]. rewrite !filter_cons. unfold has_id, no_id in *.
      destruct (decide (MessageRef.ID m <> "")) as [Hm|Hm].
      - rewrite decide_False by done. cbn. lia.
      - rewrite decide_True by (by destruct (decide (MessageRef.ID m = ""))). cbn. lia. }
    rewrite Hc, Hids, length_map. split; [lia|].
    intros Hall.
    assert (filter no_id (members rt key msgs) = []) as Hnone.
    { apply filter_none. unfold members.
      apply Forall_forall. intros m Hm%list_elem_of_filter. destruct Hm as [_ Hm].
      rewrite Forall_forall in Hall. intros Hno. by apply (Hall m). }
    rewrite Hnone in Hsplit. cbn in Hsplit. lia.
  - intros g Hg. unfold FetchGroups in Hg.
    pose proof (collected rt (fetch_results rt run svc) key) as Hok.
    destruct (fetch_pages run 0 (gmailv1.Users_Messages_List svc)) as [ids pageErr].
    destruct (fold_left (collect rt) (fetch_results rt run svc) (∅, None)) as [groups cerr].
    cbn [fst] in Hok.
    assert (groups !! key = Some g) as Hg' by (by destruct pageErr).
    rewrite Hg' in Hok. destruct Hok as [-> ->].
    rewrite length_map, iter_int_incr; [done|].
    pose proof (length_filter (fetched rt key) (fetch_results rt run svc)). lia.
Qed.

(** Two records without an empty id, and an empty inbox. *)
Definition two_promos : list MessageRef.t :=
  [MessageRef.mk "1" "Promo" "" "Alice <user+ads@Example.com>" "" "";
   MessageRef.mk "2" "Promo" "" "user@EXAMPLE.com" "" ""].

Definition empty_inbox : gmailv1.Service :=
  gmailv1.Build_Service (inr 1%N)
    [inr (gmailv1.Build_ListMessagesResponse [] "" 0)] (fun _ => inl (Err "not found")) [].

Lemma aggregate_count_ids_witness :
  exists g,
    AggregateBySenderSubject ascii_runtime two_promos !! "user@example.com||Promo" = Some g
    /\ SenderGroup.Count g = Z.of_nat (length (SenderGroup.MessageIDs g)).
Proof.
  eexists. split; [vm_compute; reflexivity|].
  refine (proj2 (proj1 (aggregate_count_ids ascii_runtime two_promos plain_run empty_inbox
    "user@example.com||Promo" _ _) _ _) _).
  - vm_compute. reflexivity.
  - vm_compute. reflexivity.
  - vm_compute. reflexivity.
  - repeat constructor; unfold has_id; cbn; congruence.
Defined.

End aggregate_spec.

(* ===================================================================== *)
(** * Incremental sync: folding the history into add and del              *)
(* ===================================================================== *)

Module history_spec.
Import gmailv1.
Import gmail_sync.
Open Scope list_scope.

(** The changes of the history stream, one event each. *)
Inductive event : Type :=
| Added (ma : HistoryMessageAdded)
| Deleted (md : HistoryMessageDeleted)
| LabelAdded (la : HistoryLabelAdded)
| LabelRemoved (lr : HistoryLabelRemoved).

Definition apply_event (s : sets) (ev : event) : sets :=
  match ev with
  | Added ma => on_added s ma
  | Deleted md => on_deleted s md
  | LabelAdded la => on_label_added s la
  | LabelRemoved lr => on_label_removed s lr
  end.

(** The events of a history record and of a page, in the order in which
    the loops of [SyncSinceHistory] visit them. *)
Definition events_of_history (h : History) : list event :=
  map Added (MessagesAdded h) ++ map Deleted (MessagesDeleted h)
  ++ map LabelAdded (LabelsAdded h) ++ map LabelRemoved (LabelsRemoved h).

Definition events_of_page (resp : ListHistoryResponse) : list event :=
  concat (map events_of_history (HistoryList resp)).

(** The pages a paging loop reads when it is neither cancelled nor
    failed: up to the first one without a next-page token. *)
Fixpoint walked {R} (token : R -> string) (script : list (error + R)) : list R :=
  match script with
  | inr resp :: rest =>
      resp :: (if decide (token resp = "") then [] else walked token rest)
  | _ => []
  end.

Definition history_events (script : list (error + ListHistoryResponse)) : list event :=
  concat (map events_of_page (walked History_NextPageToken script)).

(** What an event means for the cache: the message appeared in INBOX
    ([true]) or disappeared from it ([false]); [None] when the event is not
    about INBOX or carries no message. *)
Definition effect (ev : event) : option (bool * string) :=
  match ev with
  | Added ma =>
      match added ma with
      | Some m => if contains (LabelIds m) "INBOX" then Some (true, Id m) else None
      | None => None
      end
  | Deleted md =>
      match deleted md with
      | Some m => Some (false, Id m)
      | None => None
      end
  | LabelAdded la =>
      match la_Message la with
      | Some m => if contains (la_LabelIds la) "INBOX" then Some (true, Id m) else None
      | None => None
      end
  | LabelRemoved lr =>
      match lr_Message lr with
      | Some m => if contains (lr_LabelIds lr) "INBOX" then Some (false, Id m) else None
      | None => None
      end
  end.

(** The last event about [id], if any: [Some true] when it made the
    message appear. *)
Definition last_effect (id : string) (evs : list event) : option bool :=
  fold_left
    (fun acc ev =>
       match effect ev with
       | Some (b, id') => if decide (id' = id) then Some b else acc
       | None => acc
       end) evs None.

Definition no_sets : sets := {| addSet := ∅; delSet := ∅ |}.

Lemma apply_event_effect (s : sets) (ev : event) :
  apply_event s ev =
  match effect ev with
  | Some (true, id) => set_add id s
  | Some (false, id) => set_del id s
  | None => s
  end.
Proof.
  destruct ev as [ma|md|la|lr]; cbn.
  - unfold on_added. destruct (added ma) as [m|]; [|done]. cbn.
    by destruct (contains (LabelIds m) "INBOX").
  - unfold on_deleted. by destruct (deleted md).
  - unfold on_label_added. destruct (la_Message la) as [m|]; [|done].
    by destruct (contains (la_LabelIds la) "INBOX").
  - unfold on_label_removed. destruct (lr_Message lr) as [m|]; [|done].
    by destruct (contains (lr_LabelIds lr) "INBOX").
Qed.

Lemma fold_left_map {A B C} (f : A -> B -> A) (g : C -> B) (l : list C) (a : A) :
  fold_left f (map g l) a = fold_left (fun a x => f a (g x)) l a.
Proof. revert a. induction l as [|x l IH]; intros a; [done|]. apply IH. Qed.

Lemma on_history_events (w : walk) (h : History) :
  w_sets (on_history w h) = fold_left apply_event (events_of_history h) (w_sets w).
Proof.
  unfold on_history, events_of_history. cbn [w_sets].
  rewrite !fold_left_app, !fold_left_map. reflexivity.
Qed.

Lemma on_histories_events (hs : list History) (w : walk) :
  w_sets (fold_left on_history hs w)
  = fold_left apply_event (concat (map events_of_history hs)) (w_sets w).
Proof.
  revert w. induction hs as [|h hs IH]; intros w; [done|].
  cbn [fold_left map concat]. by rewrite IH, fold_left_app, on_history_events.
Qed.

Lemma on_page_events (w : walk) (resp : ListHistoryResponse) :
  w_sets (on_page w resp) = fold_left apply_event (events_of_page resp) (w_sets w).
Proof. unfold on_page. by rewrite on_histories_events. Qed.

Lemma history_pages_walked (run : Run) (script : list (error + ListHistoryResponse))
    (poll : nat) (w w' : walk) :
  history_pages run poll script w = inl w' ->
  w' = fold_left on_page (walked History_NextPageToken script) w.
Proof.
  revert poll w. induction script as [|[e|resp] rest IH]; intros poll w; cbn;
    destruct (ctx_done run poll); try done.
  destruct (decide (History_NextPageToken resp = "")); [by intros [= <-]|].
  apply IH.
Qed.

Lemma on_pages_events (pages : list ListHistoryResponse) (w : walk) :
  w_sets (fold_left on_page pages w)
  = fold_left apply_event (concat (map events_of_page pages)) (w_sets w).
Proof.
  revert w. induction pages as [|p pages IH]; intros w; [done|].
  cbn [fold_left map concat]. by rewrite IH, fold_left_app, on_page_events.
Qed.

Lemma last_effect_snoc (id : string) (evs : list event) (ev : event) :
  last_effect id (evs ++ [ev]) =
  match effect ev with
  | Some (b, id') => if decide (id' = id) then Some b else last_effect id evs
  | None => last_effect id evs
  end.
Proof. unfold last_effect. by rewrite fold_left_app. Qed.

(** The two sets after any sequence of events. *)
Lemma fold_events (evs : list event) :
  let s := fold_left apply_event evs no_sets in
  addSet s ## delSet s
  /\ forall id, (id ∈ addSet s <-> last_effect id evs = Some true)
             /\ (id ∈ delSet s <-> last_effect id evs = Some false).
Proof.
  induction evs as [|ev evs IH] using rev_ind; cbn zeta.
  - cbn. split; [intros x; by rewrite elem_of_empty|].
    intros id. rewrite !elem_of_empty. intuition congruence.
  - rewrite fold_left_app. cbn [fold_left]. rewrite apply_event_effect.
    cbn zeta in IH. destruct IH as [Hdisj Hlast].
    generalize dependent (fold_left apply_event evs no_sets). intros s Hdisj Hlast.
    destruct (effect ev) as [[[] id']|] eqn:Hev; cbn [set_add set_del addSet delSet].
    + split.
      { intros x. rewrite elem_of_union, elem_of_difference, elem_of_singleton.
        specialize (Hdisj x). intuition. }
      intros id. destruct (Hlast id) as [Ha Hd].
      rewrite last_effect_snoc, Hev.
      rewrite elem_of_union, elem_of_difference, elem_of_singleton.
      destruct (decide (id' = id)) as [->|Hne]; [intuition congruence|].
      rewrite Ha, Hd. intuition congruence.
    + split.
      { intros x. rewrite elem_of_union, elem_of_difference, elem_of_singleton.
        specialize (Hdisj x). intuition. }
      intros id. destruct (Hlast id) as [Ha Hd].
      rewrite last_effect_snoc, Hev.
      rewrite elem_of_union, elem_of_difference, elem_of_singleton.
      destruct (decide (id' = id)) as [->|Hne]; [intuition congruence|].
      rewrite Ha, Hd. intuition congruence.
    + split; [done|]. intros id. rewrite last_effect_snoc, Hev. apply Hlast.
Qed.

(** The message of the example and the two histories. *)
Definition msg7 : Message :=
  {| Id := "7"; LabelIds := ["INBOX"]; Payload_Headers := [] |}.

Definition added7 : History :=
  {| HistoryRecordId := 11; MessagesAdded := [ {| added := Some msg7 |} ];
     MessagesDeleted := []; LabelsAdded := []; LabelsRemoved := [] |}.

Definition unlabelled7 : History :=
  {| HistoryRecordId := 12; MessagesAdded := []; MessagesDeleted := []; LabelsAdded := [];
     LabelsRemoved := [ {| lr_LabelIds := ["INBOX"]; lr_Message := Some msg7 |} ] |}.

Definition one_page (hs : list History) : list (error + ListHistoryResponse) :=
  [inr {| HistoryList := hs; HistoryId := 12; History_NextPageToken := "" |}].

Definition start : walk := {| w_sets := no_sets; w_newest := "" |}.

(** C4: when the paging loop of [SyncSinceHistory] ends without error, the
    two sets are the fold of the events of the pages read, in order; after
    every prefix of the events add and del are disjoint; a message id is in
    add exactly when the last event about it made it appear in INBOX, in
    del exactly when the last event about it made it disappear.  The
    sequence Added 7, LabelsRemoved 7 [INBOX] gives add = {} and del = {7};
    the reversed sequence gives add = {7} and del = {}. *)
Theorem history_fold_disjoint_last_wins :
  (forall (run : Run) (script : list (error + ListHistoryResponse)) (w : walk),
     history_pages run 0 script start = inl w ->
     w_sets w = fold_left apply_event (history_events script) no_sets
     /\ (forall n, addSet (fold_left apply_event (take n (history_events script)) no_sets)
                  ## delSet (fold_left apply_event (take n (history_events script)) no_sets))
     /\ (forall id,
           (id ∈ addSet (w_sets w) <-> last_effect id (history_events script) = Some true)
           /\ (id ∈ delSet (w_sets w) <-> last_effect id (history_events script) = Some false)))
  /\ (forall run, history_pages run 0 (one_page [added7; unlabelled7]) start
                 = (if ctx_done run 0 then inr Canceled
                    else inl {| w_sets := {| addSet := ∅; delSet := {["7"]} |};
                                w_newest := "12" |}))
  /\ (forall run, history_pages run 0 (one_page [unlabelled7; added7]) start
                 = (if ctx_done run 0 then inr Canceled
                    else inl {| w_sets := {| addSet := {["7"]}; delSet := ∅ |};
                                w_newest := "11" |})).
Proof.
  split; [|split].
  - intros run script w Hw. apply history_pages_walked in Hw.
    assert (w_sets w = fold_left apply_event (history_events script) no_sets) as Hs.
    { rewrite Hw. apply on_pages_events. }
    split; [exact Hs|]. split.
    + intros n. apply (fold_events (take n (history_events script))).
    + rewrite Hs. apply (fold_events (history_events script)).
  - intros run. cbn. destruct (ctx_done run 0); [done|]. vm_compute. reflexivity.
  - intros run. cbn. destruct (ctx_done run 0); [done|]. vm_compute. reflexivity.
Qed.

End history_spec.

(* ===================================================================== *)
(** * Incremental sync: the cursor that is stored                         *)
(* ===================================================================== *)

Module cursor_spec.
Import gmailv1.
Import gmail_sync.
Import store.
Import history_spec.
Open Scope list_scope.

(** The cursor values of the pages read, as the loop meets them: the
    [HistoryId] of a page, then the id of each of its records. *)
Definition cursors_of_page (resp : ListHistoryResponse) : list N :=
  HistoryId resp :: map HistoryRecordId (HistoryList resp).

Definition observed (script : list (error + ListHistoryResponse)) : list N :=
  concat (map cursors_of_page (walked History_NextPageToken script)).

(** The last value that is not zero. *)
Definition last_nonzero (l : list N) : option N :=
  fold_left (fun acc n => if (n =? 0)%N then acc else Some n) l None.

(** The largest value. *)
Definition cursor_max (l : list N) : N := foldr N.max 0%N l.

(** [newestHistoryID] after a list of cursor values. *)
Definition newest_after (l : list N) (newest : string) : string :=
  fold_left (fun acc n => if (n =? 0)%N then acc else Sprintf_d n) l newest.

Lemma Sprintf_d_nonempty (n : N) : Sprintf_d n <> "".
Proof.
  unfold Sprintf_d, NilZero.string_of_uint.
  destruct (N.to_uint n); cbn; congruence.
Qed.

Lemma newest_after_last (l : list N) (newest : string) :
  newest_after l newest =
  match last_nonzero l with
  | Some n => Sprintf_d n
  | None => newest
  end.
Proof.
  induction l as [|n l IH] using rev_ind; [done|].
  unfold newest_after, last_nonzero in *. rewrite !fold_left_app. cbn.
  destruct (n =? 0)%N; [exact IH|done].
Qed.

Lemma on_histories_newest (hs : list History) (w : walk) :
  w_newest (fold_left on_history hs w)
  = newest_after (map HistoryRecordId hs) (w_newest w).
Proof.
  revert w. induction hs as [|h hs IH]; intros w; [done|].
  cbn [fold_left map]. rewrite IH. unfold newest_after. cbn [fold_left on_history w_newest].
  by destruct (HistoryRecordId h =? 0)%N.
Qed.

Lemma on_pages_newest (pages : list ListHistoryResponse) (w : walk) :
  w_newest (fold_left on_page pages w)
  = newest_after (concat (map cursors_of_page pages)) (w_newest w).
Proof.
  revert w. induction pages as [|p pages IH]; intros w; [done|].
  cbn [fold_left map concat]. rewrite IH. unfold on_page.
  rewrite on_histories_newest. unfold newest_after, cursors_of_page.
  rewrite fold_left_app. cbn [fold_left w_newest].
  by destruct (HistoryId p =? 0)%N.
Qed.

Lemma last_nonzero_sorted (l : list N) (n : N) :
  StronglySorted N.le l -> last_nonzero l = Some n -> n = cursor_max l.
Proof.
  induction l as [|m l IH] using rev_ind; [done|].
  intros Hs. unfold last_nonzero. rewrite fold_left_app. cbn [fold_left].
  assert (cursor_max (l ++ [m]) = m) as ->.
  { clear IH. induction l as [|x l IHl]; [cbn; lia|].
    change (cursor_max ((x :: l) ++ [m])) with (N.max x (cursor_max (l ++ [m]))).
    cbn [app] in Hs. apply StronglySorted_inv in Hs as [Hl Hx].
    rewrite IHl by done. rewrite Forall_app in Hx. destruct Hx as [_ Hx].
    apply Forall_inv in Hx. lia. }
  destruct (N.eqb_spec m 0) as [->|Hm]; [|by intros [= <-]].
  intros Hl. apply StronglySorted_app_1_l in Hs as Hsl.
  rewrite (IH Hsl Hl).
  assert (Forall (fun x => x <= 0)%N l) as Hall.
  { apply Forall_forall. intros x Hx.
    eapply StronglySorted_app_1_elem_of; [exact Hs|done|left]. }
  clear -Hall. induction Hall as [|x l Hx _ IHl]; [done|].
  change (cursor_max (x :: l)) with (N.max x (cursor_max l)). lia.
Qed.

(** The store calls of [SyncSinceHistory] on the SQLite store and the
    metadata table. *)
Lemma upsert_metadata (s s' : SQLiteStore) msgs e :
  UpsertMessages s msgs = (s', e) -> metadata s' = metadata s.
Proof.
  cbn. unfold SQLite_UpsertMessages, db_call.
  destruct (faults s) as [|[f|] fs]; by intros [= <- _].
Qed.

Lemma delete_metadata (s s' : SQLiteStore) ids e :
  DeleteMessages s ids = (s', e) -> metadata s' = metadata s.
Proof.
  cbn. unfold SQLite_DeleteMessages, db_call.
  destruct (decide (ids = [])); [by intros [= <- _]|].
  destruct (faults s) as [|[f|] fs]; by intros [= <- _].
Qed.

Lemma set_cursor_metadata (s s' : SQLiteStore) hid :
  SetLastHistoryID s hid = (s', None) ->
  metadata s' !! "last_history_id" = Some hid /\ messages s' = messages s.
Proof.
  cbn. unfold SQLite_SetLastHistoryID, db_call.
  destruct (faults s) as [|[f|] fs]; intros [= <-]; cbn;
    by rewrite lookup_insert_eq.
Qed.

(** A page whose [HistoryId] is larger than the id of its one record. *)
Definition page_100_record_50 : Service :=
  {| Users_GetProfile := inr 100%N;
     Users_Messages_List := [];
     Users_Messages_Get := fun _ => inl (Err "not found");
     Users_History_List :=
       [inr {| HistoryList :=
                 [ {| HistoryRecordId := 50; MessagesAdded := [];
                      MessagesDeleted := [ {| deleted := Some msg7 |} ];
                      LabelsAdded := []; LabelsRemoved := [] |} ];
               HistoryId := 100; History_NextPageToken := "" |}] |}.

Definition empty_store : SQLiteStore :=
  {| messages := ∅; metadata := ∅; faults := [] |}.

(** C2, as stated, fails: the stream shows the cursors 100 and 50, the
    sync succeeds and stores 50, not the maximum. *)
Lemma cursor_not_max_counterexample :
  exists st',
    SyncSinceHistory ascii_runtime plain_run page_100_record_50 (Some empty_store) "5"
    = (Some st', None)
    /\ metadata st' !! "last_history_id" = Some "50"
    /\ observed (Users_History_List page_100_record_50) = [100; 50]%N
    /\ Sprintf_d (cursor_max (observed (Users_History_List page_100_record_50))) = "100".
Proof. eexists. split; [vm_compute; reflexivity|]. repeat split. Qed.

(** C2 (amended): after a successful [SyncSinceHistory] the stored cursor
    is the last non-zero cursor value met in the history stream, in the
    order page-level historyId then the ids of the records of that page
    (later values override earlier ones; this is the maximum when the
    values come in ascending order); if no non-zero value was met, it is
    the gateway's current mailbox cursor. *)
Theorem sync_stores_last_cursor (rt : GoRuntime) (run : Run) (svc : Service)
    (st st' : SQLiteStore) (lastHistoryID : string) :
  SyncSinceHistory rt run svc (Some st) lastHistoryID = (Some st', None) ->
  match last_nonzero (observed (Users_History_List svc)) with
  | Some n =>
      metadata st' !! "last_history_id" = Some (Sprintf_d n)
      /\ (StronglySorted N.le (observed (Users_History_List svc)) ->
          n = cursor_max (observed (Users_History_List svc)))
  | None =>
      exists hid, Users_GetProfile svc = inr hid
                  /\ metadata st' !! "last_history_id" = Some (Sprintf_d hid)
  end.
Proof.
  unfold SyncSinceHistory.
  destruct (decide (GoStrings.TrimSpace lastHistoryID = "")); [done|].
  destruct (ParseUint lastHistoryID); [|done].
  destruct (history_pages run 0 (Users_History_List svc) _) as [w|e] eqn:Hw; [|done].
  apply history_pages_walked in Hw.
  assert (w_newest w = match last_nonzero (observed (Users_History_List svc)) with
                       | Some n => Sprintf_d n
                       | None => ""
                       end) as Hnewest.
  { rewrite Hw, on_pages_newest. apply newest_after_last. }
  destruct (if decide (0 < length (keys run (addSet (w_sets w)))) then _ else _)
    as [st1 e1] eqn:H1.
  destruct e1; [done|].
  destruct (if decide (0 < size (delSet (w_sets w))) then _ else _) as [st2 e2] eqn:H2.
  destruct e2; [done|].
  destruct (if decide (w_newest w = "") then _ else _) as [newest e3] eqn:H3.
  destruct e3; [done|].
  destruct (SetLastHistoryID st2 newest) as [st3 e4] eqn:H4.
  intros [= -> ->].
  apply set_cursor_metadata in H4 as [H4 _].
  destruct (last_nonzero (observed (Users_History_List svc))) as [c|] eqn:Hlast.
  - rewrite decide_False in H3 by (rewrite Hnewest; apply Sprintf_d_nonempty).
    injection H3 as <-. rewrite Hnewest in H4. split; [done|].
    intros Hs. by apply last_nonzero_sorted.
  - rewrite decide_True in H3 by done.
    unfold currentHistoryID in H3.
    destruct (Users_GetProfile svc) as [e|hid]; [done|].
    injection H3 as <-. by exists hid.
Qed.

(** A sync over a stream with no page-level cursor and no record. *)
Definition quiet_mailbox : Service :=
  {| Users_GetProfile := inr 100%N;
     Users_Messages_List := [];
     Users_Messages_Get := fun _ => inl (Err "not found");
     Users_History_List :=
       [inr {| HistoryList := []; HistoryId := 0; History_NextPageToken := "" |}] |}.

Lemma sync_stores_last_cursor_witness :
  exists st',
    SyncSinceHistory ascii_runtime plain_run quiet_mailbox (Some empty_store) "5"
    = (Some st', None)
    /\ exists hid, Users_GetProfile quiet_mailbox = inr hid
                   /\ metadata st' !! "last_history_id" = Some (Sprintf_d hid).
Proof.
  eexists. split; [vm_compute; reflexivity|].
  apply (sync_stores_last_cursor ascii_runtime plain_run quiet_mailbox empty_store _ "5").
  vm_compute. reflexivity.
Defined.

End cursor_spec.

(* ===================================================================== *)
(** * Incremental sync: a failed metadata fetch                           *)
(* ===================================================================== *)

Module batch_spec.
Import gmailv1.
Import gmail_sync.
Import store.
Import history_spec.
Open Scope list_scope.

(** A result that carries a record the collectors keep. *)
Definition usable (r : result) : Prop :=
  err r = None /\ MessageRef.From (ref r) <> "".

#[local] Instance usable_dec r : Decision (usable r).
Proof. unfold usable. apply _. Defined.

(** The error of the first result that carries one. *)
Definition first_failure (rs : list result) : option error := head (omap err rs).

(** A worker sends an error with the zero record. *)
Definition well_formed (r : result) : Prop :=
  err r <> None -> ref r = MessageRef.zero.

Lemma worker_well_formed rt svc id : well_formed (worker rt svc id).
Proof. unfold well_formed, worker. by destruct (Users_Messages_Get svc id). Qed.

Lemma arrive_elem_of {A} (sched : Scheduler) (l : list A) (x : A) :
  x ∈ arrive sched l -> x ∈ l.
Proof. intros Hx. eapply elem_of_submseteq; [exact Hx|apply arrive_sub]. Qed.

Lemma batch_results_well_formed rt run svc ids :
  Forall well_formed (batch_results rt run svc ids).
Proof.
  apply Forall_forall. intros r Hr. apply arrive_elem_of in Hr.
  apply list_elem_of_fmap in Hr as (id & -> & _). apply worker_well_formed.
Qed.

Lemma gather_usable (r : result) (out : list MessageRef.t) (firstErr : option error) :
  usable r -> gather (out, firstErr) r = (out ++ [ref r], firstErr).
Proof.
  intros [He Hf]. unfold gather. rewrite He, decide_False by done. by destruct firstErr.
Qed.

Lemma gather_failed (r : result) (out : list MessageRef.t) (firstErr : option error) e :
  well_formed r -> err r = Some e ->
  gather (out, firstErr) r = (out, first_error firstErr (Some e)).
Proof.
  intros Hwf He. unfold gather. rewrite He.
  destruct firstErr as [e0|]; [|done].
  rewrite Hwf by (rewrite He; done). by rewrite decide_True.
Qed.

Lemma gather_dropped (r : result) (out : list MessageRef.t) (firstErr : option error) :
  err r = None -> MessageRef.From (ref r) = "" ->
  gather (out, firstErr) r = (out, firstErr).
Proof.
  intros He Hf. unfold gather. rewrite He, decide_True by done. by destruct firstErr.
Qed.

Lemma first_failure_cons (r : result) (rs : list result) :
  first_failure (r :: rs) =
  match err r with
  | Some e => Some e
  | None => first_failure rs
  end.
Proof. unfold first_failure. cbn. by destruct (err r). Qed.

Lemma gather_spec (rs : list result) (out : list MessageRef.t) (firstErr : option error) :
  Forall well_formed rs ->
  fold_left gather rs (out, firstErr)
  = (out ++ map ref (filter usable rs), first_error firstErr (first_failure rs)).
Proof.
  intros Hwf. revert out firstErr.
  induction Hwf as [|r rs Hr _ IH]; intros out firstErr.
  - cbn. rewrite app_nil_r. by destruct firstErr.
  - cbn [fold_left]. rewrite filter_cons, first_failure_cons.
    destruct (decide (usable r)) as [Hu|Hu].
    + rewrite gather_usable, IH by done. destruct Hu as [-> _].
      cbn [map]. by rewrite <- app_assoc.
    + destruct (err r) as [e|] eqn:He.
      * rewrite (gather_failed _ _ _ e), IH by done. by destruct firstErr.
      * rewrite gather_dropped, IH; [done..|].
        destruct (decide (MessageRef.From (ref r) = "")) as [|Hf]; [done|].
        by destruct Hu.
Qed.

Lemma fetchMetadataBatch_spec rt run svc ids :
  fetchMetadataBatch rt run svc ids
  = (map ref (filter usable (batch_results rt run svc ids)),
     first_failure (batch_results rt run svc ids)).
Proof.
  unfold fetchMetadataBatch. rewrite gather_spec by apply batch_results_well_formed.
  done.
Qed.

(** Two messages appear; the metadata of the second cannot be fetched. *)
Definition bob : Message :=
  {| Id := "1"; LabelIds := ["INBOX"];
     Payload_Headers := [ {| HeaderName := "From"; HeaderValue := "Bob <bob@Example.com>" |} ] |}.

Definition lost : Message := {| Id := "2"; LabelIds := ["INBOX"]; Payload_Headers := [] |}.

Definition one_fetch_fails : Service :=
  {| Users_GetProfile := inr 100%N;
     Users_Messages_List := [];
     Users_Messages_Get :=
       fun id => if String.eqb id "1" then inr bob else inl (Err "fetch failed");
     Users_History_List :=
       [inr {| HistoryList :=
                 [ {| HistoryRecordId := 60;
                      MessagesAdded := [ {| added := Some bob |}; {| added := Some lost |} ];
                      MessagesDeleted := []; LabelsAdded := []; LabelsRemoved := [] |} ];
               HistoryId := 60; History_NextPageToken := "" |}] |}.

Definition bob_record : MessageRef.t :=
  MessageRef.mk "1" "" "" "bob@example.com" "" "".

(** C3, as stated, fails: the fetch pool isolates the failed id (it still
    hands back the record of the other id), but [SyncSinceHistory] returns
    the error at once, and neither the record nor the cursor reaches the
    store. *)
Lemma batch_error_counterexample :
  fetchMetadataBatch ascii_runtime plain_run one_fetch_fails ["1"; "2"]
  = ([bob_record], Some (Err "fetch failed"))
  /\ SyncSinceHistory ascii_runtime plain_run one_fetch_fails
       (Some cursor_spec.empty_store) "5"
     = (Some cursor_spec.empty_store, Some (Err "fetch failed")).
Proof. split; vm_compute; reflexivity. Qed.

(** C3 (amended): in the metadata fetch of [SyncSinceHistory] for the added
    ids, a per-id fetch error does not stop the other fetches:
    [fetchMetadataBatch] returns every record fetched successfully with a
    non-empty sender, together with the first error.  [SyncSinceHistory]
    then aborts with that error: it makes no call to the store, so nothing
    is upserted or deleted and the cursor is not advanced. *)
Theorem batch_error_aborts {St} `{MessageStore St} (rt : GoRuntime) (run : Run)
    (svc : Service) (st : St) (lastHistoryID : string) (w : walk) (e : error) :
  GoStrings.TrimSpace lastHistoryID <> "" ->
  is_Some (ParseUint lastHistoryID) ->
  history_pages run 0 (Users_History_List svc) start = inl w ->
  first_failure (batch_results rt run svc (keys run (addSet (w_sets w)))) = Some e ->
  fetchMetadataBatch rt run svc (keys run (addSet (w_sets w)))
  = (map ref (filter usable (batch_results rt run svc (keys run (addSet (w_sets w))))),
     Some e)
  /\ SyncSinceHistory rt run svc (Some st) lastHistoryID = (Some st, Some e).
Proof.
  intros Hid [n Hn] Hw He.
  assert (fetchMetadataBatch rt run svc (keys run (addSet (w_sets w)))
          = (map ref (filter usable (batch_results rt run svc (keys run (addSet (w_sets w))))),
             Some e)) as Hfetch by (by rewrite fetchMetadataBatch_spec, He).
  split; [exact Hfetch|].
  unfold SyncSinceHistory. rewrite decide_False by done. rewrite Hn.
  unfold start, no_sets in Hw. rewrite Hw.
  rewrite decide_True; [by rewrite Hfetch|].
  destruct (keys run (addSet (w_sets w))) as [|id ids] eqn:Hkeys; [|cbn; lia].
  exfalso. unfold first_failure, batch_results in He. cbn [map] in He.
  pose proof (arrive_sub (workers run) _ (@nil result)) as Hsub.
  apply submseteq_nil_r in Hsub. by rewrite Hsub in He.
Qed.

Lemma batch_error_aborts_witness :
  SyncSinceHistory ascii_runtime plain_run one_fetch_fails
    (Some cursor_spec.empty_store) "5"
  = (Some cursor_spec.empty_store, Some (Err "fetch failed")).
Proof.
  refine (proj2 (batch_error_aborts ascii_runtime plain_run one_fetch_fails
    cursor_spec.empty_store "5"
    {| w_sets := {| addSet := {["1"; "2"]}; delSet := ∅ |}; w_newest := "60" |}
    (Err "fetch failed") _ _ _ _)).
  - vm_compute. congruence.
  - eexists. vm_compute. reflexivity.
  - vm_compute. reflexivity.
  - vm_compute. reflexivity.
Defined.

End batch_spec.

(* ===================================================================== *)
(** * Full scan: when the cursor is stored                                *)
(* ===================================================================== *)

Module fullscan_spec.
Import gmailv1.
Import gmail_sync.
Import store.
Import batch_spec.
Open Scope list_scope.

Definition is_upsert (c : call) : Prop :=
  match c with
  | CallUpsert _ _ => True
  | _ => False
  end.

Section Collector.
Context {St : Type} `{MessageStore St}.

(** What the collecting loop keeps true of the calls recorded and of
    [done]. *)
Lemma collect_recorded (c : collector (Recording St)) (r : result) :
  Forall is_upsert (calls (c_store c)) ->
  Forall is_upsert (calls (c_store (collect c r)))
  /\ c_done (collect c r) = (if decide (usable r) then int_incr (c_done c) else c_done c).
Proof.
  intros Hc. unfold collect.
  destruct (decide (usable r)) as [[He Hf]|Hu].
  - rewrite He, decide_False by done.
    destruct (decide (batch <= length (c_buf c ++ [ref r]))); [|done].
    cbn [UpsertMessages Recording_MessageStore].
    destruct (UpsertMessages (inner (c_store c)) (c_buf c ++ [ref r])) as [s e].
    cbn. split; [|done]. apply Forall_app. split; [done|]. by repeat constructor.
  - destruct (err r) as [e|] eqn:He; [done|].
    destruct (decide (MessageRef.From (ref r) = "")) as [Hf|Hf]; [done|].
    by destruct Hu.
Qed.

Lemma collect_all_recorded (rs : list result) (c : collector (Recording St)) :
  Forall is_upsert (calls (c_store c)) ->
  Forall is_upsert (calls (c_store (fold_left collect rs c)))
  /\ c_done (fold_left collect rs c)
     = Nat.iter (length (filter usable rs)) int_incr (c_done c).
Proof.
  revert c. induction rs as [|r rs IH] using rev_ind; intros c Hc; [done|].
  rewrite fold_left_app. cbn [fold_left].
  destruct (IH c Hc) as [Hcalls Hdone].
  destruct (collect_recorded (fold_left collect rs c) r Hcalls) as [Hcalls' Hdone'].
  split; [done|]. rewrite Hdone', Hdone, filter_app, length_app, Nat.add_comm.
  rewrite filter_cons, filter_nil. by destruct (decide (usable r)).
Qed.

End Collector.

(** One message in INBOX, and a database that fails at the first call. *)
Definition one_message : Service :=
  {| Users_GetProfile := inr 100%N;
     Users_Messages_List :=
       [inr {| Messages := [bob]; Messages_NextPageToken := ""; ResultSizeEstimate := 1 |}];
     Users_Messages_Get := fun _ => inr bob;
     Users_History_List := [] |}.

Definition failing_store : SQLiteStore :=
  {| messages := ∅; metadata := ∅; faults := [Some (Err "disk full")] |}.

(** C1, as stated, fails: the only upsert fails, nothing is persisted, and
    [SetLastHistoryID] is called all the same and advances the stored
    cursor. *)
Lemma cursor_without_commit_counterexample :
  exists st',
    FullScan ascii_runtime plain_run one_message
      (Some {| inner := failing_store; calls := [] |})
    = (Some st', Some (Err "disk full"))
    /\ calls st' = [ CallUpsert [bob_record] (Some (Err "disk full"));
                     CallSetLastHistoryID "100" None ]
    /\ messages (inner st') = ∅
    /\ metadata (inner st') !! "last_history_id" = Some "100".
Proof. eexists. split; [vm_compute; reflexivity|]. repeat split. Qed.

(** C1 (amended): [FullScan] calls [SetLastHistoryID], with the cursor
    captured at scan start and with nothing else, if and only if the
    collector received at least one record with a non-empty sender
    ([done > 0]), whether or not a batch upsert succeeded; it makes no
    other call to the store than upserts.  The results are as many as a Go
    [int] can count. *)
Theorem fullscan_cursor_iff_received {St} `{MessageStore St} (rt : GoRuntime) (run : Run)
    (svc : Service) (st : St) (hid : N) (st' : Recording St) (e : option error) :
  Users_GetProfile svc = inr hid ->
  (Z.of_nat (length (scan_results rt run svc)) < 2 ^ 63)%Z ->
  FullScan rt run svc (Some {| inner := st; calls := [] |}) = (Some st', e) ->
  ((exists res, CallSetLastHistoryID (Sprintf_d hid) res ∈ calls st')
   <-> (exists r, r ∈ scan_results rt run svc /\ usable r))
  /\ (forall c, c ∈ calls st' ->
        is_upsert c \/ exists res, c = CallSetLastHistoryID (Sprintf_d hid) res).
Proof.
  intros Hprofile Hbound. unfold FullScan, currentHistoryID. rewrite Hprofile.
  set (c0 := {| c_store := {| inner := st; calls := [] |}; c_collectErr := None;
                c_buf := []; c_done := 0 |}).
  destruct (collect_all_recorded (scan_results rt run svc) c0) as [Hcalls Hdone];
    [by constructor|].
  set (c := fold_left collect (scan_results rt run svc) c0) in *.
  assert (c_done c = Z.of_nat (length (filter usable (scan_results rt run svc)))) as Hd.
  { rewrite Hdone. apply iter_int_incr.
    pose proof (length_filter usable (scan_results rt run svc)). lia. }
  assert ((c_done c >? 0)%Z = true <-> exists r, r ∈ scan_results rt run svc /\ usable r)
    as Hpos.
  { rewrite Hd, Z.gtb_gt. split.
    - intros Hlen. destruct (filter usable (scan_results rt run svc)) as [|r l] eqn:Hf;
        [cbn in Hlen; lia|].
      exists r. assert (r ∈ filter usable (scan_results rt run svc)) as Hin
        by (rewrite Hf; left).
      apply list_elem_of_filter in Hin as [? ?]. done.
    - intros (r & Hr & Hu).
      assert (r ∈ filter usable (scan_results rt run svc)) as Hin
        by (by apply list_elem_of_filter).
      destruct (filter usable (scan_results rt run svc)); [by apply elem_of_nil in Hin|].
      cbn. lia. }
  destruct (if decide (0 < length (c_buf c)) then _ else _) as [st1 e1] eqn:Hflush.
  assert (Forall is_upsert (calls st1)) as Hcalls1.
  { destruct (decide (0 < length (c_buf c))).
    - cbn [UpsertMessages Recording_MessageStore] in Hflush.
      destruct (UpsertMessages (inner (c_store c)) (c_buf c)) as [s e0].
      injection Hflush as <- _. cbn. apply Forall_app. split; [done|]. by repeat constructor.
    - by injection Hflush as <- _. }
  destruct (c_done c >? 0)%Z eqn:Hgt.
  - cbn [SetLastHistoryID Recording_MessageStore].
    destruct (SetLastHistoryID (inner st1) (Sprintf_d hid)) as [s e2].
    intros [= <- _]. cbn [calls record_call]. split.
    + split; [intros _; by apply Hpos|]. intros _. exists e2.
      apply elem_of_app. right. left.
    + intros c1 [Hc1|Hc1]%elem_of_app.
      * left. rewrite Forall_forall in Hcalls1. by apply Hcalls1.
      * right. apply list_elem_of_singleton in Hc1. by exists e2.
  - intros [= <- _]. split.
    + split.
      * intros [res Hres]. rewrite Forall_forall in Hcalls1. by apply Hcalls1 in Hres.
      * intros Hex. apply Hpos in Hex. done.
    + intros c1 Hc1. left. rewrite Forall_forall in Hcalls1. by apply Hcalls1.
Qed.

Lemma fullscan_cursor_iff_received_witness :
  (exists res, CallSetLastHistoryID "100" res
               ∈ [ CallUpsert [bob_record] (Some (Err "disk full"));
                   CallSetLastHistoryID "100" None ])
  <-> (exists r, r ∈ scan_results ascii_runtime plain_run one_message /\ usable r).
Proof.
  refine (proj1 (fullscan_cursor_iff_received ascii_runtime plain_run one_message
    failing_store 100%N
    {| inner := {| messages := ∅; metadata := {["last_history_id" := "100"]}; faults := [] |};
       calls := [ CallUpsert [bob_record] (Some (Err "disk full"));
                  CallSetLastHistoryID "100" None ] |}
    (Some (Err "disk full")) _ _ _)).
  - reflexivity.
  - vm_compute. reflexivity.
  - vm_compute. reflexivity.
Defined.

End fullscan_spec.

(* ===================================================================== *)
(** * What the scans persist                                              *)
(* ===================================================================== *)

Module persisted_spec.
Import gmailv1.
Import gmail_sync.
Import store.
Import batch_spec.
Import util.
Open Scope list_scope.

(** A record made by a worker from a message the gateway returned: its
    sender is the normalised From header, and is not empty. *)
Definition canonical (rt : GoRuntime) (svc : Service) (r : MessageRef.t) : Prop :=
  exists id msg,
    Users_Messages_Get svc id = inr msg
    /\ MessageRef.ID r = Id msg
    /\ MessageRef.From r = NormalizeSender rt (h_from (decode_headers rt msg))
    /\ MessageRef.From r <> "".

(** Every row is a row of the store [st] or a canonical record. *)
Definition rows_ok (rt : GoRuntime) (svc : Service) (st : SQLiteStore)
    (rows : gmap string MessageRef.t) : Prop :=
  forall key r, rows !! key = Some r -> messages st !! key = Some r \/ canonical rt svc r.

Lemma worker_canonical rt svc id :
  usable (worker rt svc id) -> canonical rt svc (ref (worker rt svc id)).
Proof.
  unfold usable, worker, canonical.
  destruct (Users_Messages_Get svc id) as [e|msg] eqn:Hget; cbn; [by intros []|].
  intros [_ Hf]. by exists id, msg.
Qed.

Lemma batch_canonical rt run svc ids :
  Forall (canonical rt svc) (map ref (filter usable (batch_results rt run svc ids))).
Proof.
  apply Forall_forall. intros r (x & -> & Hx)%list_elem_of_fmap.
  apply list_elem_of_filter in Hx as [Hu Hx]. apply arrive_elem_of in Hx.
  apply list_elem_of_fmap in Hx as (id & -> & _). by apply worker_canonical.
Qed.

Lemma scan_canonical rt run svc r :
  r ∈ scan_results rt run svc -> usable r -> canonical rt svc (ref r).
Proof.
  unfold scan_results, scan_sent. intros Hr Hu. apply arrive_elem_of in Hr.
  destruct (list_pages run 0 (Users_Messages_List svc)) as [ids listErr].
  apply elem_of_app in Hr as [Hr|Hr].
  - apply list_elem_of_fmap in Hr as (id & -> & _). by apply worker_canonical.
  - destruct listErr; [|by apply elem_of_nil in Hr].
    apply list_elem_of_singleton in Hr as ->. by destruct Hu.
Qed.

Lemma upsert_rows_ok rt svc st msgs rows :
  Forall (canonical rt svc) msgs -> rows_ok rt svc st rows ->
  rows_ok rt svc st (upsert_rows rows msgs).
Proof.
  intros Hmsgs. revert rows. unfold upsert_rows.
  induction Hmsgs as [|m msgs Hm _ IH]; intros rows Hrows; [done|].
  cbn [fold_left]. apply IH. intros key r.
  destruct (decide (MessageRef.ID m = key)) as [<-|Hne].
  - rewrite lookup_insert_eq. intros [= <-]. by right.
  - rewrite lookup_insert_ne by done. apply Hrows.
Qed.

Lemma delete_rows_ok rt svc st ids rows :
  rows_ok rt svc st rows -> rows_ok rt svc st (delete_rows rows ids).
Proof.
  revert rows. unfold delete_rows.
  induction ids as [|id ids IH]; intros rows Hrows; [done|].
  cbn [fold_left]. apply IH. intros key r.
  destruct (decide (id = key)) as [<-|Hne].
  - by rewrite lookup_delete_eq.
  - rewrite lookup_delete_ne by done. apply Hrows.
Qed.

Lemma upsert_ok rt svc st (s s' : SQLiteStore) msgs e :
  Forall (canonical rt svc) msgs -> rows_ok rt svc st (messages s) ->
  UpsertMessages s msgs = (s', e) -> rows_ok rt svc st (messages s').
Proof.
  intros Hmsgs Hrows. cbn. unfold SQLite_UpsertMessages, db_call.
  destruct (faults s) as [|[f|] fs]; intros [= <- _]; cbn;
    try done; by apply upsert_rows_ok.
Qed.

Lemma delete_ok rt svc st (s s' : SQLiteStore) ids e :
  rows_ok rt svc st (messages s) ->
  DeleteMessages s ids = (s', e) -> rows_ok rt svc st (messages s').
Proof.
  intros Hrows. cbn. unfold SQLite_DeleteMessages, db_call.
  destruct (decide (ids = [])); [by intros [= <- _]|].
  destruct (faults s) as [|[f|] fs]; intros [= <- _]; cbn;
    try done; by apply delete_rows_ok.
Qed.

Lemma set_cursor_ok rt svc st (s s' : SQLiteStore) hid e :
  rows_ok rt svc st (messages s) ->
  SetLastHistoryID s hid = (s', e) -> rows_ok rt svc st (messages s').
Proof.
  intros Hrows. cbn. unfold SQLite_SetLastHistoryID, db_call.
  destruct (faults s) as [|[f|] fs]; by intros [= <- _].
Qed.

(** The collecting loop of [FullScan] on the SQLite store. *)
Lemma collect_rows_ok rt svc st (c : collector SQLiteStore) (r : result) :
  (usable r -> canonical rt svc (ref r)) ->
  rows_ok rt svc st (messages (c_store c)) /\ Forall (canonical rt svc) (c_buf c) ->
  rows_ok rt svc st (messages (c_store (collect c r)))
  /\ Forall (canonical rt svc) (c_buf (collect c r)).
Proof.
  intros Hr [Hrows Hbuf]. unfold collect.
  destruct (decide (usable r)) as [Hu|Hu].
  - destruct Hu as [He Hf]. rewrite He, decide_False by done.
    assert (Forall (canonical rt svc) (c_buf c ++ [ref r])) as Hbuf'.
    { apply Forall_app. split; [done|]. constructor; [|done]. by apply Hr. }
    destruct (decide (batch <= length (c_buf c ++ [ref r]))); [|done].
    destruct (UpsertMessages (c_store c) (c_buf c ++ [ref r])) as [s e] eqn:Hup.
    cbn. split; [|done]. by eapply upsert_ok.
  - destruct (err r) as [e|] eqn:He; [done|].
    destruct (decide (MessageRef.From (ref r) = "")) as [Hf|Hf]; [done|].
    by destruct Hu.
Qed.

Lemma collect_all_rows_ok rt svc st (rs : list result) (c : collector SQLiteStore) :
  Forall (fun r => usable r -> canonical rt svc (ref r)) rs ->
  rows_ok rt svc st (messages (c_store c)) /\ Forall (canonical rt svc) (c_buf c) ->
  rows_ok rt svc st (messages (c_store (fold_left collect rs c)))
  /\ Forall (canonical rt svc) (c_buf (fold_left collect rs c)).
Proof.
  intros Hrs. revert c. induction Hrs as [|r rs Hr _ IH]; intros c Hc; [done|].
  cbn [fold_left]. apply IH. by apply collect_rows_ok.
Qed.

Lemma FullScan_rows_ok rt run svc (st st' : SQLiteStore) e :
  FullScan rt run svc (Some st) = (Some st', e) -> rows_ok rt svc st (messages st').
Proof.
  assert (rows_ok rt svc st (messages st)) as Hst by (intros key r; by left).
  unfold FullScan.
  destruct (currentHistoryID svc) as [hid [e0|]]; [by intros [= <- _]|].
  set (c0 := {| c_store := st; c_collectErr := None; c_buf := []; c_done := 0 |}).
  destruct (collect_all_rows_ok rt svc st (scan_results rt run svc) c0) as [Hrows Hbuf].
  { apply Forall_forall. intros r Hr. by apply (scan_canonical rt run). }
  { by split. }
  set (c := fold_left collect (scan_results rt run svc) c0) in *.
  destruct (if decide (0 < length (c_buf c)) then _ else _) as [st1 e1] eqn:Hflush.
  assert (rows_ok rt svc st (messages st1)) as Hrows1.
  { destruct (decide (0 < length (c_buf c))).
    - destruct (UpsertMessages (c_store c) (c_buf c)) as [s e0] eqn:Hup.
      injection Hflush as <- _. by eapply upsert_ok.
    - by injection Hflush as <- _. }
  destruct (c_done c >? 0)%Z.
  - destruct (SetLastHistoryID st1 hid) as [s e2] eqn:Hset.
    intros [= <- _]. by eapply set_cursor_ok.
  - by intros [= <- _].
Qed.

Lemma SyncSinceHistory_rows_ok rt run svc (st st' : SQLiteStore) e lastHistoryID :
  SyncSinceHistory rt run svc (Some st) lastHistoryID = (Some st', e) ->
  rows_ok rt svc st (messages st').
Proof.
  assert (rows_ok rt svc st (messages st)) as Hst by (intros key r; by left).
  unfold SyncSinceHistory.
  destruct (decide (GoStrings.TrimSpace lastHistoryID = "")); [by intros [= <- _]|].
  destruct (ParseUint lastHistoryID); [|by intros [= <- _]].
  destruct (history_pages run 0 (Users_History_List svc) _) as [w|e0];
    [|by intros [= <- _]].
  destruct (if decide (0 < length (keys run (addSet (w_sets w)))) then _ else _)
    as [st1 e1] eqn:H1.
  assert (rows_ok rt svc st (messages st1)) as Hrows1.
  { destruct (decide (0 < length (keys run (addSet (w_sets w))))).
    - rewrite fetchMetadataBatch_spec in H1.
      destruct (first_failure _); [by injection H1 as <- _|].
      eapply upsert_ok; [|exact Hst|exact H1]. apply batch_canonical.
    - by injection H1 as <- _. }
  destruct e1; [by intros [= <- _]|].
  destruct (if decide (0 < size (delSet (w_sets w))) then _ else _) as [st2 e2] eqn:H2.
  assert (rows_ok rt svc st (messages st2)) as Hrows2.
  { destruct (decide (0 < size (delSet (w_sets w)))).
    - by eapply delete_ok.
    - by injection H2 as <- _. }
  destruct e2; [by intros [= <- _]|].
  destruct (if decide (w_newest w = "") then _ else _) as [newest e3].
  destruct e3; [by intros [= <- _]|].
  destruct (SetLastHistoryID st2 newest) as [st3 e4] eqn:H4.
  intros [= <- _]. by eapply set_cursor_ok.
Qed.

(** C10: whatever [FullScan] or [SyncSinceHistory] leaves in the store, a
    row is either a row that was there before or a record made from a
    message the gateway returned, whose From field is [NormalizeSender] of
    the From header of that message (the canonical sender, not the raw
    header with its display name) and is not empty. *)
Theorem persisted_sender_canonical (rt : GoRuntime) (run : Run) (svc : Service)
    (st st' : SQLiteStore) (e : option error) (lastHistoryID key : string)
    (r : MessageRef.t) :
  FullScan rt run svc (Some st) = (Some st', e)
  \/ SyncSinceHistory rt run svc (Some st) lastHistoryID = (Some st', e) ->
  messages st' !! key = Some r ->
  messages st !! key = Some r
  \/ exists id msg,
       Users_Messages_Get svc id = inr msg
       /\ MessageRef.ID r = Id msg
       /\ MessageRef.From r = NormalizeSender rt (h_from (decode_headers rt msg))
       /\ MessageRef.From r <> "".
Proof.
  intros [Hscan|Hsync] Hrow.
  - by apply (FullScan_rows_ok _ _ _ _ _ _ Hscan).
  - by apply (SyncSinceHistory_rows_ok _ _ _ _ _ _ _ Hsync).
Qed.

(** The header "Bob <bob@Example.com>" is stored as bob@example.com. *)
Lemma persisted_sender_canonical_witness :
  exists st',
    FullScan ascii_runtime plain_run fullscan_spec.one_message (Some cursor_spec.empty_store)
    = (Some st', None)
    /\ messages st' !! "1" = Some bob_record
    /\ (messages cursor_spec.empty_store !! "1" = Some bob_record
        \/ exists id msg,
             Users_Messages_Get fullscan_spec.one_message id = inr msg
             /\ MessageRef.ID bob_record = Id msg
             /\ MessageRef.From bob_record
                = NormalizeSender ascii_runtime (h_from (decode_headers ascii_runtime msg))
             /\ MessageRef.From bob_record <> "").
Proof.
  eexists. split; [vm_compute; reflexivity|]. split; [vm_compute; reflexivity|].
  eapply (persisted_sender_canonical ascii_runtime plain_run fullscan_spec.one_message
            cursor_spec.empty_store _ None "" "1" bob_record).
  - left. vm_compute. reflexivity.
  - vm_compute. reflexivity.
Defined.

End persisted_spec.

(* ===================================================================== *)
(** * The sender normaliser                                               *)
(* ===================================================================== *)

(** Facts on byte strings. *)
Module string_facts.
Import GoStrings.
#[local] Arguments String.append !_ _ / : simpl nomatch.

(** [s] holds no byte [c]. *)
Definition lacks (c : ascii) (s : string) : bool :=
  str_forall (fun x => negb (Ascii.eqb x c)) s.

Lemma append_nil_r (s : string) : (s ++ "")%string = s.
Proof. induction s as [|c s IH]; cbn; [done|by rewrite IH]. Qed.

Lemma append_assoc (a b c : string) : ((a ++ b) ++ c = a ++ (b ++ c))%string.
Proof. induction a as [|x a IH]; cbn; [done|by rewrite IH]. Qed.

Lemma length_append (a b : string) :
  String.length (a ++ b) = (String.length a + String.length b)%nat.
Proof. induction a as [|x a IH]; cbn; [done|by rewrite IH]. Qed.

Lemma str_forall_app (p : ascii -> bool) (a b : string) :
  str_forall p (a ++ b) = str_forall p a && str_forall p b.
Proof. induction a as [|x a IH]; cbn; [done|]. by rewrite IH, andb_assoc. Qed.

Lemma str_forall_impl (p q : ascii -> bool) (s : string) :
  (forall c, p c = true -> q c = true) -> str_forall p s = true -> str_forall q s = true.
Proof.
  intros Hpq. induction s as [|c s IH]; cbn; [done|].
  intros [Hc Hs]%andb_true_iff. by rewrite (Hpq c Hc), IH.
Qed.

Lemma str_map_app (f : ascii -> ascii) (a b : string) :
  str_map f (a ++ b) = (str_map f a ++ str_map f b)%string.
Proof. induction a as [|x a IH]; cbn; [done|by rewrite IH]. Qed.

Lemma str_map_length (f : ascii -> ascii) (s : string) :
  String.length (str_map f s) = String.length s.
Proof. induction s as [|x s IH]; cbn; [done|by rewrite IH]. Qed.

Lemma str_map_id (f : ascii -> ascii) (s : string) :
  str_forall (fun c => Ascii.eqb (f c) c) s = true -> str_map f s = s.
Proof.
  induction s as [|c s IH]; cbn; [done|].
  intros [Hc Hs]%andb_true_iff. apply Ascii.eqb_eq in Hc. by rewrite Hc, IH.
Qed.

Lemma str_forall_map (p : ascii -> bool) (f : ascii -> ascii) (s : string) :
  str_forall p (str_map f s) = str_forall (fun c => p (f c)) s.
Proof. induction s as [|c s IH]; cbn; [done|by rewrite IH]. Qed.

Lemma take_app_length (a b : string) : take (String.length a) (a ++ b) = a.
Proof. induction a as [|x a IH]; cbn; [by destruct b|]. by rewrite IH. Qed.

Lemma drop_app_length (a b : string) : drop (String.length a) (a ++ b) = b.
Proof. induction a as [|x a IH]; cbn; [done|by rewrite IH]. Qed.

Lemma str_forall_take (p : ascii -> bool) (n : nat) (s : string) :
  str_forall p s = true -> str_forall p (take n s) = true.
Proof.
  revert n. induction s as [|c s IH]; intros [|n]; cbn; try done.
  intros [Hc Hs]%andb_true_iff. by rewrite Hc, IH.
Qed.

Lemma str_forall_drop (p : ascii -> bool) (n : nat) (s : string) :
  str_forall p s = true -> str_forall p (drop n s) = true.
Proof.
  revert n. induction s as [|c s IH]; intros [|n]; cbn; try done.
  intros [Hc Hs]%andb_true_iff. by apply IH.
Qed.

(** [IndexByte] and [LastIndexByte]. *)
Lemma IndexByte_range (s : string) (c : ascii) :
  (-1 <= IndexByte s c < Z.of_nat (String.length s))%Z.
Proof.
  induction s as [|a s IH]; cbn [IndexByte String.length]; [lia|].
  destruct (ascii_dec a c); [lia|].
  destruct (Z.ltb_spec (IndexByte s c) 0); lia.
Qed.

Lemma IndexByte_lacks (s : string) (c : ascii) :
  lacks c s = true -> IndexByte s c = (-1)%Z.
Proof.
  induction s as [|a s IH]; cbn; [done|].
  intros [Ha Hs]%andb_true_iff. apply negb_true_iff, Ascii.eqb_neq in Ha.
  destruct (ascii_dec a c); [done|]. by rewrite IH.
Qed.

Lemma IndexByte_app (a r : string) (c : ascii) :
  lacks c a = true -> IndexByte (a ++ String c r) c = Z.of_nat (String.length a).
Proof.
  induction a as [|x a IH]; cbn [append IndexByte String.length lacks str_forall].
  - intros _. by destruct (ascii_dec c c).
  - intros [Hx Ha]%andb_true_iff. apply negb_true_iff, Ascii.eqb_neq in Hx.
    destruct (ascii_dec x c); [done|]. rewrite (IH Ha).
    destruct (Z.ltb_spec (Z.of_nat (String.length a)) 0); lia.
Qed.

Lemma IndexByte_take_lacks (s : string) (c : ascii) :
  lacks c (take (Z.to_nat (IndexByte s c)) s) = true.
Proof.
  unfold lacks. induction s as [|a s IH]; cbn [IndexByte]; [done|].
  destruct (ascii_dec a c) as [|Hne]; [done|].
  pose proof (IndexByte_range s c) as Hr.
  destruct (Z.ltb_spec (IndexByte s c) 0) as [Hlt|Hge]; [done|].
  replace (Z.to_nat (IndexByte s c + 1)) with (S (Z.to_nat (IndexByte s c))) by lia.
  cbn. rewrite IH. apply Ascii.eqb_neq in Hne. by rewrite Hne.
Qed.

Lemma LastIndexByte_range (s : string) (c : ascii) :
  (-1 <= LastIndexByte s c < Z.of_nat (String.length s))%Z.
Proof.
  induction s as [|a s IH]; cbn [LastIndexByte String.length]; [lia|].
  destruct (Z.leb_spec 0 (LastIndexByte s c)); [lia|].
  destruct (ascii_dec a c); lia.
Qed.

Lemma LastIndexByte_lacks (s : string) (c : ascii) :
  lacks c s = true -> LastIndexByte s c = (-1)%Z.
Proof.
  induction s as [|a s IH]; cbn; [done|].
  intros [Ha Hs]%andb_true_iff. apply negb_true_iff, Ascii.eqb_neq in Ha.
  rewrite IH by done. cbn. by destruct (ascii_dec a c).
Qed.

Lemma LastIndexByte_app (a d : string) (c : ascii) :
  lacks c d = true -> LastIndexByte (a ++ String c d) c = Z.of_nat (String.length a).
Proof.
  intros Hd. induction a as [|x a IH]; cbn [append LastIndexByte String.length].
  - rewrite LastIndexByte_lacks by done. cbn. by destruct (ascii_dec c c).
  - rewrite IH. destruct (Z.leb_spec 0 (Z.of_nat (String.length a))); lia.
Qed.

Lemma LastIndexByte_drop_lacks (s : string) (c : ascii) :
  lacks c (drop (Z.to_nat (LastIndexByte s c + 1)) s) = true.
Proof.
  unfold lacks. induction s as [|a s IH]; cbn [LastIndexByte]; [done|].
  pose proof (LastIndexByte_range s c) as Hr.
  destruct (Z.leb_spec 0 (LastIndexByte s c)) as [Hge|Hlt].
  - replace (Z.to_nat (LastIndexByte s c + 1 + 1))
      with (S (Z.to_nat (LastIndexByte s c + 1))) by lia.
    exact IH.
  - assert (LastIndexByte s c = (-1)%Z) as Hm by lia. rewrite Hm in IH.
    change (drop (Z.to_nat (-1 + 1)) s) with s in IH.
    destruct (ascii_dec a c) as [|Hne]; [exact IH|].
    change (drop (Z.to_nat (-1 + 1)) (String a s)) with (String a s).
    cbn [str_forall]. apply Ascii.eqb_neq in Hne. by rewrite Hne, IH.
Qed.

Lemma LastIndexByte_is_byte (s : string) (c : ascii) :
  (0 <= LastIndexByte s c)%Z ->
  s = (take (Z.to_nat (LastIndexByte s c)) s
       ++ String c (drop (Z.to_nat (LastIndexByte s c + 1)) s))%string.
Proof.
  induction s as [|a s IH]; cbn [LastIndexByte]; [lia|].
  pose proof (LastIndexByte_range s c) as Hr.
  destruct (Z.leb_spec 0 (LastIndexByte s c)) as [Hge|Hlt].
  - intros _.
    replace (Z.to_nat (LastIndexByte s c + 1 + 1))
      with (S (Z.to_nat (LastIndexByte s c + 1))) by lia.
    replace (Z.to_nat (LastIndexByte s c + 1))
      with (S (Z.to_nat (LastIndexByte s c))) at 1 by lia.
    cbn. by rewrite <- IH.
  - destruct (ascii_dec a c) as [->|]; [|lia]. done.
Qed.

(** [String.rev]. *)
Lemma rev_app_app (s t u : string) :
  String.rev_app (String.rev_app s t) u = String.rev_app t (s ++ u)%string.
Proof.
  revert t u. induction s as [|a s IH]; intros t u; cbn; [done|].
  by rewrite IH.
Qed.

Lemma rev_involutive (s : string) : String.rev (String.rev s) = s.
Proof. unfold String.rev. by rewrite rev_app_app, append_nil_r. Qed.

Lemma str_forall_rev_app (p : ascii -> bool) (s t : string) :
  str_forall p (String.rev_app s t) = str_forall p s && str_forall p t.
Proof.
  revert t. induction s as [|a s IH]; intros t; cbn; [done|].
  rewrite IH. cbn. by destruct (p a), (str_forall p s).
Qed.

Lemma str_forall_rev (p : ascii -> bool) (s : string) :
  str_forall p (String.rev s) = str_forall p s.
Proof. unfold String.rev. by rewrite str_forall_rev_app, andb_true_r. Qed.

Lemma rev_app_append (s t : string) :
  String.rev_app s t = (String.rev s ++ t)%string.
Proof.
  unfold String.rev. revert t. induction s as [|a s IH]; intros t; cbn; [done|].
  rewrite IH, (IH (String a "")), append_assoc. done.
Qed.

Lemma rev_app_of_append (a b t : string) :
  String.rev_app (a ++ b) t = String.rev_app b (String.rev_app a t).
Proof. revert t. induction a as [|x a IH]; intros t; cbn; [done|apply IH]. Qed.

Lemma rev_append (a b : string) :
  String.rev (a ++ b) = (String.rev b ++ String.rev a)%string.
Proof.
  unfold String.rev at 1. rewrite rev_app_of_append, rev_app_append. done.
Qed.

End string_facts.

Module normalise_spec.
Import GoStrings.
Import mail.
Import util.
Import string_facts.
#[local] Arguments String.append !_ _ / : simpl nomatch.

(** A byte of RFC 5322 dot-atom text in ASCII: atext or a dot. *)
Definition atext_byte (c : ascii) : bool := is_ascii_byte c && isAtext c true.

(** A non-empty dot-atom in ASCII: atext and dots, no dot at either end, no
    two dots in a row. *)
Definition is_dot_atom (s : string) : bool :=
  negb (String.eqb s "") && str_forall atext_byte s
  && negb (peek_is s ".") && negb (has_double_dot s) && negb (has_trailing_dot s).

(** What follows an atom stops the scan of [consumeAtom]: the end of the
    input or an ASCII byte that is not atext. *)
Definition stops (rest : string) : bool :=
  match rest with
  | EmptyString => true
  | String c _ => is_ascii_byte c && negb (isAtext c true)
  end.

(** A visible ASCII byte. *)
Definition visible (c : ascii) : bool := is_ascii_byte c && isVchar c.

Definition no_upper (s : string) : bool := str_forall (fun c => negb (is_upper c)) s.

Ltac bytes c := destruct c as [[] [] [] [] [] [] [] []]; vm_compute; try done.

Lemma atext_visible (c : ascii) : atext_byte c = true -> visible c = true.
Proof. bytes c. Qed.

Lemma atext_ascii (c : ascii) : atext_byte c = true -> is_ascii_byte c = true.
Proof. bytes c. Qed.

Lemma atext_not_space (c : ascii) :
  atext_byte c = true -> in_cutset (String " " (String (ascii_of_N 9) "")) c = false.
Proof. bytes c. Qed.

Lemma atext_not_dquote (c : ascii) (r : string) :
  atext_byte c = true -> peek_is (String c r) dquote = false.
Proof. bytes c. Qed.

Lemma atext_not_bracket (c : ascii) (r : string) :
  atext_byte c = true -> peek_is (String c r) "[" = false.
Proof. bytes c. Qed.

Lemma atext_not_at (c : ascii) : atext_byte c = true -> negb (Ascii.eqb c "@") = true.
Proof. bytes c. Qed.

Lemma lower_at (c : ascii) : Ascii.eqb (lower_byte c) "@" = Ascii.eqb c "@".
Proof. bytes c. Qed.

Lemma lower_plus (c : ascii) : Ascii.eqb (lower_byte c) "+" = Ascii.eqb c "+".
Proof. bytes c. Qed.

Lemma upper_atext (c : ascii) : atext_byte (upper_byte c) = atext_byte c.
Proof. bytes c. Qed.

Lemma upper_dot (c : ascii) : (code (upper_byte c) =? 46)%N = (code c =? 46)%N.
Proof. bytes c. Qed.

Lemma lower_dot (c : ascii) : lower_byte c = "."%char <-> c = "."%char.
Proof. bytes c. Qed.

Lemma visible_ascii (c : ascii) : visible c = true -> is_ascii_byte c = true.
Proof. bytes c. Qed.

Lemma visible_no_space_prefix (c : ascii) (r : string) :
  visible c = true -> space_prefix (String c r) = 0%nat.
Proof. bytes c. Qed.

Lemma visible_not_space (c : ascii) : visible c = true -> is_ascii_space c = false.
Proof. bytes c. Qed.

Lemma visible_not_194 (c : ascii) : visible c = true -> (code c =? 194)%N = false.
Proof. bytes c. Qed.

(** ** The parser on plain addresses *)

Lemma atom_span_atext (a rest : string) :
  str_forall atext_byte a = true -> stops rest = true ->
  atom_span true (a ++ rest) = Parsed a rest.
Proof.
  intros Ha Hrest. induction a as [|x a IH]; cbn [append].
  - destruct rest as [|c r]; [done|]. cbn in Hrest |- *.
    apply andb_true_iff in Hrest as [Hc Hn]. rewrite Hc. cbn.
    apply negb_true_iff in Hn. by rewrite Hn.
  - cbn in Ha. apply andb_true_iff in Ha as [Hx Ha].
    cbn [atom_span]. unfold atext_byte in Hx. apply andb_true_iff in Hx as [Hx1 Hx2].
    rewrite Hx1, Hx2. cbn [negb]. by rewrite IH.
Qed.

Lemma dot_atom_parts (s : string) :
  is_dot_atom s = true ->
  s <> "" /\ str_forall atext_byte s = true /\ peek_is s "." = false
  /\ has_double_dot s = false /\ has_trailing_dot s = false.
Proof.
  unfold is_dot_atom. rewrite !andb_true_iff, !negb_true_iff.
  intros ((((Hne & Ha) & Hp) & Hd) & Ht). repeat split; try done.
  by apply String.eqb_neq.
Qed.

Lemma consumeAtom_dot_atom (a rest : string) :
  is_dot_atom a = true -> stops rest = true ->
  consumeAtom true false (a ++ rest) = Parsed a rest.
Proof.
  intros (Hne & Ha & Hp & Hd & Ht)%dot_atom_parts Hrest.
  unfold consumeAtom. rewrite atom_span_atext by done.
  rewrite decide_False by done. by rewrite Hp, Hd, Ht.
Qed.

Lemma skipSpace_atext (a rest : string) :
  str_forall atext_byte a = true -> a <> "" -> skipSpace (a ++ rest) = (a ++ rest)%string.
Proof.
  destruct a as [|c a]; [done|]. cbn [str_forall append].
  intros [Hc _]%andb_true_iff _.
  unfold skipSpace. cbn [TrimLeft]. by rewrite atext_not_space.
Qed.

Lemma stops_at (r : string) : stops (String "@" r) = true.
Proof. reflexivity. Qed.

Lemma consumeAddrSpec_plain (l d rest : string) :
  is_dot_atom l = true -> is_dot_atom d = true -> stops rest = true ->
  consumeAddrSpec (l ++ String "@" (d ++ rest)) = Parsed (l ++ String "@" d) rest.
Proof.
  intros Hl Hd Hrest.
  pose proof (dot_atom_parts l Hl) as (Hlne & Hla & _).
  pose proof (dot_atom_parts d Hd) as (Hdne & Hda & _).
  unfold consumeAddrSpec. rewrite skipSpace_atext by done.
  rewrite decide_False by (by destruct l).
  assert (peek_is (l ++ String "@" (d ++ rest)) dquote = false) as ->.
  { destruct l as [|c l]; [done|]. cbn in Hla. apply andb_true_iff in Hla as [Hc _].
    by apply atext_not_dquote. }
  rewrite consumeAtom_dot_atom by done. cbn [consume].
  destruct (ascii_dec "@" "@"); [|done].
  rewrite skipSpace_atext by done.
  rewrite decide_False by (by destruct d).
  assert (peek_is (d ++ rest) "[" = false) as ->.
  { destruct d as [|c d]; [done|]. cbn in Hda. apply andb_true_iff in Hda as [Hc _].
    by apply atext_not_bracket. }
  by rewrite consumeAtom_dot_atom.
Qed.

Lemma parse_addr_spec (l d : string) :
  is_dot_atom l = true -> is_dot_atom d = true ->
  parseSingleAddress (l ++ String "@" d)
  = Parsed {| Name := ""; Addr := l ++ String "@" d |} "".
Proof.
  intros Hl Hd.
  pose proof (dot_atom_parts l Hl) as (Hlne & Hla & _).
  pose proof (consumeAddrSpec_plain l d "" Hl Hd eq_refl) as Hspec.
  rewrite append_nil_r in Hspec.
  unfold parseSingleAddress, parseAddress.
  rewrite skipSpace_atext by done.
  rewrite decide_False by (by destruct l).
  rewrite Hspec. reflexivity.
Qed.

Lemma parse_name_addr_prefix (tail : string) :
  parseAddress true (String "X" (String " " (String "<" tail)))
  = match consumeAddrSpec tail with
    | Parsed spec rest =>
        match consume ">" rest with
        | None => Failed
        | Some rest => Parsed {| Name := "X"; Addr := spec |} rest
        end
    | Failed => Failed
    | Beyond => Beyond
    end.
Proof. reflexivity. Qed.

Lemma parse_name_addr (l d : string) :
  is_dot_atom l = true -> is_dot_atom d = true ->
  parseSingleAddress (String "X" (String " " (String "<" (l ++ String "@" (d ++ ">")))))
  = Parsed {| Name := "X"; Addr := l ++ String "@" d |} "".
Proof.
  intros Hl Hd. unfold parseSingleAddress. rewrite parse_name_addr_prefix.
  rewrite (consumeAddrSpec_plain l d ">") by done. reflexivity.
Qed.

(** ** [NormalizeSender] after the parse *)

(** What [NormalizeSender] makes of the address it parsed. *)
Definition canonical_of (rt : GoRuntime) (address : string) : string :=
  let email := ToLower rt (TrimSpace address) in
  let at_ := LastIndexByte email "@" in
  if (at_ <=? 0)%Z then email else
  let local := take (Z.to_nat at_) email in
  let domain := drop (Z.to_nat (at_ + 1)) email in
  let plus := IndexByte local "+" in
  let local := if (plus >? -1)%Z then take (Z.to_nat plus) local else local in
  (local ++ "@" ++ domain)%string.

Lemma NormalizeSender_parsed rt (H : string) (a : Address) :
  H <> "" -> ParseAddress rt H = Some a -> NormalizeSender rt H = canonical_of rt (Addr a).
Proof.
  intros Hne Hp. unfold NormalizeSender. rewrite decide_False by done. by rewrite Hp.
Qed.

Lemma NormalizeSender_cases rt (H : string) :
  NormalizeSender rt H = "" \/ exists a, NormalizeSender rt H = canonical_of rt a.
Proof.
  unfold NormalizeSender. destruct (decide (H = "")); [by left|].
  destruct (ParseAddress rt H) as [a|]; [right; by exists (Addr a)|].
  destruct (first_parsed rt (Split H ",")) as [a|]; [right; by exists (Addr a)|by left].
Qed.

Lemma trim_space_left_id (fuel : nat) (s : string) :
  space_prefix s = 0%nat -> trim_space_left fuel s = s.
Proof. intros Hs. destruct fuel; cbn [trim_space_left]; [done|]. by rewrite Hs. Qed.

Lemma trim_space_right_id (fuel : nat) (r : string) :
  space_suffix_rev r = 0%nat -> trim_space_right_rev fuel r = r.
Proof. intros Hr. destruct fuel; cbn [trim_space_right_rev]; [done|]. by rewrite Hr. Qed.

Lemma visible_space_prefix (s : string) :
  str_forall visible s = true -> space_prefix s = 0%nat.
Proof.
  destruct s as [|c r]; [done|]. cbn [str_forall]. intros [Hc _]%andb_true_iff.
  by apply visible_no_space_prefix.
Qed.

Lemma visible_space_suffix (r : string) :
  str_forall visible r = true -> space_suffix_rev r = 0%nat.
Proof.
  destruct r as [|a t]; [done|]. cbn [str_forall]. intros [Ha Ht]%andb_true_iff.
  unfold space_suffix_rev. rewrite (visible_not_space a Ha).
  destruct t as [|b u]; [done|]. cbn [str_forall] in Ht.
  apply andb_true_iff in Ht as [Hb Hu]. rewrite (visible_not_194 b Hb). cbn [andb].
  destruct u as [|c v]; [done|]. cbn [str_forall] in Hu.
  apply andb_true_iff in Hu as [Hc _]. by rewrite visible_no_space_prefix.
Qed.

Lemma TrimSpace_visible (s : string) : str_forall visible s = true -> TrimSpace s = s.
Proof.
  intros Hs. unfold TrimSpace.
  rewrite trim_space_left_id by (by apply visible_space_prefix).
  rewrite trim_space_right_id by (apply visible_space_suffix; by rewrite str_forall_rev).
  apply rev_involutive.
Qed.

Lemma ToLower_ascii rt (s : string) :
  str_forall is_ascii_byte s = true -> ToLower rt s = str_map lower_byte s.
Proof. intros Hs. unfold ToLower. by rewrite Hs. Qed.

Lemma ToUpper_ascii rt (s : string) :
  str_forall is_ascii_byte s = true -> ToUpper rt s = str_map upper_byte s.
Proof. intros Hs. unfold ToUpper. by rewrite Hs. Qed.

Lemma ToLower_no_upper rt (s : string) : no_upper (ToLower rt s) = true.
Proof.
  unfold ToLower, no_upper. destruct (str_forall is_ascii_byte s).
  - apply str_map_lower_no_upper.
  - apply unicode_ToLower_lower.
Qed.

Lemma lower_no_upper (s : string) : no_upper s = true -> str_map lower_byte s = s.
Proof.
  intros Hs. apply str_map_id. eapply str_forall_impl; [|exact Hs].
  intros c Hc. apply negb_true_iff in Hc. rewrite lower_byte_fixed by done.
  apply Ascii.eqb_refl.
Qed.

Lemma lower_lacks (c : ascii) (s : string) :
  (forall x, Ascii.eqb (lower_byte x) c = Ascii.eqb x c) ->
  lacks c (str_map lower_byte s) = lacks c s.
Proof.
  intros Hc. unfold lacks. rewrite str_forall_map.
  induction s as [|x s IH]; cbn; [done|]. by rewrite Hc, IH.
Qed.

(** The first plus sign and what follows are cut. *)
Definition cut_plus (local : string) : string :=
  if (IndexByte local "+" >? -1)%Z then take (Z.to_nat (IndexByte local "+")) local
  else local.

Lemma canonical_of_plain rt (l d : string) :
  str_forall visible l = true -> str_forall visible d = true ->
  lacks "@" d = true -> l <> "" ->
  canonical_of rt (l ++ String "@" d)
  = (cut_plus (str_map lower_byte l) ++ String "@" (str_map lower_byte d))%string.
Proof.
  intros Hl Hd Hat Hne. unfold canonical_of.
  assert (str_forall visible (l ++ String "@" d) = true) as Hv.
  { rewrite str_forall_app. cbn [str_forall]. by rewrite Hl, Hd. }
  rewrite TrimSpace_visible by done.
  rewrite ToLower_ascii
    by (eapply str_forall_impl; [apply visible_ascii|exact Hv]).
  rewrite str_map_app. cbn [str_map].
  change (lower_byte "@") with "@"%char.
  rewrite LastIndexByte_app by (by rewrite lower_lacks by apply lower_at).
  rewrite str_map_length.
  destruct (Z.leb_spec (Z.of_nat (String.length l)) 0) as [Hz|Hz].
  { destruct l; [done|]. cbn in Hz. lia. }
  rewrite Nat2Z.id.
  replace (Z.to_nat (Z.of_nat (String.length l) + 1)) with (S (String.length l)) by lia.
  assert (forall (a b : string) c,
            drop (S (String.length a)) (a ++ String c b) = b) as Hdrop.
  { intros a b c. induction a as [|x a IH]; cbn; [done|exact IH]. }
  assert (take (String.length l)
            (str_map lower_byte l ++ String "@" (str_map lower_byte d))
          = str_map lower_byte l) as ->.
  { rewrite <- (str_map_length lower_byte l). apply take_app_length. }
  assert (drop (S (String.length l))
            (str_map lower_byte l ++ String "@" (str_map lower_byte d))
          = str_map lower_byte d) as ->.
  { rewrite <- (str_map_length lower_byte l). apply Hdrop. }
  reflexivity.
Qed.

Lemma split_at_last (c : ascii) (l1 d1 l2 d2 : string) :
  (l1 ++ String c d1 = l2 ++ String c d2)%string ->
  lacks c d1 = true -> lacks c d2 = true -> l1 = l2 /\ d1 = d2.
Proof.
  intros Heq H1 H2.
  assert (String.length l1 = String.length l2) as Hlen.
  { apply Nat2Z.inj. rewrite <- (LastIndexByte_app l1 d1 c H1), Heq.
    by apply LastIndexByte_app. }
  assert (l1 = l2) as ->.
  { rewrite <- (take_app_length l1 (String c d1)), Heq, Hlen. apply take_app_length. }
  split; [done|]. apply (inj (String.app l2)) in Heq. by injection Heq.
Qed.

Lemma IndexByte_neg_lacks (s : string) (c : ascii) :
  IndexByte s c = (-1)%Z -> lacks c s = true.
Proof.
  unfold lacks. induction s as [|a s IH]; cbn [IndexByte str_forall]; [done|].
  destruct (ascii_dec a c) as [|Hne]; [done|].
  pose proof (IndexByte_range s c).
  destruct (Z.ltb_spec (IndexByte s c) 0); [|lia].
  intros _. apply Ascii.eqb_neq in Hne. rewrite Hne. apply IH. lia.
Qed.

Lemma cut_plus_lacks (s : string) : lacks "+" (cut_plus s) = true.
Proof.
  unfold cut_plus. pose proof (IndexByte_range s "+").
  destruct (Z.gtb_spec (IndexByte s "+") (-1)).
  - apply IndexByte_take_lacks.
  - apply IndexByte_neg_lacks. lia.
Qed.

(** What [NormalizeSender] returns holds no upper-case ASCII letter, and
    its part before the last at sign holds no plus sign. *)
Lemma canonical_of_shape rt (a l d : string) :
  canonical_of rt a = (l ++ String "@" d)%string -> lacks "@" d = true ->
  no_upper (l ++ String "@" d) = true /\ lacks "+" l = true.
Proof.
  unfold canonical_of. intros Heq Hd.
  set (email := ToLower rt (TrimSpace a)) in *.
  pose proof (ToLower_no_upper rt (TrimSpace a)) as Hlow. fold email in Hlow.
  destruct (Z.leb_spec (LastIndexByte email "@") 0) as [Hz|Hz].
  - rewrite <- Heq. split; [done|].
    rewrite Heq, LastIndexByte_app in Hz by done.
    destruct l; [done|]. cbn in Hz. lia.
  - fold (cut_plus (take (Z.to_nat (LastIndexByte email "@")) email)) in Heq.
    apply split_at_last in Heq as [<- <-]; [|apply LastIndexByte_drop_lacks|done].
    split; [|apply cut_plus_lacks].
    unfold no_upper in *. rewrite str_forall_app. cbn [str_forall].
    rewrite str_forall_drop by done. rewrite andb_true_r.
    unfold cut_plus. destruct (_ >? _)%Z; repeat apply str_forall_take; done.
Qed.

Lemma dot_atom_visible (s : string) : is_dot_atom s = true -> str_forall visible s = true.
Proof.
  intros (_ & Ha & _)%dot_atom_parts. eapply str_forall_impl; [apply atext_visible|done].
Qed.

Lemma dot_atom_lacks_at (s : string) : is_dot_atom s = true -> lacks "@" s = true.
Proof.
  intros (_ & Ha & _)%dot_atom_parts. eapply str_forall_impl; [apply atext_not_at|done].
Qed.

(** A canonical plain address is a fixed point. *)
Lemma normalise_plain_fixed rt (l d : string) :
  is_dot_atom l = true -> is_dot_atom d = true ->
  no_upper (l ++ String "@" d) = true -> lacks "+" l = true ->
  NormalizeSender rt (l ++ String "@" d) = (l ++ String "@" d)%string.
Proof.
  intros Hl Hd Hup Hplus.
  pose proof (dot_atom_parts l Hl) as (Hlne & _).
  rewrite (NormalizeSender_parsed rt _ {| Name := ""; Addr := l ++ String "@" d |}).
  - cbn [Addr]. rewrite canonical_of_plain
      by auto using dot_atom_visible, dot_atom_lacks_at.
    unfold no_upper in Hup. rewrite str_forall_app in Hup. cbn [str_forall] in Hup.
    apply andb_true_iff in Hup as [Hul Hud]. apply andb_true_iff in Hud as [_ Hud].
    rewrite !lower_no_upper by done.
    unfold cut_plus. by rewrite IndexByte_lacks.
  - by destruct l.
  - unfold ParseAddress. by rewrite parse_addr_spec.
Qed.

(** ** Idempotence *)

(** C7, as stated, fails: the header "+a@x.com" normalises to "@x.com",
    which is not empty and normalises to the empty string; so does a
    quoted local part with a space, whose quotes the parser removes. *)
Lemma normalise_not_idempotent_counterexample :
  (forall rt, NormalizeSender rt "+a@x.com" = "@x.com")
  /\ (forall rt, NormalizeSender rt "@x.com" = "")
  /\ (forall rt, NormalizeSender rt (String dquote ("a b" ++ String dquote "@x.com"))
                 = "a b@x.com")
  /\ (forall rt, NormalizeSender rt "a b@x.com" = "").
Proof. repeat split; intros rt; reflexivity. Qed.

(** C7 (amended): for every header H such that NormalizeSender(H) is a
    plain address, a non-empty ASCII dot-atom, an at sign and an ASCII
    dot-atom, NormalizeSender(NormalizeSender(H)) = NormalizeSender(H). *)
Theorem normalise_idempotent_plain (rt : GoRuntime) (H l d : string) :
  NormalizeSender rt H = (l ++ "@" ++ d)%string ->
  is_dot_atom l = true -> is_dot_atom d = true ->
  NormalizeSender rt (NormalizeSender rt H) = NormalizeSender rt H.
Proof.
  intros HE Hl Hd. change (l ++ "@" ++ d)%string with (l ++ String "@" d)%string in HE.
  destruct (NormalizeSender_cases rt H) as [Hempty|[a Ha]].
  { rewrite Hempty in HE. by destruct l. }
  rewrite HE. rewrite HE in Ha. symmetry in Ha.
  apply canonical_of_shape in Ha as [Hup Hplus]; [|by apply dot_atom_lacks_at].
  by apply normalise_plain_fixed.
Qed.

Lemma normalise_idempotent_plain_witness :
  NormalizeSender ascii_runtime
    (NormalizeSender ascii_runtime "Alice <user+ads@Example.com>")
  = NormalizeSender ascii_runtime "Alice <user+ads@Example.com>".
Proof.
  apply (normalise_idempotent_plain ascii_runtime "Alice <user+ads@Example.com>"
           "user" "example.com"); reflexivity.
Defined.

(** ** Case and plus suffix *)

Lemma get_str_map (f : ascii -> ascii) (s : string) (i : nat) :
  String.get i (str_map f s) = option_map f (String.get i s).
Proof.
  revert i. induction s as [|c s IH]; intros [|i]; cbn; done.
Qed.

Lemma has_double_dot_cons (a b : ascii) (r : string) :
  has_double_dot (String a (String b r))
  = if ((code a =? 46) && (code b =? 46))%N then true else has_double_dot (String b r).
Proof. reflexivity. Qed.

Lemma rev_app_str_map (f : ascii -> ascii) (s t : string) :
  String.rev_app (str_map f s) (str_map f t) = str_map f (String.rev_app s t).
Proof.
  revert t. induction s as [|c s IH]; intros t; [done|].
  cbn [str_map String.rev_app]. apply (IH (String c t)).
Qed.

Lemma upper_dot_atom (s : string) :
  is_dot_atom s = true -> is_dot_atom (str_map upper_byte s) = true.
Proof.
  intros (Hne & Ha & Hp & Hd & Ht)%dot_atom_parts. unfold is_dot_atom.
  assert (String.eqb (str_map upper_byte s) "" = false) as ->.
  { destruct s; [done|]. reflexivity. }
  assert (str_forall atext_byte (str_map upper_byte s) = true) as ->.
  { rewrite str_forall_map. eapply str_forall_impl; [|exact Ha].
    intros c Hc. by rewrite upper_atext. }
  assert (forall s, peek_is (str_map upper_byte s) "." = peek_is s ".") as Hpeek.
  { intros [|c r]; [done|]. cbn [str_map]. bytes c. }
  rewrite Hpeek, Hp.
  assert (has_double_dot (str_map upper_byte s) = has_double_dot s) as ->.
  { clear. induction s as [|a s IH]; [done|]. destruct s as [|b r]; [done|].
    cbn [str_map] in *.
    rewrite !has_double_dot_cons, !upper_dot. by rewrite IH. }
  rewrite Hd. unfold has_trailing_dot in *.
  assert (String.rev (str_map upper_byte s) = str_map upper_byte (String.rev s)) as ->.
  { apply (rev_app_str_map upper_byte s ""). }
  by rewrite Hpeek, Ht.
Qed.

(** C6, as stated, fails: with the local part "a+b" the normaliser cuts at
    the first plus sign and returns "a@x.com", not "a+b@x.com". *)
Lemma normalise_plus_in_local_counterexample :
  (forall rt,
     NormalizeSender rt ("X <" ++ "a+b" ++ "+" ++ "c" ++ "@" ++ ToUpper rt "x.com" ++ ">")
     = "a@x.com")
  /\ (forall rt, (ToLower rt "a+b" ++ "@" ++ ToLower rt "x.com")%string = "a+b@x.com").
Proof. split; intros rt; reflexivity. Qed.

(** C6 (amended): for every local part L without a plus sign, suffix S and
    domain D, in ASCII, such that L + "+" + S and D are dot-atoms,
    normalising "X <" + L + "+" + S + "@" + uppercase(D) + ">" yields
    lowercase(L) + "@" + lowercase(D); the dots of L stand where they
    stood. *)
Theorem normalise_case_plus (rt : GoRuntime) (L S D : string) :
  lacks "+" L = true ->
  is_dot_atom (L ++ "+" ++ S) = true ->
  is_dot_atom D = true ->
  NormalizeSender rt ("X <" ++ L ++ "+" ++ S ++ "@" ++ ToUpper rt D ++ ">")
  = (ToLower rt L ++ "@" ++ ToLower rt D)%string
  /\ forall i, (i < String.length L)%nat ->
       (String.get i (ToLower rt L ++ "@" ++ ToLower rt D) = Some "."%char
        <-> String.get i L = Some "."%char).
Proof.
  intros Hplus Hlocal HD.
  pose proof (dot_atom_parts _ Hlocal) as (_ & Hla & _).
  pose proof (dot_atom_parts _ HD) as (_ & HDa & _).
  assert (str_forall is_ascii_byte L = true) as HLascii.
  { rewrite str_forall_app in Hla. apply andb_true_iff in Hla as [Hla _].
    eapply str_forall_impl; [apply atext_ascii|done]. }
  assert (str_forall is_ascii_byte D = true) as HDascii
    by (eapply str_forall_impl; [apply atext_ascii|done]).
  rewrite ToUpper_ascii, !ToLower_ascii by done.
  split.
  - set (local := (L ++ "+" ++ S)%string) in *.
    set (UD := str_map upper_byte D).
    assert (("X <" ++ L ++ "+" ++ S ++ "@" ++ UD ++ ">")%string
            = String "X" (String " " (String "<" (local ++ String "@" (UD ++ ">")))))
      as ->.
    { unfold local. cbn [append]. by rewrite !append_assoc. }
    pose proof (upper_dot_atom D HD) as HUD. fold UD in HUD.
    rewrite (NormalizeSender_parsed rt _ {| Name := "X"; Addr := local ++ String "@" UD |});
      [|done|unfold ParseAddress; by rewrite parse_name_addr].
    cbn [Addr].
    rewrite canonical_of_plain;
      [|by apply dot_atom_visible|by apply dot_atom_visible
       |by apply dot_atom_lacks_at|unfold local; by destruct L].
    unfold local, UD. rewrite str_map_app. cbn [append str_map].
    change (lower_byte "+") with "+"%char.
    unfold cut_plus.
    rewrite IndexByte_app by (by rewrite lower_lacks by apply lower_plus).
    rewrite str_map_length.
    destruct (Z.gtb_spec (Z.of_nat (String.length L)) (-1)); [|lia].
    rewrite Nat2Z.id. rewrite <- (str_map_length lower_byte L) at 1.
    rewrite take_app_length. f_equal. f_equal.
    clear. induction D as [|c D IH]; cbn; [done|]. by rewrite lower_upper_byte, IH.
  - intros i Hi.
    rewrite <- append_correct1 by (by rewrite str_map_length).
    rewrite get_str_map. destruct (String.get i L) as [c|]; cbn; [|done].
    split; intros [= Hc]; f_equal; by apply lower_dot.
Qed.

Lemma normalise_case_plus_witness :
  NormalizeSender ascii_runtime
    ("X <" ++ "user.name" ++ "+" ++ "ads" ++ "@" ++ ToUpper ascii_runtime "example.com" ++ ">")
  = (ToLower ascii_runtime "user.name" ++ "@" ++ ToLower ascii_runtime "example.com")%string.
Proof.
  apply (normalise_case_plus ascii_runtime "user.name" "ads" "example.com"); reflexivity.
Defined.

End normalise_spec.

(* ===================================================================== *)
(** * The SQLite store: what is written can be read back                  *)
(* ===================================================================== *)

Module store_spec.
Import store.
Open Scope list_scope.

(** The rows of the table are keyed by their own id, the primary key. *)
Definition keyed (rows : gmap string MessageRef.t) : Prop :=
  forall k m, rows !! k = Some m -> MessageRef.ID m = k.

(** The last record of a batch that carries the id. *)
Definition last_with (id : string) (msgs : list MessageRef.t) : option MessageRef.t :=
  last (filter (fun m => MessageRef.ID m = id) msgs).

Lemma upsert_rows_lookup (msgs : list MessageRef.t) (rows : gmap string MessageRef.t)
    (id : string) :
  upsert_rows rows msgs !! id
  = match last_with id msgs with
    | Some m => Some m
    | None => rows !! id
    end.
Proof.
  unfold upsert_rows, last_with.
  induction msgs as [|m msgs IH] using rev_ind; [done|].
  rewrite fold_left_app, filter_app, filter_cons, filter_nil. cbn [fold_left].
  destruct (decide (MessageRef.ID m = id)) as [<-|Hne].
  - by rewrite lookup_insert_eq, last_snoc.
  - by rewrite lookup_insert_ne, app_nil_r.
Qed.

Lemma delete_rows_lookup (ids : list string) (rows : gmap string MessageRef.t)
    (id : string) :
  delete_rows rows ids !! id = if decide (id ∈ ids) then None else rows !! id.
Proof.
  unfold delete_rows. revert rows.
  induction ids as [|i ids IH]; intros rows; cbn [fold_left].
  - rewrite decide_False; [done|]. apply not_elem_of_nil.
  - rewrite IH. destruct (decide (id ∈ ids)) as [Hin|Hin].
    + rewrite decide_True; [done|]. by right.
    + destruct (decide (i = id)) as [->|Hne].
      * rewrite lookup_delete_eq, decide_True; [done|]. left.
      * rewrite lookup_delete_ne by done. rewrite decide_False; [done|].
        intros [?|?]%elem_of_cons; congruence.
Qed.

Lemma keyed_upsert (rows : gmap string MessageRef.t) (msgs : list MessageRef.t) :
  keyed rows -> keyed (upsert_rows rows msgs).
Proof.
  intros Hk k m. rewrite upsert_rows_lookup. unfold last_with.
  destruct (last _) as [m'|] eqn:Hl; [|apply Hk].
  intros [= ->]. apply last_Some_elem_of in Hl.
  by apply list_elem_of_filter in Hl as [? _].
Qed.

Lemma keyed_delete (rows : gmap string MessageRef.t) (ids : list string) :
  keyed rows -> keyed (delete_rows rows ids).
Proof.
  intros Hk k m. rewrite delete_rows_lookup. case_decide; [done|apply Hk].
Qed.

Lemma keyed_NoDup (rows : gmap string MessageRef.t) :
  keyed rows -> NoDup (map MessageRef.ID (map snd (map_to_list rows))).
Proof.
  intros Hk.
  assert (map MessageRef.ID (map snd (map_to_list rows)) = map fst (map_to_list rows)) as ->.
  { rewrite map_map. apply map_ext_in. intros [k m] Hin. cbn.
    apply Hk. apply elem_of_map_to_list. by apply list_elem_of_In. }
  apply NoDup_fst_map_to_list.
Qed.

Lemma keyed_elem_of (rows : gmap string MessageRef.t) (m : MessageRef.t) :
  keyed rows -> m ∈ map snd (map_to_list rows) <-> rows !! MessageRef.ID m = Some m.
Proof.
  intros Hk. rewrite list_elem_of_fmap. split.
  - intros ([k m'] & -> & Hin). apply elem_of_map_to_list in Hin. cbn.
    by rewrite (Hk _ _ Hin).
  - intros Hm. exists (MessageRef.ID m, m). split; [done|]. by apply elem_of_map_to_list.
Qed.

Lemma db_call_ok (s s' : SQLiteStore) :
  db_call s = (s', None) -> messages s' = messages s /\ metadata s' = metadata s.
Proof.
  unfold db_call. destruct (faults s) as [|f fs]; intros ?; by simplify_eq.
Qed.

Lemma upsert_succeeded (s s' : SQLiteStore) (msgs : list MessageRef.t) :
  SQLite_UpsertMessages s msgs = (s', None) ->
  messages s' = upsert_rows (messages s) msgs /\ metadata s' = metadata s.
Proof.
  unfold SQLite_UpsertMessages.
  destruct (db_call s) as [s0 [e|]] eqn:H0; [done|]. intros [= <-].
  by apply db_call_ok in H0 as [-> ->].
Qed.

Lemma delete_succeeded (s s' : SQLiteStore) (ids : list string) :
  SQLite_DeleteMessages s ids = (s', None) ->
  messages s' = delete_rows (messages s) ids /\ metadata s' = metadata s.
Proof.
  unfold SQLite_DeleteMessages.
  destruct (decide (ids = [])) as [->|Hne]; [by intros [= <-]|].
  destruct (db_call s) as [s0 [e|]] eqn:H0; [done|]. intros [= <-].
  by apply db_call_ok in H0 as [-> ->].
Qed.

(** The empty database [NewSQLiteStore] creates, answering every call. *)
Definition fresh : SQLiteStore := {| messages := ∅; metadata := ∅; faults := [] |}.

Definition hello : MessageRef.t := MessageRef.mk "1" "hello" "2024-01-01T00:00:00Z" "a@b.com" "" "".
Definition updated : MessageRef.t := MessageRef.mk "1" "updated" "2024-01-01T00:00:00Z" "a@b.com" "" "".
Definition world : MessageRef.t :=
  MessageRef.mk "2" "world" "2024-01-02T00:00:00Z" "c@d.com" "<https://unsub.example.com>" "".

(** X1: the cursor round trip of the store.  Once [SetLastHistoryID] has
    succeeded, a [GetLastHistoryID] that succeeds returns the value set,
    whatever was stored before, and the message table is as it was; on a
    database without the cursor row [GetLastHistoryID] returns the empty
    string and no error. *)
Theorem history_id_round_trip (s s1 s2 : SQLiteStore) (h v : string) :
  SQLite_SetLastHistoryID s h = (s1, None) ->
  SQLite_GetLastHistoryID s1 = (s2, (v, None)) ->
  v = h /\ messages s2 = messages s
  /\ (forall rows fs,
        (SQLite_GetLastHistoryID {| messages := rows; metadata := ∅; faults := None :: fs |}).2
        = ("", None)).
Proof.
  unfold SQLite_SetLastHistoryID, SQLite_GetLastHistoryID.
  destruct (db_call s) as [s0 [e|]] eqn:H0; [done|]. intros Hset Hget.
  injection Hset as <-.
  destruct (db_call _) as [s3 [e|]] eqn:H1 in Hget; [done|].
  injection Hget as <- <-.
  apply db_call_ok in H0 as [Hm0 Hd0]. apply db_call_ok in H1 as [Hm1 Hd1].
  cbn in Hm1, Hd1. rewrite Hd1, Hm1, Hm0, lookup_insert_eq. done.
Qed.

Lemma history_id_round_trip_witness :
  "99999" = "99999"
  /\ messages {| messages := ∅; metadata := {["last_history_id" := "99999"]}; faults := [] |}
     = messages {| messages := ∅; metadata := {["last_history_id" := "12345"]}; faults := [] |}.
Proof.
  refine (let H := history_id_round_trip
    {| messages := ∅; metadata := {["last_history_id" := "12345"]}; faults := [] |}
    {| messages := ∅; metadata := {["last_history_id" := "99999"]}; faults := [] |}
    {| messages := ∅; metadata := {["last_history_id" := "99999"]}; faults := [] |}
    "99999" "99999" _ _ in conj (proj1 H) (proj1 (proj2 H))).
  - vm_compute. reflexivity.
  - vm_compute. reflexivity.
Defined.

(** X2: what [UpsertMessages] leaves in the table when it succeeds.  The
    row of an id is the last record of the batch that carries this id, and
    the row it was before when the batch has none; the cursor row is not
    touched, and the rows stay keyed by their id. *)
Theorem upsert_last_wins (s s' : SQLiteStore) (msgs : list MessageRef.t) (id : string) :
  SQLite_UpsertMessages s msgs = (s', None) ->
  messages s' !! id
  = match last_with id msgs with
    | Some m => Some m
    | None => messages s !! id
    end
  /\ metadata s' = metadata s
  /\ (keyed (messages s) -> keyed (messages s')).
Proof.
  intros [-> ->]%upsert_succeeded.
  split; [apply upsert_rows_lookup|]. split; [done|apply keyed_upsert].
Qed.

Lemma upsert_last_wins_witness :
  messages {| messages := {["1" := updated; "2" := world]}; metadata := ∅; faults := [] |} !! "1"
  = match last_with "1" [hello; updated] with
    | Some m => Some m
    | None => messages {| messages := {["2" := world]}; metadata := ∅; faults := [] |} !! "1"
    end.
Proof.
  refine (proj1 (upsert_last_wins
    {| messages := {["2" := world]}; metadata := ∅; faults := [] |}
    {| messages := {["1" := updated; "2" := world]}; metadata := ∅; faults := [] |}
    [hello; updated] "1" _)).
  vm_compute. reflexivity.
Defined.

Lemma keyed_empty : keyed ∅.
Proof. intros k m. by rewrite lookup_empty. Qed.

(** The table after [hello] and [world] have been stored. *)
Definition two_rows : SQLiteStore :=
  {| messages := upsert_rows ∅ [hello; world]; metadata := ∅; faults := [] |}.

(** X3: what [DeleteMessages] leaves in the table when it succeeds: the
    rows of the ids given are gone, whether or not they were there, every
    other row and the cursor row are as before.  With no id to delete the
    database is not called at all: the answer is nil even when the
    database would fail. *)
Theorem delete_removes (s s' : SQLiteStore) (ids : list string) (id : string) :
  SQLite_DeleteMessages s ids = (s', None) ->
  messages s' !! id = (if decide (id ∈ ids) then None else messages s !! id)
  /\ metadata s' = metadata s
  /\ (forall s0, SQLite_DeleteMessages s0 [] = (s0, None)).
Proof.
  intros [-> ->]%delete_succeeded.
  split; [apply delete_rows_lookup|done].
Qed.

Lemma delete_removes_witness :
  messages {| messages := delete_rows (messages two_rows) ["1"; "7"];
              metadata := ∅; faults := [] |} !! "1"
  = (if decide ("1" ∈ ["1"; "7"]) then None else messages two_rows !! "1").
Proof.
  refine (proj1 (delete_removes two_rows
    {| messages := delete_rows (messages two_rows) ["1"; "7"]; metadata := ∅; faults := [] |}
    ["1"; "7"] "1" _)).
  reflexivity.
Defined.

Lemma get_by_ids_rows (s s' : SQLiteStore) (ids : list string)
    (rows : list MessageRef.t) :
  keyed (messages s) ->
  SQLite_GetMessagesByIDs s ids = (s', (rows, None)) ->
  NoDup (map MessageRef.ID rows)
  /\ (forall m, m ∈ rows <-> MessageRef.ID m ∈ ids /\ messages s !! MessageRef.ID m = Some m)
  /\ messages s' = messages s.
Proof.
  unfold SQLite_GetMessagesByIDs. intros Hk Hget.
  destruct (decide (ids = [])) as [->|Hne].
  - injection Hget as <- <-. split; [constructor|]. split; [|done].
    intros m. split; [by intros ?%elem_of_nil|]. by intros [?%elem_of_nil _].
  - destruct (db_call s) as [s0 [e|]] eqn:H0; [done|]. injection Hget as <- <-.
    apply db_call_ok in H0 as [Hm _]. rewrite Hm.
    assert (keyed (filter (fun kv : string * MessageRef.t => kv.1 ∈ ids) (messages s))) as Hkf.
    { intros k m [Hkm _]%map_lookup_filter_Some. by apply Hk. }
    split; [by apply keyed_NoDup|]. split; [|done].
    intros m. rewrite (keyed_elem_of _ _ Hkf), map_lookup_filter_Some. cbn. tauto.
Qed.

(** X4: [GetMessagesByIDs], when it succeeds, returns the stored rows whose
    id is among the ids asked for, each of them once, however often an id
    is repeated in the request; an id that is not stored adds nothing.  The
    table is not changed. *)
Theorem get_by_ids_exact (s s' : SQLiteStore) (ids : list string)
    (rows : list MessageRef.t) :
  keyed (messages s) ->
  SQLite_GetMessagesByIDs s ids = (s', (rows, None)) ->
  NoDup (map MessageRef.ID rows)
  /\ (forall m, m ∈ rows <-> MessageRef.ID m ∈ ids /\ messages s !! MessageRef.ID m = Some m)
  /\ messages s' = messages s.
Proof. apply get_by_ids_rows. Qed.

Lemma get_by_ids_exact_witness :
  NoDup (map MessageRef.ID [hello]) /\ messages two_rows = messages two_rows.
Proof.
  refine (let H := get_by_ids_exact two_rows two_rows ["1"; "1"; "9"] [hello] _ _ in
          conj (proj1 H) (proj2 (proj2 H))).
  - apply keyed_upsert, keyed_empty.
  - vm_compute. reflexivity.
Defined.

(** X5: [CountMessages] and [LoadAllMessages] agree: when both succeed on
    the same table, the count is the number of rows loaded, no two rows
    loaded carry the same id, and the rows loaded are the rows stored. *)
Theorem count_is_rows_loaded (s s1 s2 : SQLiteStore) (rows : list MessageRef.t) (n : Z) :
  keyed (messages s) ->
  SQLite_LoadAllMessages s = (s1, (rows, None)) ->
  SQLite_CountMessages s1 = (s2, (n, None)) ->
  n = Z.of_nat (length rows)
  /\ NoDup (map MessageRef.ID rows)
  /\ (forall m, m ∈ rows <-> messages s !! MessageRef.ID m = Some m).
Proof.
  unfold SQLite_LoadAllMessages, SQLite_CountMessages. intros Hk Hload Hcount.
  destruct (db_call s) as [s0 [e|]] eqn:H0; [done|]. injection Hload as <- <-.
  destruct (db_call s0) as [s3 [e|]] eqn:H1; [done|]. injection Hcount as <- <-.
  apply db_call_ok in H0 as [Hm0 _]. apply db_call_ok in H1 as [Hm1 _].
  rewrite Hm1, Hm0. split; [|split].
  - by rewrite length_map, length_map_to_list.
  - by apply keyed_NoDup.
  - intros m. by apply keyed_elem_of.
Qed.

Lemma count_is_rows_loaded_witness :
  2%Z = Z.of_nat (length (map snd (map_to_list (messages two_rows)))).
Proof.
  refine (proj1 (count_is_rows_loaded two_rows two_rows two_rows
    (map snd (map_to_list (messages two_rows))) 2 _ _ _)).
  - apply keyed_upsert, keyed_empty.
  - reflexivity.
  - vm_compute. reflexivity.
Defined.

End store_spec.

(* ===================================================================== *)
(** * Full scan: the batches written                                      *)
(* ===================================================================== *)

Module scan_spec.
Import gmailv1.
Import gmail_sync.
Import store.
Import batch_spec.
Import fullscan_spec.
Open Scope list_scope.

(** The batches of the upserts among the calls recorded, in order. *)
Definition upserted (cs : list call) : list (list MessageRef.t) :=
  omap (fun c => match c with CallUpsert msgs _ => Some msgs | _ => None end) cs.

Lemma upserted_app (cs cs' : list call) : upserted (cs ++ cs') = upserted cs ++ upserted cs'.
Proof. apply omap_app. Qed.

Lemma upserted_upsert (msgs : list MessageRef.t) (e : option error) :
  upserted [CallUpsert msgs e] = [msgs].
Proof. reflexivity. Qed.

Section Batches.
Context {St : Type} `{MessageStore St}.

(** What the collecting loop keeps true: the batches written and the
    buffer hold, in order, the records received so far; the buffer is
    short of a batch and every batch written is full. *)
Definition batches_ok (rs : list result) (c : collector (Recording St)) : Prop :=
  concat (upserted (calls (c_store c))) ++ c_buf c = map ref (filter usable rs)
  /\ length (c_buf c) < batch
  /\ Forall (fun b => length b = batch) (upserted (calls (c_store c)))
  /\ Forall is_upsert (calls (c_store c)).

Lemma collect_batches (rs : list result) (c : collector (Recording St)) (r : result) :
  batches_ok rs c -> batches_ok (rs ++ [r]) (collect c r).
Proof.
  intros (Hcat & Hlen & Hfull & Hups). unfold batches_ok, collect.
  rewrite filter_app, filter_cons, filter_nil.
  destruct (decide (usable r)) as [[He Hf]|Hu].
  - rewrite He, decide_False by done. rewrite map_app. cbn [map app].
    destruct (decide (batch <= length (c_buf c ++ [ref r]))) as [Hb|Hb].
    + cbn [UpsertMessages Recording_MessageStore].
      destruct (UpsertMessages (inner (c_store c)) (c_buf c ++ [ref r])) as [s e].
      cbn [c_store c_buf calls record_call].
      rewrite upserted_app, upserted_upsert, concat_app. cbn [concat].
      rewrite !app_nil_r, <- Hcat, <- app_assoc.
      split; [done|]. split; [cbn; unfold batch; lia|].
      split; [|apply Forall_app; split; [done|by repeat constructor]].
      apply Forall_app. split; [done|]. repeat constructor.
      rewrite length_app in *. cbn in *. lia.
    + cbn [c_store c_buf]. rewrite <- Hcat, <- app_assoc.
      split; [done|]. split; [lia|done].
  - rewrite app_nil_r.
    destruct (err r) as [e|] eqn:He; [done|].
    destruct (decide (MessageRef.From (ref r) = "")) as [Hf|Hf]; [done|].
    by destruct Hu.
Qed.

Lemma collect_all_batches (rs : list result) (st : St) :
  batches_ok rs
    (fold_left collect rs
       {| c_store := {| inner := st; calls := [] |}; c_collectErr := None;
          c_buf := []; c_done := 0 |}).
Proof.
  induction rs as [|r rs IH] using rev_ind.
  - cbn. unfold batches_ok. cbn. unfold batch. repeat split; (lia || constructor).
  - rewrite fold_left_app. cbn [fold_left]. by apply collect_batches.
Qed.

(** The calls [FullScan] makes once the cursor has been read: the
    upserts, then at most one [SetLastHistoryID]; the batches are full
    but for a last one. *)
Lemma FullScan_calls (rt : GoRuntime) (run : Run) (svc : Service) (st : St) (hid : N) :
  Users_GetProfile svc = inr hid ->
  exists st' e ups full rest,
    FullScan rt run svc (Some {| inner := st; calls := [] |}) = (Some st', e)
    /\ Forall is_upsert ups
    /\ (calls st' = ups \/ exists res, calls st' = ups ++ [CallSetLastHistoryID (Sprintf_d hid) res])
    /\ upserted ups = full ++ rest
    /\ concat (upserted ups) = map ref (filter usable (scan_results rt run svc))
    /\ Forall (fun b => length b = batch) full
    /\ (rest = [] \/ exists b, rest = [b] /\ 0 < length b < batch).
Proof.
  intros Hprofile. unfold FullScan, currentHistoryID. rewrite Hprofile.
  destruct (collect_all_batches (scan_results rt run svc) st) as (Hcat & Hlen & Hfull & Hups).
  set (c := fold_left collect (scan_results rt run svc) _) in *.
  assert (exists st1 e1 ups rest,
            (if decide (0 < length (c_buf c))
             then let '(s, e) := UpsertMessages (c_store c) (c_buf c) in
                  (s, first_error (c_collectErr c) e)
             else (c_store c, c_collectErr c)) = (st1, e1)
            /\ calls st1 = ups /\ Forall is_upsert ups
            /\ upserted ups = upserted (calls (c_store c)) ++ rest
            /\ concat (upserted ups) = map ref (filter usable (scan_results rt run svc))
            /\ (rest = [] \/ exists b, rest = [b] /\ 0 < length b < batch))
    as (st1 & e1 & ups & rest & -> & Hcalls & Hups1 & Hsplit & Hcat1 & Hrest).
  { destruct (decide (0 < length (c_buf c))) as [Hpos|Hpos].
    - cbn [UpsertMessages Recording_MessageStore].
      destruct (UpsertMessages (inner (c_store c)) (c_buf c)) as [s e].
      eexists _, _, _, [c_buf c]. split; [reflexivity|]. cbn [calls record_call].
      split; [reflexivity|]. split; [apply Forall_app; split; [done|by repeat constructor]|].
      rewrite upserted_app, upserted_upsert, concat_app. cbn [concat].
      rewrite app_nil_r. split; [done|]. split; [done|]. right. by eexists.
    - eexists _, _, _, []. split; [reflexivity|]. split; [reflexivity|]. split; [done|].
      rewrite app_nil_r. split; [done|]. split; [|by left].
      destruct (c_buf c); [|cbn in Hpos; lia]. rewrite app_nil_r in Hcat. done. }
  destruct (c_done c >? 0)%Z.
  - cbn [SetLastHistoryID Recording_MessageStore].
    destruct (SetLastHistoryID (inner st1) (Sprintf_d hid)) as [s e2].
    eexists _, _, ups, _, rest. split; [reflexivity|]. split; [done|]. split; [|done].
    right. exists e2. cbn. by rewrite Hcalls.
  - eexists _, _, ups, _, rest. split; [reflexivity|]. split; [done|]. split; [by left|done].
Qed.

End Batches.

Lemma upserted_cursor (h : string) (res : option error) :
  upserted [CallSetLastHistoryID h res] = [].
Proof. reflexivity. Qed.

(** ** The cursor as a decimal number *)

(** The value of a decimal number read from the left, as [digits_value]
    reads its digits. *)
Fixpoint uint_value (acc : N) (d : Decimal.uint) : N :=
  match d with
  | Decimal.Nil => acc
  | Decimal.D0 d => uint_value (acc * 10) d
  | Decimal.D1 d => uint_value (acc * 10 + 1) d
  | Decimal.D2 d => uint_value (acc * 10 + 2) d
  | Decimal.D3 d => uint_value (acc * 10 + 3) d
  | Decimal.D4 d => uint_value (acc * 10 + 4) d
  | Decimal.D5 d => uint_value (acc * 10 + 5) d
  | Decimal.D6 d => uint_value (acc * 10 + 6) d
  | Decimal.D7 d => uint_value (acc * 10 + 7) d
  | Decimal.D8 d => uint_value (acc * 10 + 8) d
  | Decimal.D9 d => uint_value (acc * 10 + 9) d
  end.

Lemma digits_value_uint (d : Decimal.uint) (acc : N) :
  digits_value acc (NilEmpty.string_of_uint d) = uint_value acc d.
Proof.
  revert acc. induction d; intros acc; cbn [NilEmpty.string_of_uint digits_value uint_value];
    [done|rewrite IHd; f_equal; cbn; lia..].
Qed.

Lemma digits_of_uint (d : Decimal.uint) :
  GoBytes.str_forall is_digit (NilEmpty.string_of_uint d) = true.
Proof. induction d; cbn; done. Qed.

Lemma of_uint_acc_value (d : Decimal.uint) (acc : positive) :
  N.pos (Pos.of_uint_acc d acc) = uint_value (N.pos acc) d.
Proof.
  revert acc. induction d; intros acc; cbn [Pos.of_uint_acc uint_value];
    [done|rewrite IHd; f_equal; lia..].
Qed.

Lemma of_uint_value (d : Decimal.uint) : N.of_uint d = uint_value 0 d.
Proof.
  unfold N.of_uint. induction d; cbn [Pos.of_uint uint_value]; [done|exact IHd|..];
    apply of_uint_acc_value.
Qed.

Lemma Sprintf_d_digits (n : N) :
  GoBytes.str_forall is_digit (Sprintf_d n) = true /\ digits_value 0 (Sprintf_d n) = n.
Proof.
  unfold Sprintf_d.
  assert (digits_value 0 (NilZero.string_of_uint (N.to_uint n)) = uint_value 0 (N.to_uint n)
          /\ GoBytes.str_forall is_digit (NilZero.string_of_uint (N.to_uint n)) = true) as [Hv Hd].
  { unfold NilZero.string_of_uint. destruct (N.to_uint n) eqn:E; [done|..];
      rewrite <- E; (split; [apply digits_value_uint|apply digits_of_uint]). }
  split; [done|]. rewrite Hv, <- of_uint_value. apply DecimalN.Unsigned.of_to.
Qed.

Lemma ParseUint_Sprintf_d (n : N) : (n < 2 ^ 64)%N -> ParseUint (Sprintf_d n) = Some n.
Proof.
  intros Hn. destruct (Sprintf_d_digits n) as [Hd Hv]. unfold ParseUint.
  rewrite decide_False by apply cursor_spec.Sprintf_d_nonempty.
  rewrite Hd, Hv. cbn [negb]. by apply N.ltb_lt in Hn as ->.
Qed.

Lemma digit_visible (c : ascii) : is_digit c = true -> normalise_spec.visible c = true.
Proof. destruct c as [[] [] [] [] [] [] [] []]; vm_compute; done. Qed.

Lemma TrimSpace_Sprintf_d (n : N) : GoStrings.TrimSpace (Sprintf_d n) = Sprintf_d n.
Proof.
  apply normalise_spec.TrimSpace_visible.
  eapply string_facts.str_forall_impl; [|apply Sprintf_d_digits].
  apply digit_visible.
Qed.

(** X6: [FullScan] writes what it receives in batches.  When the cursor
    cannot be read the store is not called and the error is wrapped;
    otherwise the upserts, put end to end, are the records received
    without error and with a non-empty sender, in the order received, each
    once; every batch holds 500 records but for a last one, which holds at
    least one. *)
Theorem FullScan_writes_batches {St} `{MessageStore St} (rt : GoRuntime) (run : Run)
    (svc : Service) (st : St) :
  exists st' e,
    FullScan rt run svc (Some {| inner := st; calls := [] |}) = (Some st', e)
    /\ match Users_GetProfile svc with
       | inl e0 => calls st' = [] /\ e = Some (Wrap "get current historyId" e0)
       | inr _ =>
           concat (upserted (calls st')) = map ref (filter usable (scan_results rt run svc))
           /\ exists full rest,
                upserted (calls st') = full ++ rest
                /\ Forall (fun b => length b = batch) full
                /\ (rest = [] \/ exists b, rest = [b] /\ 0 < length b < batch)
       end.
Proof.
  destruct (Users_GetProfile svc) as [e0|hid] eqn:Hprofile.
  - unfold FullScan, currentHistoryID. rewrite Hprofile. by eexists _, _.
  - destruct (FullScan_calls rt run svc st hid Hprofile)
      as (st' & e & ups & full & rest & Hscan & _ & Hcalls & Hsplit & Hcat & Hfull & Hrest).
    exists st', e. split; [done|].
    assert (upserted (calls st') = upserted ups) as ->.
    { destruct Hcalls as [->|[res ->]]; [done|].
      by rewrite upserted_app, upserted_cursor, app_nil_r. }
    split; [done|]. by exists full, rest.
Qed.

(** X7: the cursor [FullScan] hands to the store is one that
    [SyncSinceHistory] accepts.  The mailbox cursor is a 64-bit number;
    what is stored is its decimal writing, which is not blank and which
    [strconv.ParseUint] reads back as the same number. *)
Theorem FullScan_cursor_accepted {St} `{MessageStore St} (rt : GoRuntime) (run : Run)
    (svc : Service) (st : St) (st' : Recording St) (e : option error) (hid : N)
    (h : string) (res : option error) :
  Users_GetProfile svc = inr hid ->
  (hid < 2 ^ 64)%N ->
  FullScan rt run svc (Some {| inner := st; calls := [] |}) = (Some st', e) ->
  CallSetLastHistoryID h res ∈ calls st' ->
  h = Sprintf_d hid /\ GoStrings.TrimSpace h <> "" /\ ParseUint h = Some hid.
Proof.
  intros Hprofile Hhid Hscan Hin.
  destruct (FullScan_calls rt run svc st hid Hprofile)
    as (st1 & e1 & ups & full & rest & Hscan1 & Hups & Hcalls & _).
  rewrite Hscan in Hscan1. injection Hscan1 as <- <-.
  assert (h = Sprintf_d hid) as ->.
  { rewrite Forall_forall in Hups.
    destruct Hcalls as [Hc|[res' Hc]]; rewrite Hc in Hin.
    - by apply Hups in Hin.
    - apply elem_of_app in Hin as [Hin|Hin]; [by apply Hups in Hin|].
      apply list_elem_of_singleton in Hin. congruence. }
  split; [done|]. split; [|by apply ParseUint_Sprintf_d].
  rewrite TrimSpace_Sprintf_d. apply cursor_spec.Sprintf_d_nonempty.
Qed.

Lemma FullScan_cursor_accepted_witness :
  "100" = Sprintf_d 100 /\ GoStrings.TrimSpace "100" <> "" /\ ParseUint "100" = Some 100%N.
Proof.
  refine (FullScan_cursor_accepted ascii_runtime plain_run one_message failing_store
    {| inner := {| messages := ∅; metadata := {["last_history_id" := "100"]}; faults := [] |};
       calls := [ CallUpsert [bob_record] (Some (Err "disk full"));
                  CallSetLastHistoryID "100" None ] |}
    (Some (Err "disk full")) 100 "100" None _ _ _ _).
  - reflexivity.
  - vm_compute. reflexivity.
  - vm_compute. reflexivity.
  - right. left.
Defined.

End scan_spec.

(* ===================================================================== *)
(** * Incremental sync: the writes and what they leave                    *)
(* ===================================================================== *)

Module sync_spec.
Import gmailv1.
Import gmail_sync.
Import store.
Import history_spec.
Import batch_spec.
Open Scope list_scope.

(** The error a recorded call returned. *)
Definition call_result (c : call) : option error :=
  match c with
  | CallUpsert _ r => r
  | CallDelete _ r => r
  | CallSetLastHistoryID _ r => r
  | CallRead => None
  end.

(** The place of a call in a sync: the upsert, the delete, the cursor. *)
Definition rank (c : call) : nat :=
  match c with
  | CallUpsert _ _ => 0
  | CallDelete _ _ => 1
  | CallSetLastHistoryID _ _ => 2
  | CallRead => 3
  end.

(** No call, or one call of the given rank and result. *)
Definition at_most (k : nat) (e : option error) (l : list call) : Prop :=
  l = [] \/ exists c, l = [c] /\ rank c = k /\ call_result c = e.

(** What the theorem says of the calls recorded and the error returned. *)
Definition ordered (cs : list call) (e : option error) : Prop :=
  StronglySorted lt (map rank cs)
  /\ Forall (fun c => rank c < 3) cs
  /\ Forall (fun c => call_result c = None) (removelast cs)
  /\ (forall c err, c ∈ cs -> call_result c = Some err -> e = Some err)
  /\ (e = None -> exists h, last cs = Some (CallSetLastHistoryID h None)).

Ltac ordered_leaf :=
  unfold ordered; cbn;
  repeat match goal with H : rank _ = _ |- _ => rewrite H end;
  repeat match goal with H : call_result _ = _ |- _ => rewrite H end;
  repeat split;
  try solve [ repeat first [ done | lia | apply SSorted_nil | apply SSorted_cons
                            | apply List.Forall_nil | apply List.Forall_cons
                            | progress cbn ] ];
  try solve [ intros; simplify_eq; by eexists ];
  try solve [ let Hc := fresh "Hc" in
              intros ? ? Hc; repeat (apply elem_of_cons in Hc as [->|Hc]);
              try (by apply elem_of_nil in Hc); cbn; intros; congruence ].

Lemma ordered_stop (l1 l2 : list call) (e : error) :
  at_most 0 None l1 -> at_most 1 None l2 -> ordered (l1 ++ l2) (Some e).
Proof.
  intros [->|(c1 & -> & ? & ?)] [->|(c2 & -> & ? & ?)]; ordered_leaf.
Qed.

Lemma ordered_failed (l1 l2 : list call) (c : call) (e : error) :
  at_most 0 None l1 -> at_most 1 None l2 -> rank c < 3 ->
  (l2 = [] \/ 1 < rank c) -> (l1 = [] \/ 0 < rank c) ->
  call_result c = Some e -> ordered (l1 ++ l2 ++ [c]) (Some e).
Proof.
  intros [->|(c1 & -> & ? & ?)] [->|(c2 & -> & ? & ?)] Hr [?|?] [?|?] Hc;
    simplify_eq; ordered_leaf.
Qed.

Lemma ordered_cursor (l1 l2 : list call) (h : string) (e : option error) :
  at_most 0 None l1 -> at_most 1 None l2 ->
  ordered (l1 ++ l2 ++ [CallSetLastHistoryID h e]) e.
Proof.
  intros [->|(c1 & -> & ? & ?)] [->|(c2 & -> & ? & ?)]; ordered_leaf.
Qed.

Section Order.
Context {St : Type} `{MessageStore St}.

Definition stage (k : nat) (e : option error) (l : list call) : Prop :=
  match e with
  | None => at_most k None l
  | Some _ => l = [] \/ exists c, l = [c] /\ rank c = k /\ call_result c = e
  end.

Lemma upsert_stage (rt : GoRuntime) (run : Run) (svc : Service) (r st1 : Recording St)
    (ids : list string) (e1 : option error) :
  (if decide (0 < length ids) then
     match fetchMetadataBatch rt run svc ids with
     | (_, Some e) => (r, Some e)
     | (msgs, None) => UpsertMessages r msgs
     end
   else (r, None)) = (st1, e1) ->
  exists l, calls st1 = calls r ++ l /\ stage 0 e1 l.
Proof.
  destruct (decide (0 < length ids)) as [Hadd|Hadd].
  - destruct (fetchMetadataBatch rt run svc ids) as [msgs [e|]].
    + intros [= <- <-]. exists []. rewrite app_nil_r. split; [done|by left].
    + cbn [UpsertMessages Recording_MessageStore].
      destruct (UpsertMessages (inner r) msgs) as [s e]. intros [= <- <-].
      exists [CallUpsert msgs e]. split; [done|].
      destruct e; right; by eexists.
  - intros [= <- <-]. exists []. rewrite app_nil_r. split; [done|by left].
Qed.

Lemma delete_stage (run : Run) (r st2 : Recording St) (dels : gset string)
    (e2 : option error) :
  (if decide (0 < size dels) then DeleteMessages r (keys run dels) else (r, None))
  = (st2, e2) ->
  exists l, calls st2 = calls r ++ l /\ stage 1 e2 l.
Proof.
  destruct (decide (0 < size dels)) as [Hdel|Hdel].
  - cbn [DeleteMessages Recording_MessageStore].
    destruct (DeleteMessages (inner r) (keys run dels)) as [s e]. intros [= <- <-].
    exists [CallDelete (keys run dels) e]. split; [done|].
    destruct e; right; by eexists.
  - intros [= <- <-]. exists []. rewrite app_nil_r. split; [done|by left].
Qed.

End Order.

(** X8: the store calls of [SyncSinceHistory]: an upsert, a delete and
    the cursor write, in this order, each at most once and nothing else;
    no call is made after one that failed, the error of a failed call is
    the error returned, and a sync that returns no error has written the
    cursor last.  A blank or non-numeric cursor and a failed history
    listing make no call at all. *)
Theorem SyncSinceHistory_call_order {St} `{MessageStore St} (rt : GoRuntime) (run : Run)
    (svc : Service) (st : St) (st' : Recording St) (lastHistoryID : string)
    (e : option error) :
  SyncSinceHistory rt run svc (Some {| inner := st; calls := [] |}) lastHistoryID
  = (Some st', e) ->
  (StronglySorted lt (map rank (calls st'))
   /\ Forall (fun c => rank c < 3) (calls st')
   /\ Forall (fun c => call_result c = None) (removelast (calls st'))
   /\ (forall c err, c ∈ calls st' -> call_result c = Some err -> e = Some err)
   /\ (e = None -> exists h, last (calls st') = Some (CallSetLastHistoryID h None)))
  /\ (GoStrings.TrimSpace lastHistoryID = "" \/ ParseUint lastHistoryID = None
      \/ (exists err, history_pages run 0 (Users_History_List svc) start = inr err) ->
      calls st' = [] /\ e <> None).
Proof.
  unfold SyncSinceHistory, start, no_sets.
  change (?P /\ ?Q) with (ordered (calls st') e /\ Q).
  destruct (decide (GoStrings.TrimSpace lastHistoryID = "")) as [Hblank|Hblank].
  { intros [= <- <-]. split; [apply (ordered_stop [] []); by left|done]. }
  destruct (ParseUint lastHistoryID) as [startID|] eqn:Hparse; cycle 1.
  { intros [= <- <-]. split; [apply (ordered_stop [] []); by left|done]. }
  destruct (history_pages run 0 (Users_History_List svc) _) as [w|err0] eqn:Hw; cycle 1.
  { intros [= <- <-]. split; [apply (ordered_stop [] []); by left|done]. }
  intros Hsync. split; [|by intros [?|[?|[? ?]]]].
  destruct (if decide (0 < length (keys run (addSet (w_sets w)))) then _ else _)
    as [st1 e1] eqn:H1.
  apply upsert_stage in H1 as (l1 & Hl1 & Hs1). cbn [calls app] in Hl1.
  destruct e1 as [e1|].
  { injection Hsync as <- <-. rewrite Hl1.
    destruct Hs1 as [->|(c & -> & ? & ?)].
    - apply (ordered_stop [] []); by left.
    - apply (ordered_failed [] [] c); first [by left | lia | done]. }
  destruct (if decide (0 < size (delSet (w_sets w))) then _ else _) as [st2 e2] eqn:H2.
  apply delete_stage in H2 as (l2 & Hl2 & Hs2). rewrite Hl1 in Hl2.
  destruct e2 as [e2|].
  { injection Hsync as <- <-. rewrite Hl2.
    destruct Hs2 as [->|(c & -> & ? & ?)].
    - rewrite app_nil_r. rewrite <- (app_nil_r l1). apply ordered_stop; [done|by left].
    - change (l1 ++ [c]) with (l1 ++ [] ++ [c]).
      apply ordered_failed; first [done | by left | lia | (right; lia)]. }
  destruct (if decide (w_newest w = "") then _ else _) as [newest e3] eqn:H3.
  destruct e3 as [e3|].
  { injection Hsync as <- <-. rewrite Hl2. by apply ordered_stop. }
  cbn [SetLastHistoryID Recording_MessageStore] in Hsync.
  destruct (SetLastHistoryID (inner st2) newest) as [s3 e4].
  injection Hsync as <- <-. cbn [calls record_call]. rewrite Hl2, <- app_assoc.
  by apply ordered_cursor.
Qed.

Lemma SyncSinceHistory_call_order_witness :
  StronglySorted lt
    (map rank [CallDelete ["7"] None; CallSetLastHistoryID "50" None])
  /\ Forall (fun c => rank c < 3) [CallDelete ["7"] None; CallSetLastHistoryID "50" None].
Proof.
  refine (let H := proj1 (SyncSinceHistory_call_order ascii_runtime plain_run
    cursor_spec.page_100_record_50 cursor_spec.empty_store
    {| inner := {| messages := ∅; metadata := {["last_history_id" := "50"]}; faults := [] |};
       calls := [CallDelete ["7"] None; CallSetLastHistoryID "50" None] |}
    "5" None _) in conj (proj1 H) (proj1 (proj2 H))).
  vm_compute. reflexivity.
Defined.

(** ** What a successful sync leaves in the table *)

(** The gateway answers a fetch with the message asked for. *)
Definition faithful (svc : Service) : Prop :=
  forall id msg, Users_Messages_Get svc id = inr msg -> Id msg = id.

(** No worker gives up: every result sent reaches the collector. *)
Definition lossless (run : Run) : Prop :=
  forall (A : Type) (l : list A), arrive (workers run) l ≡ₚ l.

Lemma keys_elem_of (run : Run) (m : gset string) (id : string) :
  id ∈ keys run m <-> id ∈ m.
Proof. unfold keys. by rewrite (range_perm (map_order run)), elem_of_elements. Qed.

Lemma keys_empty (run : Run) (m : gset string) : ~ 0 < size m -> keys run m = [].
Proof.
  intros Hs. assert (m = ∅) as -> by (apply leibniz_equiv, size_empty_iff; lia).
  unfold keys. rewrite elements_empty.
  apply Permutation_nil_r. apply (range_perm (map_order run)).
Qed.

Lemma no_keys_no_results (rt : GoRuntime) (run : Run) (svc : Service) :
  batch_results rt run svc [] = [].
Proof. unfold batch_results. cbn. apply submseteq_nil_r, arrive_sub. Qed.

(** The table after a sync that returned no error. *)
Lemma sync_succeeded (rt : GoRuntime) (run : Run) (svc : Service) (st st' : SQLiteStore)
    (lastHistoryID : string) :
  SyncSinceHistory rt run svc (Some st) lastHistoryID = (Some st', None) ->
  exists w,
    history_pages run 0 (Users_History_List svc) start = inl w
    /\ messages st'
       = delete_rows
           (upsert_rows (messages st)
              (map ref (filter usable
                 (batch_results rt run svc (keys run (addSet (w_sets w)))))))
           (keys run (delSet (w_sets w))).
Proof.
  unfold SyncSinceHistory, start, no_sets.
  destruct (decide (GoStrings.TrimSpace lastHistoryID = "")); [done|].
  destruct (ParseUint lastHistoryID); [|done].
  destruct (history_pages run 0 (Users_History_List svc) _) as [w|e] eqn:Hw; [|done].
  intros Hsync. exists w. split; [done|].
  destruct (if decide (0 < length (keys run (addSet (w_sets w)))) then _ else _)
    as [st1 e1] eqn:H1.
  destruct e1; [done|].
  destruct (if decide (0 < size (delSet (w_sets w))) then _ else _) as [st2 e2] eqn:H2.
  destruct e2; [done|].
  destruct (if decide (w_newest w = "") then _ else _) as [newest e3] eqn:H3.
  destruct e3; [done|].
  destruct (SetLastHistoryID st2 newest) as [st3 e4] eqn:H4.
  injection Hsync as -> ->.
  apply cursor_spec.set_cursor_metadata in H4 as [_ ->].
  assert (messages st2 = delete_rows (messages st1) (keys run (delSet (w_sets w)))) as ->.
  { destruct (decide (0 < size (delSet (w_sets w)))) as [Hd|Hd].
    - by apply store_spec.delete_succeeded in H2 as [-> _].
    - injection H2 as <-. by rewrite keys_empty. }
  f_equal.
  destruct (decide (0 < length (keys run (addSet (w_sets w))))) as [Ha|Ha].
  - rewrite fetchMetadataBatch_spec in H1.
    destruct (first_failure _); [done|].
    by apply store_spec.upsert_succeeded in H1 as [-> _].
  - injection H1 as <-.
    destruct (keys run (addSet (w_sets w))); [|cbn in Ha; lia].
    by rewrite no_keys_no_results.
Qed.

Lemma worker_id (rt : GoRuntime) (svc : Service) (id : string) :
  faithful svc -> err (worker rt svc id) = None ->
  MessageRef.ID (ref (worker rt svc id)) = id.
Proof.
  intros Hf. unfold worker.
  destruct (Users_Messages_Get svc id) as [e|msg] eqn:Hget; [done|].
  intros _. cbn. by apply Hf.
Qed.

(** The record of an id among the records fetched for a list of ids. *)
Lemma last_with_fetched (rt : GoRuntime) (svc : Service) (rs : list result)
    (ids : list string) (id : string) :
  faithful svc -> rs ≡ₚ map (worker rt svc) ids ->
  store_spec.last_with id (map ref (filter usable rs))
  = if decide (id ∈ ids /\ usable (worker rt svc id))
    then Some (ref (worker rt svc id)) else None.
Proof.
  intros Hf Hrs. unfold store_spec.last_with.
  set (L := filter (fun m => MessageRef.ID m = id) (map ref (filter usable rs))).
  assert (forall m, m ∈ L -> m = ref (worker rt svc id) /\ id ∈ ids /\ usable (worker rt svc id))
    as Hall.
  { intros m [Hid Hm]%list_elem_of_filter.
    apply list_elem_of_fmap in Hm as (r & -> & [Hu Hr]%list_elem_of_filter).
    rewrite Hrs in Hr. apply list_elem_of_fmap in Hr as (i & -> & Hi).
    assert (i = id) as -> by (rewrite <- Hid; symmetry; apply worker_id; [done|apply Hu]).
    done. }
  destruct (decide (id ∈ ids /\ usable (worker rt svc id))) as [[Hin Hu]|Hno].
  - assert (ref (worker rt svc id) ∈ L) as HL.
    { apply list_elem_of_filter. split; [apply worker_id; [done|apply Hu]|].
      apply list_elem_of_fmap. exists (worker rt svc id). split; [done|].
      apply list_elem_of_filter. split; [done|]. rewrite Hrs.
      apply list_elem_of_fmap. by exists id. }
    destruct (last L) as [m|] eqn:Hl.
    + apply last_Some_elem_of in Hl. by apply Hall in Hl as [-> _].
    + apply last_None in Hl. rewrite Hl in HL. by apply elem_of_nil in HL.
  - destruct (last L) as [m|] eqn:Hl; [|done].
    apply last_Some_elem_of in Hl. apply Hall in Hl as (_ & ? & ?). by destruct Hno.
Qed.

(** X9: the message table after a sync that returned no error.  A
    message whose last event in the history took it out of INBOX has no
    row.  When the gateway answers each fetch with the message asked for
    and no result is lost, a message whose last event put it into INBOX
    has the row fetched for it, if the fetch succeeded with a sender that
    can be normalised, and the row it had before otherwise; a message the
    history does not mention has the row it had before. *)
Theorem sync_applies_history (rt : GoRuntime) (run : Run) (svc : Service)
    (st st' : SQLiteStore) (lastHistoryID id : string) :
  SyncSinceHistory rt run svc (Some st) lastHistoryID = (Some st', None) ->
  (last_effect id (history_events (Users_History_List svc)) = Some false ->
   messages st' !! id = None)
  /\ (faithful svc -> lossless run ->
      messages st' !! id
      = match last_effect id (history_events (Users_History_List svc)) with
        | Some false => None
        | Some true =>
            if decide (usable (worker rt svc id)) then Some (ref (worker rt svc id))
            else messages st !! id
        | None => messages st !! id
        end).
Proof.
  intros (w & Hw & ->)%sync_succeeded.
  apply history_pages_walked in Hw.
  assert (w_sets w = fold_left apply_event (history_events (Users_History_List svc)) no_sets)
    as Hsets by (rewrite Hw; apply on_pages_events).
  destruct (fold_events (history_events (Users_History_List svc))) as [_ Hlast].
  cbn zeta in Hlast. rewrite <- Hsets in Hlast.
  destruct (Hlast id) as [Hadd Hdel].
  rewrite store_spec.delete_rows_lookup. split.
  - intros Hl. rewrite decide_True; [done|]. by apply keys_elem_of, Hdel.
  - intros Hf Hloss. rewrite store_spec.upsert_rows_lookup.
    rewrite (last_with_fetched rt svc _ (keys run (addSet (w_sets w)))); [|done|apply Hloss].
    destruct (last_effect id _) as [[]|] eqn:Hl.
    + rewrite decide_False by (rewrite keys_elem_of, Hdel; done).
      assert (id ∈ keys run (addSet (w_sets w))) as Hin by (by apply keys_elem_of, Hadd).
      destruct (decide (usable (worker rt svc id))) as [Hu|Hu].
      * by rewrite decide_True.
      * rewrite decide_False; [done|]. by intros [_ ?].
    + rewrite decide_True; [done|]. by apply keys_elem_of, Hdel.
    + rewrite decide_False by (rewrite keys_elem_of, Hdel; done).
      rewrite decide_False; [done|]. intros [Hin _].
      apply keys_elem_of, Hadd in Hin. done.
Qed.

(** A mailbox in which message 8 came into INBOX and message 7 was
    deleted; the cache holds message 7. *)
Definition carol (id : string) : Message :=
  {| Id := id; LabelIds := ["INBOX"];
     Payload_Headers :=
       [ {| HeaderName := "From"; HeaderValue := "Carol <carol@Example.com>" |} ] |}.

Definition one_in_one_out : Service :=
  {| Users_GetProfile := inr 100%N;
     Users_Messages_List := [];
     Users_Messages_Get := fun id => inr (carol id);
     Users_History_List :=
       [inr {| HistoryList :=
                 [ {| HistoryRecordId := 60;
                      MessagesAdded := [ {| added := Some (carol "8") |} ];
                      MessagesDeleted := [ {| deleted := Some (carol "7") |} ];
                      LabelsAdded := []; LabelsRemoved := [] |} ];
               HistoryId := 60; History_NextPageToken := "" |}] |}.

Definition with_seven : SQLiteStore :=
  {| messages := {["7" := MessageRef.mk "7" "" "" "old@example.com" "" ""]};
     metadata := ∅; faults := [] |}.

Definition with_eight : SQLiteStore :=
  {| messages := {["8" := MessageRef.mk "8" "" "" "carol@example.com" "" ""]};
     metadata := {["last_history_id" := "60"]}; faults := [] |}.

Lemma sync_applies_history_witness :
  messages with_eight !! "7" = None
  /\ messages with_eight !! "8"
     = match last_effect "8" (history_events (Users_History_List one_in_one_out)) with
       | Some false => None
       | Some true =>
           if decide (usable (worker ascii_runtime one_in_one_out "8"))
           then Some (ref (worker ascii_runtime one_in_one_out "8"))
           else messages with_seven !! "8"
       | None => messages with_seven !! "8"
       end.
Proof.
  assert (SyncSinceHistory ascii_runtime plain_run one_in_one_out (Some with_seven) "5"
          = (Some with_eight, None)) as Hsync by (vm_compute; reflexivity).
  split.
  - refine (proj1 (sync_applies_history ascii_runtime plain_run one_in_one_out
      with_seven with_eight "5" "7" Hsync) _).
    vm_compute. reflexivity.
  - refine (proj2 (sync_applies_history ascii_runtime plain_run one_in_one_out
      with_seven with_eight "5" "8" Hsync) _ _).
    + intros id msg [= <-]. reflexivity.
    + intros A l. reflexivity.
Defined.

End sync_spec.

(* ===================================================================== *)
(** * The groups account for the records                                  *)
(* ===================================================================== *)

Module accounting_spec.
Import GoStrings.
Import util.
Import gmail_fetch.
Import gmail_cache.
Import store.
Import aggregate_spec.
Open Scope list_scope.

(** A record the aggregation keeps: its sender can be normalised. *)
Definition grouped (rt : GoRuntime) (m : MessageRef.t) : Prop :=
  NormalizeSender rt (MessageRef.From m) <> "".

#[local] Instance grouped_dec rt m : Decision (grouped rt m).
Proof. unfold grouped. apply _. Defined.

Definition Zsum (l : list Z) : Z := foldr Z.add 0%Z l.

(** The groups of a map, in the order of [map_to_list]. *)
Definition all_groups (m : gmap string SenderGroup.t) : list SenderGroup.t :=
  map snd (map_to_list m).

Lemma Zsum_perm (l l' : list Z) : l ≡ₚ l' -> Zsum l = Zsum l'.
Proof. unfold Zsum. induction 1; cbn in *; lia. Qed.

Lemma concat_map_perm {A B} (f : A -> list B) (l l' : list A) :
  l ≡ₚ l' -> concat (map f l) ≡ₚ concat (map f l').
Proof.
  induction 1 as [|x l l' _ IH|x y l|l l' l'' _ IH1 _ IH2]; cbn.
  - done.
  - by rewrite IH.
  - rewrite !app_assoc. f_equiv. apply Permutation_app_comm.
  - by rewrite IH1.
Qed.

Lemma Zsum_lengths {A B} (f : A -> list B) (l : list A) :
  Zsum (map (fun x => Z.of_nat (length (f x))) l) = Z.of_nat (length (concat (map f l))).
Proof.
  unfold Zsum. induction l as [|x l IH]; cbn; [done|]. rewrite IH, length_app. lia.
Qed.

Lemma concat_map_ids {A} (f : A -> list MessageRef.t) (l : list A) :
  concat (map (fun x => map MessageRef.ID (filter has_id (f x))) l)
  = map MessageRef.ID (filter has_id (concat (map f l))).
Proof. induction l as [|x l IH]; cbn; [done|]. by rewrite IH, filter_app, map_app. Qed.

Lemma member_grouped rt key m : member rt key m -> grouped rt m.
Proof. by intros [? _]. Qed.

Lemma members_without rt (i k : string) (msgs : list MessageRef.t) :
  i <> k ->
  members rt k (filter (fun m => ~ member rt i m) msgs) = members rt k msgs.
Proof.
  intros Hik. unfold members. rewrite list_filter_filter.
  apply list_filter_iff. intros m. split; [by intros [? _]|].
  intros Hm. split; [done|]. intros Hi. destruct Hm as [_ <-], Hi as [_ Hi]. done.
Qed.

(** The records kept are shared out among the keys of the map. *)
Lemma partition_by_key rt (groups : gmap string SenderGroup.t) :
  forall msgs,
    (forall k, groups !! k = None -> members rt k msgs = []) ->
    concat (map (fun kg => members rt kg.1 msgs) (map_to_list groups))
    ≡ₚ filter (grouped rt) msgs.
Proof.
  induction groups as [|i x g0 Hi IH] using map_ind; intros msgs Hnone.
  - rewrite map_to_list_empty. cbn. symmetry. apply Permutation_nil_r.
    apply filter_none, Forall_forall. intros m Hm Hg.
    assert (m ∈ members rt (NormalizeSender rt (MessageRef.From m) ++ "||"
                             ++ MessageRef.Subject m)%string msgs) as Hin
      by (apply list_elem_of_filter; split; [by split|done]).
    rewrite Hnone in Hin by apply lookup_empty. by apply elem_of_nil in Hin.
  - rewrite (concat_map_perm _ _ _ (map_to_list_insert g0 i x Hi)). cbn [map concat fst].
    set (msgs' := filter (fun m => ~ member rt i m) msgs).
    assert (map (fun kg : string * SenderGroup.t => members rt kg.1 msgs) (map_to_list g0)
            = map (fun kg => members rt kg.1 msgs') (map_to_list g0)) as ->.
    { apply map_ext_in. intros [k g] Hin%list_elem_of_In%elem_of_map_to_list. cbn.
      symmetry. apply members_without. intros <-. congruence. }
    rewrite (IH msgs').
    + rewrite <- (filter_app_complement (member rt i) (filter (grouped rt) msgs)).
      f_equiv.
      * unfold members. rewrite list_filter_filter. apply reflexive_eq.
        apply list_filter_iff. intros m. split; [by intros ?; split; [|eapply member_grouped]|].
        by intros [? _].
      * unfold msgs'. rewrite !list_filter_filter. apply reflexive_eq.
        apply list_filter_iff. intros m. tauto.
    + intros k Hk. destruct (decide (i = k)) as [<-|Hik].
      * unfold members, msgs'. rewrite list_filter_filter.
        apply filter_none, Forall_forall. intros m _ [? ?]. done.
      * unfold msgs'. rewrite members_without by done. apply Hnone. by rewrite lookup_insert_ne.
Qed.

(** No group is empty. *)
Lemma aggregate_members_nonempty rt (msgs : list MessageRef.t) (k : string)
    (g : SenderGroup.t) :
  AggregateBySenderSubject rt msgs !! k = Some g -> members rt k msgs <> [].
Proof.
  revert g. induction msgs as [|m msgs IH] using rev_ind; intros g.
  - unfold AggregateBySenderSubject. cbn. by rewrite lookup_empty.
  - unfold AggregateBySenderSubject, members. rewrite fold_left_app, filter_app.
    cbn [fold_left]. fold (AggregateBySenderSubject rt msgs). fold (members rt k msgs).
    unfold aggregate_step.
    destruct (decide (NormalizeSender rt (MessageRef.From m) = "")) as [He|He].
    { intros Hg. apply IH in Hg. by destruct (members rt k msgs). }
    set (key := (NormalizeSender rt (MessageRef.From m) ++ "||" ++ MessageRef.Subject m)%string).
    destruct (decide (key = k)) as [<-|Hk].
    + intros _. rewrite filter_cons, (decide_True (P := member rt key m)) by (by split).
      by destruct (members rt key msgs).
    + rewrite lookup_insert_ne by done. intros Hg. apply IH in Hg.
      by destruct (members rt k msgs).
Qed.

(** What the groups of [msgs] hold, key by key. *)
Lemma groups_by_key rt (msgs : list MessageRef.t) :
  (Z.of_nat (length msgs) < 2 ^ 63)%Z ->
  Forall (fun kg : string * SenderGroup.t =>
            SenderGroup.Count kg.2 = Z.of_nat (length (members rt kg.1 msgs))
            /\ SenderGroup.MessageIDs kg.2
               = map MessageRef.ID (filter has_id (members rt kg.1 msgs))
            /\ members rt kg.1 msgs <> [])
         (map_to_list (AggregateBySenderSubject rt msgs)).
Proof.
  intros Hn. apply Forall_forall. intros [k g] Hkg%elem_of_map_to_list. cbn.
  pose proof (aggregate_ok rt msgs k) as Hok. rewrite Hkg in Hok. destruct Hok as [Hc Hids].
  split; [|split; [done|by eapply aggregate_members_nonempty]].
  rewrite Hc. apply iter_int_incr.
  assert (length (members rt k msgs) <= length msgs)%nat by apply length_filter. lia.
Qed.

Lemma aggregate_accounts_list rt (msgs : list MessageRef.t) :
  (Z.of_nat (length msgs) < 2 ^ 63)%Z ->
  Zsum (map SenderGroup.Count (all_groups (AggregateBySenderSubject rt msgs)))
  = Z.of_nat (length (filter (grouped rt) msgs))
  /\ concat (map SenderGroup.MessageIDs (all_groups (AggregateBySenderSubject rt msgs)))
     ≡ₚ map MessageRef.ID (filter has_id (filter (grouped rt) msgs))
  /\ Forall (fun g => (0 < SenderGroup.Count g)%Z)
        (all_groups (AggregateBySenderSubject rt msgs)).
Proof.
  intros Hn. pose proof (groups_by_key rt msgs Hn) as Hall.
  assert (concat (map (fun kg => members rt kg.1 msgs)
                    (map_to_list (AggregateBySenderSubject rt msgs)))
          ≡ₚ filter (grouped rt) msgs) as Hpart.
  { apply partition_by_key. intros k Hk.
    pose proof (aggregate_ok rt msgs k) as Hok. by rewrite Hk in Hok. }
  unfold all_groups. rewrite !map_map. split; [|split].
  - rewrite <- Hpart, <- Zsum_lengths. f_equal. apply map_ext_in.
    intros kg Hin%list_elem_of_In. rewrite Forall_forall in Hall. by apply Hall in Hin as [-> _].
  - rewrite <- Hpart, <- concat_map_ids. apply reflexive_eq. f_equal. apply map_ext_in.
    intros kg Hin%list_elem_of_In. rewrite Forall_forall in Hall.
    by apply Hall in Hin as (_ & -> & _).
  - apply Forall_forall. intros g (kg & -> & Hin)%list_elem_of_fmap.
    rewrite Forall_forall in Hall. apply Hall in Hin as (-> & _ & Hne).
    destruct (members rt kg.1 msgs); [done|cbn; lia].
Qed.

(** X10: the groups account for the records.  The counts of the groups
    of [AggregateBySenderSubject] add up to the number of records whose
    sender can be normalised; the message ids of the groups, put together,
    are the non-empty ids of these records, each as often as it occurs;
    no group has a count of zero.  The records are as many as a Go [int]
    can count. *)
Theorem aggregate_accounts (rt : GoRuntime) (msgs : list MessageRef.t) :
  (Z.of_nat (length msgs) < 2 ^ 63)%Z ->
  Zsum (map SenderGroup.Count (all_groups (AggregateBySenderSubject rt msgs)))
  = Z.of_nat (length (filter (grouped rt) msgs))
  /\ concat (map SenderGroup.MessageIDs (all_groups (AggregateBySenderSubject rt msgs)))
     ≡ₚ map MessageRef.ID (filter has_id (filter (grouped rt) msgs))
  /\ Forall (fun g => (0 < SenderGroup.Count g)%Z)
        (all_groups (AggregateBySenderSubject rt msgs)).
Proof. apply aggregate_accounts_list. Qed.

Lemma aggregate_accounts_witness :
  Zsum (map SenderGroup.Count
          (all_groups (AggregateBySenderSubject ascii_runtime go_tests.basic_grouping)))
  = Z.of_nat (length (filter (grouped ascii_runtime) go_tests.basic_grouping)).
Proof.
  refine (proj1 (aggregate_accounts ascii_runtime go_tests.basic_grouping _)).
  vm_compute. reflexivity.
Defined.

(** The rows of the table, as [LoadAllMessages] returns them. *)
Definition all_rows (s : SQLiteStore) : list MessageRef.t :=
  map snd (map_to_list (messages s)).

Lemma SortGroups_perm (ord : MapOrder) (m : gmap string SenderGroup.t) :
  SortGroups ord m ≡ₚ all_groups m.
Proof.
  unfold SortGroups, all_groups.
  rewrite (SliceStable_perm less sort_spec.less_asym sort_spec.less_trans sort_spec.less_cut).
  apply range_perm.
Qed.

(** X11: the groups [LoadGroupsFromDB] shows for a cache.  Without a
    store, or when the database fails, it returns the error and no group.
    Otherwise the table is left as it is and the groups come sorted; their
    counts add up to the number of rows whose sender is still accepted by
    [NormalizeSender]; no message id is listed twice, and the ids listed
    are the non-empty ids of these rows.  The rows are keyed by their id
    and as many as a Go [int] can count. *)
Theorem LoadGroupsFromDB_accounts (rt : GoRuntime) (run : Run) (s s' : SQLiteStore)
    (groups : list SenderGroup.t) :
  store_spec.keyed (messages s) ->
  (Z.of_nat (length (all_rows s)) < 2 ^ 63)%Z ->
  LoadGroupsFromDB rt run (Some s) = (Some s', (groups, None)) ->
  messages s' = messages s
  /\ StronglySorted (may_precede less) groups
  /\ Zsum (map SenderGroup.Count groups)
     = Z.of_nat (length (filter (grouped rt) (all_rows s)))
  /\ NoDup (concat (map SenderGroup.MessageIDs groups))
  /\ (forall id, id ∈ concat (map SenderGroup.MessageIDs groups)
                 <-> id <> "" /\ exists m, messages s !! id = Some m /\ grouped rt m)
  /\ LoadGroupsFromDB rt run (@None SQLiteStore)
     = (None, ([], Some (Err "message store is required")))
  /\ (forall e fs,
        (LoadGroupsFromDB rt run
           (Some {| messages := messages s; metadata := metadata s;
                    faults := Some e :: fs |})).2
        = ([], Some e)).
Proof.
  intros Hk Hn. unfold LoadGroupsFromDB at 1.
  cbn [LoadAllMessages SQLite_MessageStore]. unfold SQLite_LoadAllMessages.
  destruct (db_call s) as [s0 [e|]] eqn:H0; [done|]. intros [= <- <-].
  apply store_spec.db_call_ok in H0 as [Hm _]. rewrite Hm. fold (all_rows s).
  destruct (aggregate_accounts_list rt (all_rows s) Hn) as (Hsum & Hids & _).
  pose proof (SortGroups_perm (map_order run) (AggregateBySenderSubject rt (all_rows s)))
    as Hperm.
  assert (concat (map SenderGroup.MessageIDs
                    (SortGroups (map_order run) (AggregateBySenderSubject rt (all_rows s))))
          ≡ₚ map MessageRef.ID (filter has_id (filter (grouped rt) (all_rows s)))) as Hids'.
  { by rewrite (concat_map_perm _ _ _ Hperm). }
  split; [done|]. split.
  { apply SliceStable_sorted;
      [apply sort_spec.less_asym|apply sort_spec.less_trans|apply sort_spec.less_cut]. }
  split; [by rewrite (Zsum_perm _ _ (Permutation_map _ Hperm))|].
  split; [|split; [|split; [done|done]]].
  - rewrite Hids'. eapply sublist_NoDup; [by apply store_spec.keyed_NoDup|].
    apply fmap_sublist. etransitivity; apply sublist_filter.
  - intros id. rewrite Hids', list_elem_of_fmap. split.
    + intros (m & -> & [Hid [Hg Hin]%list_elem_of_filter]%list_elem_of_filter).
      split; [done|]. exists m. split; [|done]. by apply store_spec.keyed_elem_of.
    + intros (Hid & m & Hrow & Hg). exists m.
      assert (MessageRef.ID m = id) as Hm' by (by apply Hk).
      split; [done|]. apply list_elem_of_filter. split; [unfold has_id; congruence|].
      apply list_elem_of_filter. split; [done|].
      apply store_spec.keyed_elem_of; [done|]. by rewrite Hm'.
Qed.

Lemma LoadGroupsFromDB_accounts_witness :
  messages store_spec.two_rows = messages store_spec.two_rows
  /\ StronglySorted (may_precede less)
       (SortGroups in_order
          (AggregateBySenderSubject ascii_runtime (all_rows store_spec.two_rows))).
Proof.
  refine (let H := LoadGroupsFromDB_accounts ascii_runtime plain_run
    store_spec.two_rows store_spec.two_rows
    (SortGroups in_order (AggregateBySenderSubject ascii_runtime (all_rows store_spec.two_rows)))
    _ _ _ in conj (proj1 H) (proj1 (proj2 H))).
  - apply store_spec.keyed_upsert, store_spec.keyed_empty.
  - vm_compute. reflexivity.
  - reflexivity.
Defined.

End accounting_spec.

(* ===================================================================== *)
(** * Opening the unsubscribe link                                        *)
(* ===================================================================== *)

Module open_spec.
Import GoStrings.
Import gmail_fetch.
Import gmail_unsubscribe.
Import unsubscribe_spec.
Open Scope list_scope.

Lemma platform_command_url (host : Host) (url : string) (c : command) :
  platform_command host url = Some c ->
  last (args c) = Some url
  /\ (GOOS host, cmd c) ∈ [("darwin", "open"); ("linux", "xdg-open"); ("windows", "rundll32")].
Proof.
  unfold platform_command.
  destruct (String.eqb_spec (GOOS host) "darwin") as [->|_].
  { intros [= <-]. split; [done|]. left. }
  destruct (String.eqb_spec (GOOS host) "linux") as [->|_].
  { intros [= <-]. split; [done|]. right. left. }
  destruct (String.eqb_spec (GOOS host) "windows") as [->|_]; [|done].
  intros [= <-]. split; [done|]. right. right. left.
Qed.

(** X12: [OpenBrowser] hands a command to the operating system only for a
    URL whose scheme is http or https, whatever the case, and only on
    darwin, linux or windows; the command is the opener of the platform,
    its last argument is the URL as given, and the error returned is the
    one of starting it.  In every other case nothing is started and an
    error is returned. *)
Theorem OpenBrowser_only_http (rt : GoRuntime) (host : Host) (url : string) :
  (exists c,
     OpenBrowser rt host url = ([c], exec_Start host (cmd c) (args c))
     /\ has_http_scheme rt url = true
     /\ last (args c) = Some url
     /\ (GOOS host, cmd c)
        ∈ [("darwin", "open"); ("linux", "xdg-open"); ("windows", "rundll32")])
  \/ (exists e, OpenBrowser rt host url = ([], Some e)
               /\ (has_http_scheme rt url = false \/ platform_command host url = None)).
Proof.
  unfold OpenBrowser, has_http_scheme.
  destruct (platform_command host url) as [c|] eqn:Hc.
  - destruct (HasPrefix (ToLower rt url) "http://" || HasPrefix (ToLower rt url) "https://")
      eqn:Hs.
    + left. exists c. rewrite <- negb_orb, Hs. cbn.
      apply platform_command_url in Hc as [? ?]. done.
    + right. rewrite <- negb_orb, Hs. cbn. eexists. split; [done|by left].
  - right. eexists. split; [done|by right].
Qed.

(** X13: [OpenUnsubscribeURL] never meets the refusal of [OpenBrowser]:
    the URL it takes from the header has an http or https scheme.  A
    header without such a URL gives the error that names the mailto
    links and starts nothing; otherwise the command of the platform is
    started with the extracted URL, or the platform is not supported. *)
Theorem OpenUnsubscribeURL_never_refused (rt : GoRuntime) (host : Host)
    (rawHeader : string) :
  OpenUnsubscribeURL rt host rawHeader
  = if decide (extractHTTPUnsubscribeURL rt rawHeader = "") then ([], Some no_http_url)
    else match platform_command host (extractHTTPUnsubscribeURL rt rawHeader) with
         | None => ([], Some (Err ("unsupported platform " ++ GOOS host)))
         | Some c => ([c], exec_Start host (cmd c) (args c))
         end.
Proof.
  unfold OpenUnsubscribeURL, OpenBrowser, extractHTTPUnsubscribeURL.
  rewrite first_http_part_entries.
  destruct (decide (first_http rt _ = "")) as [He|He]; [done|].
  destruct (platform_command host _) as [c|]; [|done].
  destruct (first_http_scheme rt (map (fun p => TrimSpace (Trim (TrimSpace p) "<>"))
                                   (Split rawHeader ","))) as [Hs|Hs]; [done|].
  unfold has_http_scheme in Hs. by rewrite <- negb_orb, Hs.
Qed.

End open_spec.

(* ===================================================================== *)
(** * Archive and trash                                                   *)
(* ===================================================================== *)

Module actions_spec.
Import gmail_actions.
Import store.
Import tui.
Open Scope list_scope.

(** The request [ArchiveMessages] sends for every message. *)
Definition archive_request : ModifyMessageRequest :=
  {| AddLabelIds := []; RemoveLabelIds := ["INBOX"] |}.

(** What the loops keep true, from round [n] on. *)
Definition stops_at_failure {R} (mk : string -> R) (answer : nat -> string -> option error)
    (context : string) (n : nat) (ids : list string) (sent : list R) (e : option error)
  : Prop :=
  sent = map mk (take (length sent) ids)
  /\ (e = None -> length sent = length ids)
  /\ (forall i id, ids !! i = Some id -> S i < length sent -> answer (n + i) id = None)
  /\ (forall c e0, e = Some (Wrap c e0) ->
        exists id, last (take (length sent) ids) = Some id
                   /\ c = (context ++ id)%string
                   /\ answer (n + (length sent - 1)) id = Some e0)
  /\ (forall m, e <> Some (Err m)).

Lemma stops_nil {R} (mk : string -> R) answer context n ids (e : option error) :
  (e = None -> ids = []) -> (forall c e0, e <> Some (Wrap c e0)) ->
  (forall m, e <> Some (Err m)) ->
  stops_at_failure mk answer context n ids [] e.
Proof.
  intros He Hw Hm. unfold stops_at_failure. cbn.
  split; [by rewrite take_0|]. split; [by intros ->%He|].
  split; [intros; lia|]. split; [|done]. intros c e0 Heq. by destruct (Hw c e0).
Qed.

Lemma stops_failed {R} (mk : string -> R) answer context n id rest (e0 : error) :
  answer n id = Some e0 ->
  stops_at_failure mk answer context n (id :: rest) [mk id]
    (Some (Wrap (context ++ id) e0)).
Proof.
  intros Ha. unfold stops_at_failure. cbn.
  split; [by rewrite take_0|]. split; [done|].
  split; [intros; lia|]. split; [|done].
  intros c e1 [= <- <-]. exists id. rewrite take_0, Nat.add_0_r. done.
Qed.

Lemma stops_cons {R} (mk : string -> R) answer context n id rest sent (e : option error) :
  answer n id = None ->
  stops_at_failure mk answer context (S n) rest sent e ->
  stops_at_failure mk answer context n (id :: rest) (mk id :: sent) e.
Proof.
  intros Ha (Hsent & Hall & Hok & Hwrap & Herr). unfold stops_at_failure. cbn.
  split; [by rewrite <- Hsent|]. split; [by intros ->%Hall|].
  split; [|split; [|done]].
  - intros [|i] id' Hi Hlt; cbn in Hi.
    + injection Hi as <-. by rewrite Nat.add_0_r.
    + rewrite Nat.add_succ_r. apply Hok; [done|lia].
  - intros c e0 Heq. destruct (Hwrap c e0 Heq) as (id' & Hlast & -> & Hans).
    exists id'.
    destruct sent as [|r sent']; [by rewrite take_0 in Hlast|].
    cbn in *. rewrite Nat.sub_0_r in *. split; [|split; [done|]].
    + destruct rest; [done|]. cbn in *. by destruct (take (length sent') rest).
    + by rewrite Nat.add_succ_r.
Qed.

Lemma archive_from_stops (run : Run) (box : Mailbox) (ids : list string) (n : nat) :
  stops_at_failure (fun id => Modify id archive_request)
    (fun i id => Users_Messages_Modify box i id archive_request)
    "archive message " n ids
    (archive_from run box n ids).1 (archive_from run box n ids).2.
Proof.
  revert n. induction ids as [|id rest IH]; intros n; cbn [archive_from].
  - by apply stops_nil.
  - destruct (ctx_done run n); [by apply stops_nil|].
    fold archive_request.
    destruct (Users_Messages_Modify box n id archive_request) as [e0|] eqn:Ha.
    + exact (stops_failed (fun id => Modify id archive_request)
               (fun i id => Users_Messages_Modify box i id archive_request)
               _ n id rest e0 Ha).
    + specialize (IH (S n)). destruct (archive_from run box (S n) rest) as [sent e].
      exact (stops_cons (fun id => Modify id archive_request)
               (fun i id => Users_Messages_Modify box i id archive_request)
               _ n id rest sent e Ha IH).
Qed.

Lemma trash_from_stops (run : Run) (box : Mailbox) (ids : list string) (n : nat) :
  stops_at_failure Trash (Users_Messages_Trash box) "trash message " n ids
    (trash_from run box n ids).1 (trash_from run box n ids).2.
Proof.
  revert n. induction ids as [|id rest IH]; intros n; cbn [trash_from].
  - by apply stops_nil.
  - destruct (ctx_done run n); [by apply stops_nil|].
    destruct (Users_Messages_Trash box n id) as [e0|] eqn:Ha.
    + by apply stops_failed.
    + specialize (IH (S n)). destruct (trash_from run box (S n) rest) as [sent e].
      by apply stops_cons.
Qed.

(** X14: [ArchiveMessages] and [TrashMessages] go through the ids in
    order and stop at the first failure.  The requests sent are for a
    prefix of the ids (an archive request removes the label INBOX and
    nothing else); a nil result means every id was sent; every request but
    the last one sent was answered without error; a wrapped error names the
    id of the last request sent and wraps the answer to it; the only other
    error is the one of the cancelled context. *)
Theorem actions_stop_at_failure (run : Run) (box : Mailbox) (ids : list string) :
  stops_at_failure (fun id => Modify id archive_request)
    (fun i id => Users_Messages_Modify box i id archive_request)
    "archive message " 0 ids
    (ArchiveMessages run box ids).1 (ArchiveMessages run box ids).2
  /\ stops_at_failure Trash (Users_Messages_Trash box) "trash message " 0 ids
       (TrashMessages run box ids).1 (TrashMessages run box ids).2.
Proof. split; [apply archive_from_stops|apply trash_from_stops]. Qed.

Lemma archive_background (run : Run) (box : Mailbox) (ids : list string) (n : nat) :
  (archive_from (background run) box n ids).2 <> Some Canceled.
Proof.
  revert n. induction ids as [|id rest IH]; intros n; cbn [archive_from]; [done|].
  change (ctx_done (background run) n) with false. cbn match.
  destruct (Users_Messages_Modify box n id _); [done|].
  specialize (IH (S n)). by destruct (archive_from (background run) box (S n) rest).
Qed.

Lemma trash_background (run : Run) (box : Mailbox) (ids : list string) (n : nat) :
  (trash_from (background run) box n ids).2 <> Some Canceled.
Proof.
  revert n. induction ids as [|id rest IH]; intros n; cbn [trash_from]; [done|].
  change (ctx_done (background run) n) with false. cbn match.
  destruct (Users_Messages_Trash box n id); [done|].
  specialize (IH (S n)). by destruct (trash_from (background run) box (S n) rest).
Qed.

(** What the two commands do to the cache. *)
Definition cache_follows (ids : list string) (s : SQLiteStore)
    (out : list request * option (Recording SQLiteStore) * actionResultMsg) : Prop :=
  action_err out.2 <> Some Canceled
  /\ exists st', out.1.2 = Some st'
     /\ match action_err out.2 with
        | Some _ => calls st' = [] /\ inner st' = s
        | None =>
            length out.1.1 = length ids
            /\ exists r, calls st' = [CallDelete ids r]
                 /\ (r = None -> forall id, id ∈ ids -> messages (inner st') !! id = None)
        end.

(** X15: [archiveCmd] and [trashCmd] touch the cache only after the
    mailbox took every request.  When a request fails the store is not
    called and the error is reported.  When all succeed,
    [DeleteMessages] is called once with the ids; its own error is not
    reported (the message says the action succeeded), and when it
    succeeds none of the ids has a row left.  The commands run under a
    context that is never cancelled. *)
Theorem commands_delete_after_success (run : Run) (box : Mailbox) (s : SQLiteStore)
    (ids : list string) :
  cache_follows ids s (archiveCmd run box (Some {| inner := s; calls := [] |}) ids)
  /\ cache_follows ids s (trashCmd run box (Some {| inner := s; calls := [] |}) ids)
  /\ action (archiveCmd run box (Some {| inner := s; calls := [] |}) ids).2 = "Archive"
  /\ action (trashCmd run box (Some {| inner := s; calls := [] |}) ids).2 = "Trash".
Proof.
  unfold cache_follows, archiveCmd, trashCmd, ArchiveMessages, TrashMessages.
  pose proof (archive_background run box ids 0) as Ha.
  pose proof (archive_from_stops (background run) box ids 0) as (_ & Hla & _).
  pose proof (trash_background run box ids 0) as Ht.
  pose proof (trash_from_stops (background run) box ids 0) as (_ & Hlt & _).
  destruct (archive_from (background run) box 0 ids) as [sent1 e1].
  destruct (trash_from (background run) box 0 ids) as [sent2 e2].
  cbn [fst snd action action_err] in *.
  assert (forall r st2, SQLite_DeleteMessages s ids = (st2, r) -> r = None ->
            forall id, id ∈ ids -> messages st2 !! id = None) as Hdel.
  { intros r st2 Hd -> id Hid. apply store_spec.delete_succeeded in Hd as [-> _].
    by rewrite store_spec.delete_rows_lookup, decide_True. }
  split; [|split; [|split; reflexivity]].
  - split; [done|]. destruct e1 as [e1|]; [by eexists|].
    cbn [DeleteMessages Recording_MessageStore SQLite_MessageStore inner].
    destruct (SQLite_DeleteMessages s ids) as [st2 r] eqn:Hd.
    eexists. split; [done|]. split; [by apply Hla|]. exists r. split; [done|].
    by apply Hdel.
  - split; [done|]. destruct e2 as [e2|]; [by eexists|].
    cbn [DeleteMessages Recording_MessageStore SQLite_MessageStore inner].
    destruct (SQLite_DeleteMessages s ids) as [st2 r] eqn:Hd.
    eexists. split; [done|]. split; [by apply Hlt|]. exists r. split; [done|].
    by apply Hdel.
Qed.

End actions_spec.

(* ===================================================================== *)
(** * The message list of a group and the start-up sync                   *)
(* ===================================================================== *)

Module tui_spec.
Import gmail_fetch.
Import gmail_sync.
Import gmail_cache.
Import store.
Import tui.
Import accounting_spec.
Open Scope list_scope.

Lemma newer_asym (a b : MessageRef.t) : newer a b = true -> newer b a = false.
Proof. apply ltb_asym. Qed.

Lemma newer_trans (a b c : MessageRef.t) :
  newer a b = true -> newer b c = true -> newer a c = true.
Proof. unfold newer. intros Hab Hbc. by eapply ltb_trans. Qed.

Lemma newer_cut (a b c : MessageRef.t) :
  newer a c = true -> newer a b = true \/ newer b c = true.
Proof.
  unfold newer. intros Hac.
  destruct (ltb_cut _ (MessageRef.DateRFC3339 b) _ Hac); [by right|by left].
Qed.

Lemma tie_same_date (g m : MessageRef.t) :
  tie newer g m <-> MessageRef.DateRFC3339 m = MessageRef.DateRFC3339 g.
Proof.
  unfold tie, newer. rewrite !ltb_leb, !negb_false_iff. split.
  - intros [? ?]. by apply String.leb_antisym.
  - intros ->. split; destruct (String.leb_total (MessageRef.DateRFC3339 g)
                                  (MessageRef.DateRFC3339 g)); done.
Qed.

Lemma sorted_same_date (d : string) (refs : list MessageRef.t) :
  filter (fun m => MessageRef.DateRFC3339 m = d) (sortedMessageItems refs)
  = filter (fun m => MessageRef.DateRFC3339 m = d) refs.
Proof.
  pose proof (SliceStable_stable newer newer_asym newer_trans newer_cut refs
                (MessageRef.mk "" "" d "" "" "")) as Hst.
  assert (forall l : list MessageRef.t, filter (fun m => MessageRef.DateRFC3339 m = d) l
                    = @filter _ (list MessageRef.t) _ (tie newer (MessageRef.mk "" "" d "" "" ""))
                        (tie_dec newer (MessageRef.mk "" "" d "" "" "")) l) as Heq.
  { intros l. apply list_filter_iff. intros m. by rewrite tie_same_date. }
  rewrite !Heq. exact Hst.
Qed.

(** X16: [sortedMessageItems] lists the messages newest first: the
    result holds the same messages, no message stands before one with a
    later date (the dates are compared as strings, so a message without a
    date comes last), messages with the same date keep the order they came
    in, and sorting again changes nothing. *)
Theorem sortedMessageItems_newest_first (refs : list MessageRef.t) :
  sortedMessageItems refs ≡ₚ refs
  /\ StronglySorted
       (fun a b => String.ltb (MessageRef.DateRFC3339 a) (MessageRef.DateRFC3339 b) = false)
       (sortedMessageItems refs)
  /\ (forall d, filter (fun m => MessageRef.DateRFC3339 m = d) (sortedMessageItems refs)
               = filter (fun m => MessageRef.DateRFC3339 m = d) refs)
  /\ sortedMessageItems (sortedMessageItems refs) = sortedMessageItems refs.
Proof.
  split; [apply (SliceStable_perm newer newer_asym newer_trans newer_cut)|].
  split; [apply (SliceStable_sorted newer newer_asym newer_trans newer_cut)|].
  split; [intros d; apply sorted_same_date|].
  apply (SliceStable_idem newer newer_asym newer_trans newer_cut).
Qed.

Lemma filter_all {A} (P : A -> Prop) `{forall x, Decision (P x)} (l : list A) :
  Forall P l -> filter P l = l.
Proof. induction 1 as [|x l Hx _ IH]; [done|]. by rewrite filter_cons_True, IH. Qed.

Lemma stubs_undated (g : SenderGroup.t) :
  Forall (fun m => MessageRef.DateRFC3339 m = "") (buildMessageRefsFromGroup g).
Proof. unfold buildMessageRefsFromGroup. apply Forall_forall. by intros m (id & -> & _)%list_elem_of_fmap. Qed.

(** Stubs carry no date: sorting leaves them in the order of the ids. *)
Lemma sorted_stubs (g : SenderGroup.t) :
  sortedMessageItems (buildMessageRefsFromGroup g) = buildMessageRefsFromGroup g.
Proof.
  pose proof (sorted_same_date "" (buildMessageRefsFromGroup g)) as Hst.
  rewrite (filter_all _ (buildMessageRefsFromGroup g)) in Hst by apply stubs_undated.
  rewrite filter_all in Hst; [done|].
  pose proof (stubs_undated g) as Hall. rewrite Forall_forall in *.
  intros m Hm. apply Hall.
  by rewrite <- (SliceStable_perm newer newer_asym newer_trans newer_cut).
Qed.

(** X17: the messages [enterGroup] lists for a group.  Every message
    listed carries an id of the group, and the list is newest first.  When
    the cache answers with at least one row, the rows found are listed (an
    id of the group without a row is not listed); without a store, or when
    the cache fails or has none of the ids, one stub per id is listed, in
    the order of the ids, with the sender and the subject of the group and
    no date. *)
Theorem enterGroup_lists_group (s : SQLiteStore) (g : SenderGroup.t) :
  store_spec.keyed (messages s) ->
  (forall m, m ∈ (enterGroup (Some s) g).2 -> MessageRef.ID m ∈ SenderGroup.MessageIDs g)
  /\ StronglySorted
       (fun a b => String.ltb (MessageRef.DateRFC3339 a) (MessageRef.DateRFC3339 b) = false)
       (enterGroup (Some s) g).2
  /\ (forall rows s', SQLite_GetMessagesByIDs s (SenderGroup.MessageIDs g) = (s', (rows, None)) ->
        rows <> [] -> (enterGroup (Some s) g).2 = sortedMessageItems rows)
  /\ (forall rows s' e, SQLite_GetMessagesByIDs s (SenderGroup.MessageIDs g) = (s', (rows, e)) ->
        rows = [] \/ e <> None ->
        (enterGroup (Some s) g).2 = buildMessageRefsFromGroup g)
  /\ (enterGroup (@None SQLiteStore) g).2 = buildMessageRefsFromGroup g
  /\ map MessageRef.ID (buildMessageRefsFromGroup g) = SenderGroup.MessageIDs g.
Proof.
  intros Hk.
  assert (map MessageRef.ID (buildMessageRefsFromGroup g) = SenderGroup.MessageIDs g) as Hids.
  { unfold buildMessageRefsFromGroup. rewrite map_map. cbn. apply map_id. }
  unfold enterGroup. cbn [GetMessagesByIDs SQLite_MessageStore].
  destruct (SQLite_GetMessagesByIDs s (SenderGroup.MessageIDs g)) as [s1 [loaded err]] eqn:Hget.
  destruct (decide (err = None /\ 0 < length loaded)) as [[-> Hlen]|Hno]; cbn [snd].
  - destruct (store_spec.get_by_ids_rows _ _ _ _ Hk Hget) as (_ & Hrows & _).
    split; [|split; [|split; [|split; [|split; [by rewrite sorted_stubs|done]]]]].
    + intros m Hm.
      rewrite (SliceStable_perm newer newer_asym newer_trans newer_cut) in Hm.
      by apply Hrows in Hm as [? _].
    + apply (SliceStable_sorted newer newer_asym newer_trans newer_cut).
    + by intros rows s' [= _ <-] _.
    + intros rows s' e [= _ <- <-] [->|?]; [cbn in Hlen; lia|done].
  - rewrite sorted_stubs.
    split; [|split; [|split; [|split; [|split; [done|done]]]]].
    + intros m Hm. rewrite <- Hids. by apply list_elem_of_fmap_2.
    + rewrite <- sorted_stubs.
      apply (SliceStable_sorted newer newer_asym newer_trans newer_cut).
    + intros rows s' Heq Hne. injection Heq as _ -> ->. destruct Hno. split; [done|].
      destruct rows; [done|cbn; lia].
    + done.
Qed.

Lemma enterGroup_lists_group_witness :
  StronglySorted
    (fun a b => String.ltb (MessageRef.DateRFC3339 a) (MessageRef.DateRFC3339 b) = false)
    (enterGroup (Some store_spec.two_rows)
       (SenderGroup.mk "a@b.com" "hello" "A" 2 "hello" "" "" ["1"; "2"; "3"] "")).2.
Proof.
  refine (proj1 (proj2 (enterGroup_lists_group store_spec.two_rows
    (SenderGroup.mk "a@b.com" "hello" "A" 2 "hello" "" "" ["1"; "2"; "3"] "") _))).
  apply store_spec.keyed_upsert, store_spec.keyed_empty.
Defined.

Lemma db_call_working (s : SQLiteStore) : faults s = [] -> db_call s = (s, None).
Proof. unfold db_call. by intros ->. Qed.

Lemma groups_nonempty rt (ord : MapOrder) (rows : list MessageRef.t) :
  filter (grouped rt) rows <> [] ->
  0 < length (SortGroups ord (AggregateBySenderSubject rt rows)).
Proof.
  intros Hne. rewrite (Permutation_length (SortGroups_perm ord _)).
  destruct (filter (grouped rt) rows) as [|m l] eqn:Hf; [done|].
  assert (m ∈ filter (grouped rt) rows) as [Hg Hm]%list_elem_of_filter by (rewrite Hf; left).
  set (k := (util.NormalizeSender rt (MessageRef.From m) ++ "||" ++ MessageRef.Subject m)%string).
  assert (m ∈ aggregate_spec.members rt k rows) as Hin
    by (apply list_elem_of_filter; split; [by split|done]).
  pose proof (aggregate_spec.aggregate_ok rt rows k) as Hok.
  destruct (AggregateBySenderSubject rt rows !! k) as [g|] eqn:Hk.
  - apply elem_of_map_to_list in Hk. unfold all_groups. rewrite length_map.
    destruct (map_to_list _); [by apply elem_of_nil in Hk|cbn; lia].
  - rewrite Hok in Hin. by apply elem_of_nil in Hin.
Qed.

Lemma groups_empty rt (ord : MapOrder) (rows : list MessageRef.t) :
  filter (grouped rt) rows = [] ->
  SortGroups ord (AggregateBySenderSubject rt rows) = [].
Proof.
  intros Hnone.
  assert (AggregateBySenderSubject rt rows = ∅) as ->.
  { apply map_empty. intros k.
    destruct (AggregateBySenderSubject rt rows !! k) as [g|] eqn:Hk; [|done].
    apply aggregate_members_nonempty in Hk. exfalso. apply Hk.
    apply filter_none, Forall_forall. intros m Hm [Hg _].
    assert (m ∈ filter (grouped rt) rows) as Hin by (by apply list_elem_of_filter).
    rewrite Hnone in Hin. by apply elem_of_nil in Hin. }
  unfold SortGroups. rewrite map_to_list_empty. cbn.
  assert (range ord (@nil SenderGroup.t) = []) as ->
    by (apply Permutation_nil_r, (range_perm ord)).
  done.
Qed.

(** X18: the start-up sync answers from the cache when it can.  On a
    database that answers every call: when a row of the cache has a sender
    that [NormalizeSender] still accepts, [syncCmd] returns the sorted
    groups of the cached rows and no error, whatever the mailbox answers
    (the incremental sync runs beside and its error is dropped); when no
    row has, it runs [FullScan], and an error of the scan is returned
    without any group, even if the scan stored records. *)
Theorem syncCmd_cache_first (rt : GoRuntime) (run : Run) (svc : gmailv1.Service)
    (s : SQLiteStore) :
  faults s = [] ->
  (filter (grouped rt) (all_rows s) <> [] ->
   (syncCmd rt run svc (Some s)).2
   = {| groups := SortGroups (map_order run) (AggregateBySenderSubject rt (all_rows s));
        sync_err := None |})
  /\ (filter (grouped rt) (all_rows s) = [] ->
      forall err, (FullScan rt (background run) svc (Some s)).2 = Some err ->
      (syncCmd rt run svc (Some s)).2 = {| groups := []; sync_err := Some err |}).
Proof.
  intros Hfaults. unfold syncCmd.
  cbn [CountMessages GetLastHistoryID SQLite_MessageStore].
  unfold SQLite_CountMessages, LoadGroupsFromDB.
  cbn [LoadAllMessages SQLite_MessageStore]. unfold SQLite_LoadAllMessages.
  rewrite !(db_call_working s Hfaults). fold (all_rows s). cbn [map_order background].
  split.
  - intros Hne. pose proof (groups_nonempty rt (map_order run) _ Hne) as Hlen.
    assert ((Z.of_nat (size (messages s)) >? 0)%Z = true) as ->.
    { apply Z.gtb_lt. unfold all_rows in Hne. rewrite <- length_map_to_list.
      destruct (map_to_list (messages s)); [done|cbn; lia]. }
    rewrite decide_True by done.
    by destruct (SQLite_GetLastHistoryID s) as [s1 [hid e]].
  - intros Hnone err Hscan. rewrite (groups_empty rt _ _ Hnone).
    assert ((if (Z.of_nat (size (messages s)) >? 0)%Z
             then (if decide (0 < length (@nil SenderGroup.t)) then (s, Some []) else (s, None))
             else (s, None)) = (s, @None (list SenderGroup.t))) as ->.
    { destruct (_ >? _)%Z; [|done]. rewrite decide_False; [done|cbn; lia]. }
    destruct (FullScan rt (background run) svc (Some s)) as [store e]. cbn in Hscan.
    by rewrite Hscan.
Qed.

Lemma syncCmd_cache_first_witness :
  (syncCmd ascii_runtime plain_run aggregate_spec.empty_inbox (Some store_spec.two_rows)).2
  = {| groups := SortGroups (map_order plain_run)
                   (AggregateBySenderSubject ascii_runtime (all_rows store_spec.two_rows));
       sync_err := None |}.
Proof.
  refine (proj1 (syncCmd_cache_first ascii_runtime plain_run aggregate_spec.empty_inbox
    store_spec.two_rows _) _).
  - reflexivity.
  - vm_compute. congruence.
Defined.

End tui_spec.

(* ===================================================================== *)
(** * The body of a message                                               *)
(* ===================================================================== *)

Module body_spec.
Import GoStrings.
Import gmail_body.
Import string_facts.
Open Scope list_scope.
#[local] Arguments String.append !_ _ / : simpl nomatch.

(** Induction on a part with the property known of its sub-parts. *)
Fixpoint MessagePart_rect' (P : MessagePart -> Prop)
    (step : forall m b ps, Forall P ps -> P (Build_MessagePart m b ps))
    (p : MessagePart) : P p :=
  match p with
  | Build_MessagePart m b ps =>
      step m b ps
        ((fix all (qs : list MessagePart) : Forall P qs :=
            match qs with
            | [] => @List.Forall_nil _ P
            | q :: qs' => @List.Forall_cons _ P q qs' (MessagePart_rect' P step q) (all qs')
            end) ps)
  end.

(** A part and the parts below it. *)
Fixpoint subparts (p : MessagePart) : list MessagePart :=
  match p with
  | Build_MessagePart _ _ ps =>
      p :: (fix below (qs : list MessagePart) : list MessagePart :=
              match qs with
              | [] => []
              | q :: qs' => subparts q ++ below qs'
              end) ps
  end.

Lemma subparts_self (p : MessagePart) : p ∈ subparts p.
Proof. destruct p. left. Qed.

Lemma subparts_below (q p : MessagePart) (x : MessagePart) :
  q ∈ Parts p -> x ∈ subparts q -> x ∈ subparts p.
Proof.
  destruct p as [m b ps]. cbn [Parts subparts]. intros Hq Hx. right.
  induction ps as [|q' ps IH]; [by apply elem_of_nil in Hq|].
  apply elem_of_app. apply elem_of_cons in Hq as [<-|Hq]; [by left|right; by apply IH].
Qed.

(** The body of [p] is the decoded data of a part of type [mime]. *)
Definition from_part (enc : GoEncoding) (rt : GoRuntime) (mime : string)
    (p : MessagePart) (body : string) : Prop :=
  exists q, q ∈ subparts p
            /\ ToLower rt (MimeType q) = mime
            /\ has_data q = true
            /\ body = decodeBase64URL enc (body_data q).

Lemma from_sub enc rt mime (p q : MessagePart) (body : string) :
  q ∈ Parts p -> from_part enc rt mime q body -> from_part enc rt mime p body.
Proof.
  intros Hq (x & Hx & ?). exists x. split; [|done]. by eapply subparts_below.
Qed.

Lemma extractPlainText_from enc rt (p : MessagePart) :
  extractPlainText_part enc rt p <> "" ->
  from_part enc rt "text/plain" p (extractPlainText_part enc rt p).
Proof.
  induction p as [m b ps IH] using MessagePart_rect'.
  cbn [extractPlainText_part MimeType].
  destruct (String.eqb_spec (ToLower rt m) "text/plain") as [Hm|Hm];
    [destruct (has_data (Build_MessagePart m b ps)) eqn:Hd|]; cbn [andb].
  { intros _. exists (Build_MessagePart m b ps). split; [left|done]. }
  all: set (prefer := fix prefer (subs : list MessagePart) : string := _).
  all: set (any := fix any (subs : list MessagePart) : string := _).
  all: assert (forall qs, Forall (fun q => extractPlainText_part enc rt q <> "" ->
                 from_part enc rt "text/plain" q (extractPlainText_part enc rt q)) qs ->
               (forall q, q ∈ qs -> q ∈ ps) ->
               (prefer qs <> "" -> from_part enc rt "text/plain" (Build_MessagePart m b ps) (prefer qs))
               /\ (any qs <> "" -> from_part enc rt "text/plain" (Build_MessagePart m b ps) (any qs)))
         as Hloops
         by (intros qs Hqs; induction Hqs as [|q qs Hq _ IHqs]; intros Hsub; [done|];
             destruct IHqs as [IHp IHa]; [by intros; apply Hsub; right|];
             assert (q ∈ Parts (Build_MessagePart m b ps)) as Hin by (apply Hsub; left);
             cbn [prefer any];
             destruct (String.eqb (extractPlainText_part enc rt q) "") eqn:Hb; cbn [negb];
             [apply String.eqb_eq in Hb|apply String.eqb_neq in Hb];
             destruct (String.eqb (ToLower rt (MimeType q)) "text/plain");
             split; try done; intros _; eapply from_sub; eauto).
  all: destruct (Hloops ps IH (fun q Hq => Hq)) as [Hp Ha].
  all: destruct (String.eqb (prefer ps) "") eqn:Hb; cbn [negb];
    [done|apply String.eqb_neq in Hb; intros _; by apply Hp].
Qed.

Lemma extractHTML_from enc rt (p : MessagePart) :
  extractHTML_part enc rt p <> "" ->
  from_part enc rt "text/html" p (extractHTML_part enc rt p).
Proof.
  induction p as [m b ps IH] using MessagePart_rect'.
  cbn [extractHTML_part MimeType].
  destruct (String.eqb_spec (ToLower rt m) "text/html") as [Hm|Hm];
    [destruct (has_data (Build_MessagePart m b ps)) eqn:Hd|]; cbn [andb].
  { intros _. exists (Build_MessagePart m b ps). split; [left|done]. }
  all: set (any := fix any (subs : list MessagePart) : string := _).
  all: assert (forall qs, Forall (fun q => extractHTML_part enc rt q <> "" ->
                 from_part enc rt "text/html" q (extractHTML_part enc rt q)) qs ->
               (forall q, q ∈ qs -> q ∈ ps) ->
               any qs <> "" -> from_part enc rt "text/html" (Build_MessagePart m b ps) (any qs))
         as Hloop
         by (intros qs Hqs; induction Hqs as [|q qs Hq _ IHqs]; intros Hsub; [done|];
             assert (q ∈ Parts (Build_MessagePart m b ps)) as Hin by (apply Hsub; left);
             cbn [any];
             destruct (String.eqb (extractHTML_part enc rt q) "") eqn:Hb; cbn [negb];
             [apply IHqs; by intros; apply Hsub; right|];
             apply String.eqb_neq in Hb; intros _; eapply from_sub; eauto).
  all: exact (Hloop ps IH (fun q Hq => Hq)).
Qed.

(** X19: what [extractPlainText] and [extractHTML] return comes from a
    part of the right type.  A non-empty result of [extractPlainText] is
    the decoded data of a part of the tree whose MIME type is text/plain
    whatever the case, and whose body holds data; likewise for
    [extractHTML] and text/html; a nil part gives the empty string. *)
Theorem extract_from_typed_part (enc : GoEncoding) (rt : GoRuntime) (p : MessagePart) :
  (extractPlainText enc rt (Some p) <> "" ->
   from_part enc rt "text/plain" p (extractPlainText enc rt (Some p)))
  /\ (extractHTML enc rt (Some p) <> "" ->
      from_part enc rt "text/html" p (extractHTML enc rt (Some p)))
  /\ extractPlainText enc rt None = ""
  /\ extractHTML enc rt None = "".
Proof.
  split; [apply extractPlainText_from|]. split; [apply extractHTML_from|done].
Qed.

(** X20: [GetMessageBody] never returns an empty body without an error.
    When the fetch fails the error is wrapped with the id and the body is
    empty; otherwise the error is nil and the body is not empty: it is the
    plain text of the message when there is some, and for a message
    without payload the snippet, or the place holder (no content) when the
    snippet is empty. *)
Theorem GetMessageBody_never_empty (enc : GoEncoding) (rt : GoRuntime)
    (get_full : string -> error + FullMessage) (messageID : string) :
  match get_full messageID with
  | inl e =>
      GetMessageBody enc rt get_full messageID
      = ("", Some (Wrap ("get message " ++ messageID) e))
  | inr msg =>
      exists body,
        GetMessageBody enc rt get_full messageID = (body, None)
        /\ body <> ""
        /\ (extractPlainText enc rt (Payload msg) <> "" ->
            body = extractPlainText enc rt (Payload msg))
        /\ (Payload msg = None ->
            body = if String.eqb (Snippet msg) "" then "(no content)" else Snippet msg)
  end.
Proof.
  unfold GetMessageBody. destruct (get_full messageID) as [e|msg]; [done|].
  destruct (Payload msg) as [p|].
  - destruct (String.eqb_spec (extractPlainText enc rt (Some p)) "") as [Hp|Hp]; cbn [negb].
    + destruct (String.eqb_spec (extractHTML enc rt (Some p)) "") as [Hh|Hh]; cbn [negb];
        [|destruct (String.eqb_spec (stripHTMLTags rt (extractHTML enc rt (Some p))) "")
            as [Ht|Ht]; cbn [negb]].
      all: try (destruct (String.eqb_spec (Snippet msg) "") as [Hs|Hs]; cbn [negb]).
      all: eexists; split; [reflexivity|]; split; [done|]; split; done.
    + eexists. split; [reflexivity|]. split; [done|]. split; done.
  - destruct (String.eqb_spec (Snippet msg) "") as [Hs|Hs]; cbn [negb];
      (eexists; split; [reflexivity|]; split; [done|]; split; done).
Qed.

End body_spec.

(* ===================================================================== *)
(** * Stripping the tags of an HTML body                                  *)
(* ===================================================================== *)

Module strip_spec.
Import GoStrings.
Import gmail_body.
Import string_facts.
Open Scope list_scope.
#[local] Arguments String.append !_ _ / : simpl nomatch.

Section Bytes.
Variable p : ascii -> bool.

Lemma replace_from_bytes (s old new : string) (skip : nat) :
  str_forall p s = true -> str_forall p new = true ->
  str_forall p (replace_from skip s old new) = true.
Proof.
  intros Hs Hnew. revert skip Hs.
  induction s as [|c s IH]; intros skip Hs; [done|].
  cbn [str_forall] in Hs. apply andb_true_iff in Hs as [Hc Hs].
  cbn [replace_from]. destruct skip as [|k]; [|by apply IH].
  destruct (HasPrefix (String c s) old).
  - rewrite str_forall_app, Hnew. by apply IH.
  - cbn [str_forall]. rewrite Hc. by apply IH.
Qed.

Lemma break_blocks_bytes (rt : GoRuntime) (html : string) :
  str_forall p nl = true -> str_forall p html = true ->
  str_forall p (break_blocks rt html) = true.
Proof.
  intros Hnl. unfold break_blocks. generalize block_tags. intros tags. revert html.
  induction tags as [|tag tags IH]; intros html Hs; [done|].
  cbn [fold_left]. apply IH. unfold ReplaceAll. by repeat apply replace_from_bytes.
Qed.

Lemma strip_tags_bytes (s : string) (more : nat) (inTag : bool) :
  str_forall p rune_error = true -> str_forall p s = true ->
  str_forall p (strip_tags more inTag s) = true.
Proof.
  intros Herr. revert more inTag.
  induction s as [|a s IH]; intros more inTag Hs; [done|].
  cbn [str_forall] in Hs. apply andb_true_iff in Hs as [Ha Hs].
  cbn [strip_tags]. destruct more as [|k].
  - destruct (code a =? 60)%N; [by apply IH|].
    destruct (code a =? 62)%N; [by apply IH|].
    destruct (rune_len (String a s)); destruct inTag; try (by apply IH).
    + rewrite str_forall_app, Herr. by apply IH.
    + cbn [str_forall]. rewrite Ha. by apply IH.
  - destruct inTag; [by apply IH|]. cbn [str_forall]. rewrite Ha. by apply IH.
Qed.

Lemma collapse_blank_bytes (fuel : nat) (s : string) :
  str_forall p nl = true -> str_forall p s = true ->
  str_forall p (collapse_blank fuel s) = true.
Proof.
  intros Hnl. revert s. induction fuel as [|fuel IH]; intros s Hs; [done|].
  cbn [collapse_blank]. destruct (Contains s _); [|done].
  apply IH. unfold ReplaceAll. apply replace_from_bytes; [done|].
  by rewrite str_forall_app, Hnl.
Qed.

Lemma trim_space_left_bytes (fuel : nat) (s : string) :
  str_forall p s = true -> str_forall p (trim_space_left fuel s) = true.
Proof.
  revert s. induction fuel as [|fuel IH]; intros s Hs; [done|].
  cbn [trim_space_left]. destruct (space_prefix s); [done|].
  apply IH. by apply str_forall_drop.
Qed.

Lemma trim_space_right_bytes (fuel : nat) (s : string) :
  str_forall p s = true -> str_forall p (trim_space_right_rev fuel s) = true.
Proof.
  revert s. induction fuel as [|fuel IH]; intros s Hs; [done|].
  cbn [trim_space_right_rev]. destruct (space_suffix_rev s); [done|].
  apply IH. by apply str_forall_drop.
Qed.

Lemma TrimSpace_bytes (s : string) :
  str_forall p s = true -> str_forall p (TrimSpace s) = true.
Proof.
  intros Hs. unfold TrimSpace. rewrite str_forall_rev.
  apply trim_space_right_bytes. rewrite str_forall_rev. by apply trim_space_left_bytes.
Qed.

End Bytes.

(** A text without ampersand holds no entity. *)
Lemma no_entity (s : string) :
  lacks "&" s = true -> replacer_from 0 entities s = s.
Proof.
  induction s as [|c s IH]; [done|].
  unfold lacks. cbn [str_forall]. intros [Hc Hs]%andb_true_iff.
  cbn [replacer_from].
  assert (lookup_pair entities (String c s) = None) as ->.
  { apply negb_true_iff, Ascii.eqb_neq in Hc. unfold entities.
    cbn [lookup_pair HasPrefix].
    destruct (ascii_dec "&" c) as [<-|_]; [done|reflexivity]. }
  by rewrite IH.
Qed.

(** The bytes of the rune the loop is at, still to come, are bytes of a
    multi-byte encoding. *)
Fixpoint high_bytes (more : nat) (s : string) : bool :=
  match more, s with
  | O, _ => true
  | S k, String a r => (128 <=? code a)%N && high_bytes k r
  | S _, EmptyString => true
  end.

Lemma rune_len_high (a : ascii) (s : string) (k : nat) :
  rune_len (String a s) = S k -> high_bytes k s = true.
Proof.
  unfold rune_len, continuation.
  destruct (code a <? 128)%N; [by intros [= <-]|].
  destruct (code a <? 194)%N; [done|].
  destruct (code a <? 224)%N.
  { destruct s as [|b s]; [done|].
    destruct (128 <=? code b)%N eqn:Hb; [|done]. destruct (code b <=? 191)%N; [|done].
    intros [= <-]. cbn. by rewrite Hb. }
  destruct (code a <? 240)%N.
  { destruct s as [|b [|c s]]; [done..|].
    destruct ((if (code a =? 224)%N then 160%N else 128%N) <=? code b)%N eqn:Hb; [|done].
    destruct (code b <=? _)%N; [|done].
    destruct (128 <=? code c)%N eqn:Hc; [|done]. destruct (code c <=? 191)%N; [|done].
    intros [= <-]. cbn. rewrite Hc, andb_true_r. apply N.leb_le. apply N.leb_le in Hb.
    destruct (code a =? 224)%N; lia. }
  destruct (code a <? 245)%N; [|done].
  destruct s as [|b [|c [|d s]]]; [done..|].
  destruct ((if (code a =? 240)%N then 144%N else 128%N) <=? code b)%N eqn:Hb; [|done].
  destruct (code b <=? _)%N; [|done].
  destruct (128 <=? code c)%N eqn:Hc; [|done]. destruct (code c <=? 191)%N; [|done].
  destruct (128 <=? code d)%N eqn:Hd; [|done]. destruct (code d <=? 191)%N; [|done].
  intros [= <-]. cbn. rewrite Hc, Hd, !andb_true_r. apply N.leb_le. apply N.leb_le in Hb.
  destruct (code a =? 240)%N; lia.
Qed.

Lemma high_not (c : ascii) (a : ascii) :
  (N_of_ascii c < 128)%N -> (128 <=? code a)%N = true -> Ascii.eqb a c = false.
Proof.
  intros Hc Ha. apply Ascii.eqb_neq. intros ->. apply N.leb_le in Ha. unfold code in Ha. lia.
Qed.

(** What the loop writes holds no angle bracket. *)
Lemma strip_tags_no_bracket (c : ascii) (s : string) (more : nat) (inTag : bool) :
  c = "<"%char \/ c = ">"%char ->
  high_bytes more s = true -> lacks c (strip_tags more inTag s) = true.
Proof.
  intros Hc. assert (N_of_ascii c < 128)%N as Hlow by (destruct Hc as [->| ->]; cbn; lia).
  assert (lacks c rune_error = true) as Herr by (destruct Hc as [->| ->]; reflexivity).
  revert more inTag. induction s as [|a s IH]; intros more inTag Hhigh; [done|].
  cbn [strip_tags]. destruct more as [|k].
  - destruct (code a =? 60)%N eqn:H60; [by apply IH|].
    destruct (code a =? 62)%N eqn:H62; [by apply IH|].
    assert (Ascii.eqb a c = false) as Hac.
    { apply Ascii.eqb_neq. intros ->. apply N.eqb_neq in H60, H62.
      destruct Hc as [->| ->]; [by apply H60|by apply H62]. }
    destruct (rune_len (String a s)) as [|k] eqn:Hlen.
    + destruct inTag; [by apply IH|].
      unfold lacks in *. rewrite str_forall_app, Herr. by apply IH.
    + apply rune_len_high in Hlen.
      destruct inTag; [by apply IH|].
      unfold lacks in *. cbn [str_forall]. rewrite Hac. by apply IH.
  - cbn [high_bytes] in Hhigh. apply andb_true_iff in Hhigh as [Ha Hhigh].
    destruct inTag; [by apply IH|].
    unfold lacks in *. cbn [str_forall]. rewrite (high_not c a) by done. by apply IH.
Qed.

(** Inside a tag that is never closed nothing is kept. *)
Lemma strip_tags_unclosed (s : string) (more : nat) :
  lacks ">" s = true -> strip_tags more true s = "".
Proof.
  revert more. induction s as [|a s IH]; intros more; [done|].
  unfold lacks. cbn [str_forall]. intros [Ha Hs]%andb_true_iff.
  cbn [strip_tags]. destruct more as [|k]; [|by apply IH].
  destruct (code a =? 60)%N; [by apply IH|].
  destruct (N.eqb_spec (code a) 62) as [H62|_].
  { apply negb_true_iff, Ascii.eqb_neq in Ha. destruct Ha.
    rewrite <- (ascii_N_embedding a). unfold code in H62. by rewrite H62. }
  destruct (rune_len (String a s)); by apply IH.
Qed.

(** X21: [stripHTMLTags] leaves no tag behind.  The loop over the runes
    writes no angle bracket, and once inside a tag that is never closed it
    writes nothing more, so a text such as "5 < 6" is cut at the
    bracket; the angle brackets of the result can only come from the
    entities [&lt;] and [&gt;]: for a text without ampersand the result
    holds none. *)
Theorem stripHTMLTags_no_bracket (rt : GoRuntime) (html : string) :
  lacks "<" (strip_tags 0 false html) = true
  /\ lacks ">" (strip_tags 0 false html) = true
  /\ (lacks ">" html = true -> strip_tags 0 true html = "")
  /\ (lacks "&" html = true ->
      lacks "<" (stripHTMLTags rt html) = true /\ lacks ">" (stripHTMLTags rt html) = true)
  /\ stripHTMLTags rt "5 < 6" = "5".
Proof.
  split; [apply strip_tags_no_bracket; [by left|done]|].
  split; [apply strip_tags_no_bracket; [by right|done]|].
  split; [apply strip_tags_unclosed|]. split; [|reflexivity].
  intros Hamp. unfold stripHTMLTags.
  assert (lacks "&" (strip_tags 0 false (break_blocks rt html)) = true) as Hamp'.
  { apply strip_tags_bytes; [reflexivity|]. by apply break_blocks_bytes. }
  rewrite (no_entity _ Hamp').
  split; apply TrimSpace_bytes, collapse_blank_bytes; try reflexivity;
    apply strip_tags_no_bracket; (by left) || (by right) || done.
Qed.

Lemma stripHTMLTags_no_bracket_witness :
  lacks "<" (stripHTMLTags ascii_runtime "<p>Dear <b>Bob</b>,</p><br>see you") = true.
Proof.
  refine (proj1 (proj1 (proj2 (proj2 (proj2
    (stripHTMLTags_no_bracket ascii_runtime "<p>Dear <b>Bob</b>,</p><br>see you")))) _)).
  reflexivity.
Defined.

End strip_spec.

(* ===================================================================== *)
(** * The fields of a group                                               *)
(* ===================================================================== *)

Module group_spec.
Import GoStrings.
Import util.
Import gmail_fetch.
Import aggregate_spec.
Import unsubscribe_spec.
Open Scope list_scope.

(** The first string of a list that is not empty; the empty string when
    there is none. *)
Definition first_of (l : list string) : string :=
  default "" (head (filter (fun s => s <> "") l)).

(** The dates of the records that are not blank, trimmed. *)
Definition dates (ms : list MessageRef.t) : list string :=
  filter (fun d => d <> "") (map (fun m => TrimSpace (MessageRef.DateRFC3339 m)) ms).

(** The HTTP links of the records. *)
Definition links (rt : GoRuntime) (ms : list MessageRef.t) : list string :=
  map (fun m => extractHTTPUnsubscribeURL rt (MessageRef.ListUnsubscribe m)) ms.

(** [first] and [last] are the least and the greatest of [ds] in the order
    of strings; both are empty when [ds] is. *)
Definition bounds (ds : list string) (first last : string) : Prop :=
  (ds = [] -> first = "" /\ last = "")
  /\ (ds <> [] -> first ∈ ds /\ last ∈ ds)
  /\ Forall (fun d => String.ltb d first = false /\ String.ltb last d = false) ds.

(** The group was made for the first of [ms]. *)
Definition founded (rt : GoRuntime) (g : SenderGroup.t) (ms : list MessageRef.t) : Prop :=
  match ms with
  | [] => False
  | m0 :: _ =>
      SenderGroup.Email g = NormalizeSender rt (MessageRef.From m0)
      /\ SenderGroup.Subject g = MessageRef.Subject m0
      /\ SenderGroup.DisplayName g
         = displayNameFromFrom rt (MessageRef.From m0) (NormalizeSender rt (MessageRef.From m0))
  end.

Definition fields_ok (rt : GoRuntime) (msgs : list MessageRef.t)
    (groups : gmap string SenderGroup.t) : Prop :=
  forall key g, groups !! key = Some g ->
    founded rt g (members rt key msgs)
    /\ SenderGroup.Sample g = first_of (map MessageRef.Subject (members rt key msgs))
    /\ SenderGroup.UnsubscribeURL g = first_of (links rt (members rt key msgs))
    /\ bounds (dates (members rt key msgs)) (SenderGroup.FirstDate g) (SenderGroup.LastDate g).

Lemma first_of_snoc (l : list string) (s : string) :
  first_of (l ++ [s]) = if decide (first_of l = "" /\ s <> "") then s else first_of l.
Proof.
  unfold first_of. rewrite filter_app, filter_cons, filter_nil.
  destruct (filter _ l) as [|x xs] eqn:E.
  - cbn [app]. destruct (decide (s <> "")) as [Hs|Hs].
    + by rewrite decide_True.
    + rewrite decide_False by (intros [_ ?]; done). done.
  - cbn. rewrite decide_False; [done|]. intros [Hx _].
    assert (x ∈ filter (fun s => s <> "") l) as Hin by (rewrite E; left).
    by apply list_elem_of_filter in Hin as [? _].
Qed.

Lemma extract_empty (rt : GoRuntime) : extractHTTPUnsubscribeURL rt "" = "".
Proof.
  reflexivity.
Qed.

Lemma first_of_empty (l : list string) :
  first_of l = "" <-> Forall (fun s => s = "") l.
Proof.
  unfold first_of. induction l as [|s l IH]; [by split|].
  rewrite filter_cons. destruct (decide (s <> "")) as [Hs|Hs].
  - cbn. split; [done|]. intros H. by apply Forall_cons in H as [? _].
  - rewrite IH. apply dec_stable in Hs. split.
    + intros H. by apply Forall_cons.
    + intros H. by apply Forall_cons in H as [_ ?].
Qed.

Lemma first_of_elem (l : list string) : first_of l = "" \/ first_of l ∈ l.
Proof.
  unfold first_of. destruct (filter _ l) as [|x xs] eqn:E; [by left|right]. cbn.
  assert (x ∈ filter (fun s => s <> "") l) as Hin by (rewrite E; left).
  by apply list_elem_of_filter in Hin as [_ ?].
Qed.

Lemma dates_nonempty (ms : list MessageRef.t) : Forall (fun d => d <> "") (dates ms).
Proof.
  apply Forall_forall. intros d Hd. by apply list_elem_of_filter in Hd as [? _].
Qed.

(** One record more: the two dates of the group after the round. *)
Lemma bounds_snoc (ds : list string) (first last ts : string) :
  Forall (fun d => d <> "") ds ->
  bounds ds first last ->
  bounds (ds ++ (if decide (ts <> "") then [ts] else []))
    (if negb (String.eqb ts "") && (String.eqb first "" || String.ltb ts first)
     then ts else first)
    (if negb (String.eqb ts "") && (String.eqb last "" || String.ltb last ts)
     then ts else last).
Proof.
  intros Hne (Hnil & Hin & Hall).
  destruct (String.eqb_spec ts "") as [->|Hts].
  { rewrite decide_False by (intros ?; done). cbn. by rewrite app_nil_r. }
  rewrite decide_True by done. cbn [negb andb].
  destruct ds as [|d0 ds].
  { destruct Hnil as [-> ->]; [done|]. cbn.
    split; [done|]. split; [intros _; split; left|].
    apply Forall_cons. split; [|done]. by rewrite ltb_irrefl. }
  destruct Hin as [Hf Hl]; [done|].
  assert (first <> "") as Hf0.
  { eapply Forall_forall in Hne; [exact Hne|exact Hf]. }
  assert (last <> "") as Hl0.
  { eapply Forall_forall in Hne; [exact Hne|exact Hl]. }
  destruct (String.eqb_spec first "") as [?|_]; [done|].
  destruct (String.eqb_spec last "") as [?|_]; [done|]. cbn [orb].
  split; [by destruct ds|]. split.
  - intros _. split.
    + destruct (String.ltb ts first); [apply elem_of_app; right; left|apply elem_of_app; by left].
    + destruct (String.ltb last ts); [apply elem_of_app; right; left|apply elem_of_app; by left].
  - apply Forall_app. split.
    + eapply Forall_impl; [exact Hall|]. cbn. intros d [Hd1 Hd2]. split.
      * destruct (String.ltb ts first) eqn:E; [|done].
        destruct (String.ltb d ts) eqn:E'; [|done].
        by rewrite (ltb_trans d ts first) in Hd1.
      * destruct (String.ltb last ts) eqn:E; [|done].
        destruct (String.ltb ts d) eqn:E'; [|done].
        by rewrite (ltb_trans last ts d) in Hd2.
    + apply Forall_cons. split; [|done]. split.
      * destruct (String.ltb ts first) eqn:E; [apply ltb_irrefl|done].
      * destruct (String.ltb last ts) eqn:E; [apply ltb_irrefl|done].
Qed.

Lemma members_snoc rt key msgs m :
  members rt key (msgs ++ [m])
  = members rt key msgs ++ (if decide (member rt key m) then [m] else []).
Proof. unfold members. by rewrite filter_app, filter_cons, filter_nil. Qed.

Lemma dates_snoc ms m :
  dates (ms ++ [m])
  = dates ms ++ (if decide (TrimSpace (MessageRef.DateRFC3339 m) <> "")
                 then [TrimSpace (MessageRef.DateRFC3339 m)] else []).
Proof.
  unfold dates. rewrite map_app, filter_app. cbn [map].
  by rewrite filter_cons, filter_nil.
Qed.

Lemma founded_snoc rt g ms m : founded rt g ms -> founded rt g (ms ++ [m]).
Proof. by destruct ms. Qed.

(** One round of the loop keeps the fields. *)
Lemma aggregate_step_fields rt msgs groups m :
  group_ok rt msgs groups ->
  fields_ok rt msgs groups ->
  fields_ok rt (msgs ++ [m]) (aggregate_step rt groups m).
Proof.
  intros Hcount Hok key g'. unfold aggregate_step. rewrite members_snoc.
  destruct (decide (NormalizeSender rt (MessageRef.From m) = "")) as [He|He].
  { rewrite (decide_False (P := member rt key m)) by (intros [? _]; done).
    rewrite app_nil_r. apply Hok. }
  set (k := (NormalizeSender rt (MessageRef.From m) ++ "||" ++ MessageRef.Subject m)%string).
  destruct (decide (k = key)) as [<-|Hk].
  2:{ rewrite (decide_False (P := member rt key m)) by (intros [_ ?]; done).
      rewrite app_nil_r, lookup_insert_ne by done. apply Hok. }
  rewrite (decide_True (P := member rt k m)) by (split; [exact He|reflexivity]).
  rewrite lookup_insert_eq. intros [= <-]. cbn.
  unfold links. rewrite !map_app. cbn [map]. rewrite !first_of_snoc, dates_snoc.
  specialize (Hcount k). specialize (Hok k).
  destruct (groups !! k) as [g|].
  - destruct (Hok g eq_refl) as (Hf & Hs & Hu & Hd).
    unfold links in Hu.
    split; [by apply founded_snoc|]. cbn. rewrite <- Hs, <- Hu.
    split; [done|]. split.
    + destruct (decide (MessageRef.ListUnsubscribe m = "")) as [->|Hl].
      * rewrite extract_empty. by rewrite !decide_False by (intros [_ ?]; done).
      * destruct (decide (SenderGroup.UnsubscribeURL g = "")) as [->|Hg].
        -- rewrite decide_True by done.
           destruct (decide (extractHTTPUnsubscribeURL rt (MessageRef.ListUnsubscribe m) = ""))
             as [->|Hx]; [by rewrite decide_False by (intros [_ ?]; done)|].
           by rewrite decide_True.
        -- by rewrite !decide_False by (intros [? _]; done).
    + apply bounds_snoc; [apply dates_nonempty|exact Hd].
  - rewrite Hcount. cbn.
    split; [done|]. split; [done|]. split.
    + destruct (decide (MessageRef.ListUnsubscribe m = "")) as [->|Hl].
      * rewrite extract_empty. by rewrite !decide_False by (intros [_ ?]; done).
      * rewrite decide_True by done.
        destruct (decide (extractHTTPUnsubscribeURL rt (MessageRef.ListUnsubscribe m) = ""))
          as [->|Hx]; [by rewrite decide_False by (intros [_ ?]; done)|].
        by rewrite decide_True.
    + apply (bounds_snoc [] "" ""); [done|]. by split.
Qed.

Lemma aggregate_fields rt msgs : fields_ok rt msgs (AggregateBySenderSubject rt msgs).
Proof.
  induction msgs as [|m msgs IH] using rev_ind.
  - intros key g. unfold AggregateBySenderSubject. cbn [fold_left].
    by rewrite lookup_empty.
  - pose proof (aggregate_ok rt msgs) as Hc. revert Hc IH.
    unfold AggregateBySenderSubject. rewrite fold_left_app. cbn [fold_left].
    apply aggregate_step_fields.
Qed.

Lemma extract_scheme (rt : GoRuntime) (header : string) :
  extractHTTPUnsubscribeURL rt header = ""
  \/ has_http_scheme rt (extractHTTPUnsubscribeURL rt header) = true.
Proof.
  unfold extractHTTPUnsubscribeURL. rewrite first_http_part_entries.
  apply first_http_scheme.
Qed.

(** Three letters of one sender: the first names only a mailto link, the
    second is the oldest, the third has no date. *)
Definition newsletters : list MessageRef.t :=
  [ MessageRef.mk "1" "News" "2024-03-01T10:00:00Z" "The News <News@Example.com>"
      "<mailto:u@example.com>" "";
    MessageRef.mk "2" "News" " 2024-02-01T10:00:00Z" "news@example.com"
      "<mailto:u@example.com>, <https://example.com/u>" "";
    MessageRef.mk "3" "News" "" "news+x@example.com" "<http://example.com/late>" "" ].

Definition news : SenderGroup.t :=
  SenderGroup.mk "news@example.com" "News" "The News" 3 "News"
    "2024-02-01T10:00:00Z" "2024-03-01T10:00:00Z" ["1"; "2"; "3"] "https://example.com/u".

(** X22: who a group stands for.  The group under a key was made for the
    first record of the input that falls under this key: its [Email] is
    the normalised sender of this record and is not empty, its [Subject]
    is the subject of this record, the key is [Email||Subject], and its
    [DisplayName] is computed from the raw From header of this record
    alone.  Its [Sample] is the first subject of its records that is not
    empty, which is the [Subject] of the group when this one is not
    empty. *)
Theorem group_identity (rt : GoRuntime) (msgs : list MessageRef.t) (key : string)
    (g : SenderGroup.t) :
  AggregateBySenderSubject rt msgs !! key = Some g ->
  exists m0 rest,
    members rt key msgs = m0 :: rest
    /\ SenderGroup.Email g = NormalizeSender rt (MessageRef.From m0)
    /\ SenderGroup.Email g <> ""
    /\ SenderGroup.Subject g = MessageRef.Subject m0
    /\ key = (SenderGroup.Email g ++ "||" ++ SenderGroup.Subject g)%string
    /\ SenderGroup.DisplayName g
       = displayNameFromFrom rt (MessageRef.From m0) (SenderGroup.Email g)
    /\ SenderGroup.Sample g = first_of (map MessageRef.Subject (m0 :: rest))
    /\ (SenderGroup.Subject g <> "" -> SenderGroup.Sample g = SenderGroup.Subject g).
Proof.
  intros Hg. destruct (aggregate_fields rt msgs key g Hg) as (Hf & Hs & _ & _).
  destruct (members rt key msgs) as [|m0 rest] eqn:Hm; [done|].
  destruct Hf as (He & Hsub & Hd).
  assert (m0 ∈ members rt key msgs) as Hin by (rewrite Hm; left).
  apply list_elem_of_filter in Hin as [[Hne Hkey] _].
  exists m0, rest. rewrite He, Hsub.
  repeat split; try done.
  rewrite Hs. intros Hne'. unfold first_of. cbn [map]. rewrite filter_cons.
  by rewrite decide_True.
Qed.

Lemma group_identity_witness :
  AggregateBySenderSubject ascii_runtime newsletters !! "news@example.com||News" = Some news
  /\ exists m0 rest,
       members ascii_runtime "news@example.com||News" newsletters = m0 :: rest
       /\ SenderGroup.DisplayName news
          = displayNameFromFrom ascii_runtime (MessageRef.From m0) (SenderGroup.Email news).
Proof.
  split; [vm_compute; reflexivity|].
  destruct (group_identity ascii_runtime newsletters "news@example.com||News" news)
    as (m0 & rest & Hm & _ & _ & _ & _ & Hd & _); [vm_compute; reflexivity|].
  exists m0, rest. split; [exact Hm|exact Hd].
Defined.

(** X23: the two dates of a group.  Among the dates of its records,
    trimmed, that are not blank, [FirstDate] is the least and [LastDate]
    the greatest in the order of strings; both are empty when no record of
    the group has a date.  [LastDate] is never before [FirstDate]. *)
Theorem group_dates (rt : GoRuntime) (msgs : list MessageRef.t) (key : string)
    (g : SenderGroup.t) :
  AggregateBySenderSubject rt msgs !! key = Some g ->
  (dates (members rt key msgs) = [] ->
   SenderGroup.FirstDate g = "" /\ SenderGroup.LastDate g = "")
  /\ (dates (members rt key msgs) <> [] ->
      SenderGroup.FirstDate g ∈ dates (members rt key msgs)
      /\ SenderGroup.LastDate g ∈ dates (members rt key msgs))
  /\ Forall (fun d => String.ltb d (SenderGroup.FirstDate g) = false
                      /\ String.ltb (SenderGroup.LastDate g) d = false)
       (dates (members rt key msgs))
  /\ String.ltb (SenderGroup.LastDate g) (SenderGroup.FirstDate g) = false.
Proof.
  intros Hg. destruct (aggregate_fields rt msgs key g Hg) as (_ & _ & _ & Hnil & Hin & Hall).
  split; [exact Hnil|]. split; [exact Hin|]. split; [exact Hall|].
  destruct (dates (members rt key msgs)) as [|d ds] eqn:Hd.
  - by destruct Hnil as [-> ->].
  - destruct Hin as [Hf _]; [done|].
    eapply Forall_forall in Hall; [|exact Hf]. by destruct Hall.
Qed.

Lemma group_dates_witness :
  dates (members ascii_runtime "news@example.com||News" newsletters)
  = ["2024-03-01T10:00:00Z"; "2024-02-01T10:00:00Z"]
  /\ String.ltb (SenderGroup.LastDate news) (SenderGroup.FirstDate news) = false.
Proof.
  split; [vm_compute; reflexivity|].
  refine (proj2 (proj2 (proj2
    (group_dates ascii_runtime newsletters "news@example.com||News" news _)))).
  vm_compute. reflexivity.
Defined.

(** X24: the unsubscribe link of a group is the HTTP link of the first of
    its records whose List-Unsubscribe header holds one: a record that
    names only a mailto link does not keep a later record from giving the
    link.  The link is empty or has an http or https scheme, and it is
    empty exactly when no record of the group has an HTTP link. *)
Theorem group_unsubscribe_url (rt : GoRuntime) (msgs : list MessageRef.t) (key : string)
    (g : SenderGroup.t) :
  AggregateBySenderSubject rt msgs !! key = Some g ->
  SenderGroup.UnsubscribeURL g = first_of (links rt (members rt key msgs))
  /\ (SenderGroup.UnsubscribeURL g = ""
      \/ has_http_scheme rt (SenderGroup.UnsubscribeURL g) = true)
  /\ (SenderGroup.UnsubscribeURL g = ""
      <-> Forall (fun m => extractHTTPUnsubscribeURL rt (MessageRef.ListUnsubscribe m) = "")
            (members rt key msgs)).
Proof.
  intros Hg. destruct (aggregate_fields rt msgs key g Hg) as (_ & _ & Hu & _).
  split; [exact Hu|]. rewrite Hu. split.
  - destruct (first_of_elem (links rt (members rt key msgs))) as [?|Hin]; [by left|].
    unfold links in Hin at 2. apply list_elem_of_fmap in Hin as (m & -> & _).
    apply extract_scheme.
  - rewrite first_of_empty. unfold links. by rewrite Forall_fmap.
Qed.

Lemma group_unsubscribe_url_witness :
  links ascii_runtime (members ascii_runtime "news@example.com||News" newsletters)
  = [""; "https://example.com/u"; "http://example.com/late"]
  /\ SenderGroup.UnsubscribeURL news
     = first_of (links ascii_runtime
                   (members ascii_runtime "news@example.com||News" newsletters)).
Proof.
  split; [vm_compute; reflexivity|].
  refine (proj1 (group_unsubscribe_url ascii_runtime newsletters
                   "news@example.com||News" news _)).
  vm_compute. reflexivity.
Defined.

Lemma Split_head_first (c : ascii) (r : string) (sep : ascii) :
  (exists ps, ps <> [] /\ Split (String c r) sep = "" :: ps)
  \/ (exists p ps, Split (String c r) sep = String c p :: ps).
Proof.
  cbn [Split]. destruct (ascii_dec c sep) as [_|_].
  - left. exists (Split r sep). split; [|done]. destruct r; cbn; [done|].
    destruct (ascii_dec _ _); [done|]. by destruct (Split r sep).
  - right. destruct (Split r sep) as [|p ps]; eauto.
Qed.

Lemma Join_first_nonempty (p : string) (ps : list string) (sep : string) :
  p <> "" -> Join (p :: ps) sep <> "".
Proof. destruct p; [done|]. intros _. by destruct ps. Qed.

Lemma Join_two_nonempty (p q : string) (qs : list string) (c : ascii) (sep : string) :
  Join (p :: q :: qs) (String c sep) <> "".
Proof. cbn [Join]. by destruct p. Qed.

(** The display name is not empty when the address is not, for an address
    of ASCII bytes. *)
Lemma displayNameFromFrom_nonempty (rt : GoRuntime) (fromHeader normalized : string) :
  normalized <> "" ->
  str_forall is_ascii_byte normalized = true ->
  displayNameFromFrom rt fromHeader normalized <> "".
Proof.
  intros Hne Hascii. unfold displayNameFromFrom.
  destruct (negb (String.eqb _ "")) eqn:Hname.
  { apply negb_true_iff in Hname. by destruct (String.eqb_spec
      (if (IndexByte fromHeader "<" >? 0)%Z
       then Trim (TrimSpace (take (Z.to_nat (IndexByte fromHeader "<")) fromHeader))
              (String mail.dquote "'")
       else "") ""). }
  destruct (IndexByte normalized "@" >? 0)%Z eqn:Hat; [|done].
  destruct normalized as [|c r]; [done|].
  apply Z.gtb_lt in Hat.
  destruct (Z.to_nat (IndexByte (String c r) "@")) as [|k] eqn:Hk; [lia|].
  cbn [take]. cbn [str_forall] in Hascii. apply andb_true_iff in Hascii as [Hc _].
  destruct (Split_head_first c (take k r) ".") as [(ps & Hps & ->)|(p & ps & ->)].
  - destruct ps as [|q qs]; [done|]. cbn [map]. apply Join_two_nonempty.
  - cbn [map]. apply Join_first_nonempty.
    unfold capitalise. rewrite decide_False by done. cbn [take].
    unfold ToUpper. cbn [str_forall]. by rewrite Hc.
Qed.

(** X25: no group is shown without a name.  When the [Email] of a group
    holds ASCII bytes only, its [DisplayName] is not empty, whichever way
    [displayNameFromFrom] takes: the name before the angle bracket of the
    From header, the capitalised pieces of the local part, or the address
    itself. *)
Theorem group_display_name (rt : GoRuntime) (msgs : list MessageRef.t) (key : string)
    (g : SenderGroup.t) :
  AggregateBySenderSubject rt msgs !! key = Some g ->
  str_forall is_ascii_byte (SenderGroup.Email g) = true ->
  SenderGroup.DisplayName g <> "".
Proof.
  intros Hg Hascii. destruct (aggregate_fields rt msgs key g Hg) as (Hf & _).
  destruct (members rt key msgs) as [|m0 rest] eqn:Hm; [done|].
  destruct Hf as (He & _ & ->).
  assert (m0 ∈ members rt key msgs) as Hin by (rewrite Hm; left).
  apply list_elem_of_filter in Hin as [[Hne _] _].
  rewrite He in Hascii. by apply displayNameFromFrom_nonempty.
Qed.

Lemma group_display_name_witness : SenderGroup.DisplayName news <> "".
Proof.
  refine (group_display_name ascii_runtime newsletters "news@example.com||News" news _ _);
    vm_compute; reflexivity.
Defined.

(** The key is one string: two records of different senders and
    subjects fall into one group when their keys meet. *)
Example one_key_two_senders :
  map snd (map_to_list (AggregateBySenderSubject ascii_runtime
    [ MessageRef.mk "1" "y" "" "u@x.com||" "" "";
      MessageRef.mk "2" "||y" "" "u@x.com" "" "" ]))
  = [ SenderGroup.mk "u@x.com||" "y" "U" 2 "y" "" "" ["1"; "2"] "" ].
Proof. vm_compute. reflexivity. Qed.

End group_spec.

(* ===================================================================== *)
(** * Blank lines of a stripped text                                      *)
(* ===================================================================== *)

Module blank_spec.
Import GoStrings.
Import gmail_body.
Import string_facts.
Open Scope list_scope.
#[local] Arguments String.append !_ _ / : simpl nomatch.

(** Three line feeds in a row. *)
Definition blank_run : string := (nl ++ nl ++ nl)%string.

Lemma HasPrefix_length (s p : string) :
  HasPrefix s p = true -> (String.length p <= String.length s)%nat.
Proof.
  revert s. induction p as [|a p IH]; intros s; cbn; [lia|].
  destruct s as [|b s]; [done|]. cbn.
  destruct (ascii_dec a b); [|done]. intros H%IH. lia.
Qed.

Lemma HasPrefix_app (s t p : string) :
  HasPrefix s p = true -> HasPrefix (s ++ t) p = true.
Proof.
  revert s. induction p as [|a p IH]; intros s.
  - intros _. by destruct (s ++ t)%string.
  - destruct s as [|b s]; [done|]. cbn.
    destruct (ascii_dec a b); [apply IH|done].
Qed.

(** A text that holds [p] still holds it with more text around. *)
Lemma Contains_app_r (s t p : string) :
  Contains s p = true -> Contains (s ++ t) p = true.
Proof.
  induction s as [|c s IH].
  - cbn [Contains]. rewrite orb_false_r. intros H.
    destruct p; [by destruct t|done].
  - cbn [Contains String.append]. intros [H|H]%orb_true_iff.
    + pose proof (HasPrefix_app (String c s) t p H) as H'.
      cbn [String.append] in H'. by rewrite H'.
    + rewrite (IH H). apply orb_true_r.
Qed.

Lemma Contains_app_l (s t p : string) :
  Contains t p = true -> Contains (s ++ t) p = true.
Proof.
  intros H. induction s as [|c s IH]; [done|].
  cbn [Contains String.append]. rewrite IH. apply orb_true_r.
Qed.

Lemma take_drop (n : nat) (s : string) : (take n s ++ drop n s)%string = s.
Proof.
  revert n. induction s as [|c s IH]; intros [|n]; cbn; try done. by rewrite IH.
Qed.

Lemma trim_space_left_suffix (fuel : nat) (s : string) :
  exists a, s = (a ++ trim_space_left fuel s)%string.
Proof.
  revert s. induction fuel as [|fuel IH]; intros s; [by exists ""|].
  cbn [trim_space_left]. destruct (space_prefix s) as [|n]; [by exists ""|].
  destruct (IH (drop (S n) s)) as [a Ha].
  exists (take (S n) s ++ a)%string.
  rewrite append_assoc, <- Ha. by rewrite take_drop.
Qed.

Lemma trim_space_right_suffix (fuel : nat) (r : string) :
  exists a, r = (a ++ trim_space_right_rev fuel r)%string.
Proof.
  revert r. induction fuel as [|fuel IH]; intros r; [by exists ""|].
  cbn [trim_space_right_rev]. destruct (space_suffix_rev r) as [|n]; [by exists ""|].
  destruct (IH (drop (S n) r)) as [a Ha].
  exists (take (S n) r ++ a)%string.
  rewrite append_assoc, <- Ha. by rewrite take_drop.
Qed.

(** [TrimSpace] cuts at both ends only. *)
Lemma TrimSpace_infix (s : string) :
  exists a b, s = (a ++ TrimSpace s ++ b)%string.
Proof.
  unfold TrimSpace.
  destruct (trim_space_left_suffix (String.length s) s) as [a Ha].
  set (l := trim_space_left (String.length s) s) in *.
  destruct (trim_space_right_suffix (String.length l) (String.rev l)) as [b Hb].
  exists a, (String.rev b). rewrite <- rev_append, <- Hb, rev_involutive. exact Ha.
Qed.

(** What [ReplaceAll] writes is no longer than what it reads, when [new]
    is no longer than [old]. *)
Lemma replace_from_length (s old new : string) (skip : nat) :
  (String.length new <= String.length old)%nat ->
  (String.length (replace_from skip s old new) <= String.length s - skip)%nat.
Proof.
  intros Hlen. revert skip. induction s as [|c s IH]; intros skip; [cbn; lia|].
  cbn [replace_from]. destruct skip as [|k].
  2:{ specialize (IH k). cbn [String.length]. lia. }
  destruct (HasPrefix (String c s) old) eqn:Hp.
  - apply HasPrefix_length in Hp. cbn [String.length] in *.
    rewrite length_append. specialize (IH (String.length old - 1)%nat). lia.
  - cbn [String.length]. specialize (IH 0%nat). lia.
Qed.

(** It is shorter when [new] is shorter than [old] and [old] occurs. *)
Lemma ReplaceAll_shorter (s old new : string) :
  (String.length new < String.length old)%nat ->
  Contains s old = true ->
  (String.length (ReplaceAll s old new) < String.length s)%nat.
Proof.
  intros Hlen. unfold ReplaceAll. induction s as [|c s IH].
  - cbn. destruct old; [cbn in Hlen; lia|done].
  - cbn [Contains replace_from]. destruct (HasPrefix (String c s) old) eqn:Hp.
    + intros _. apply HasPrefix_length in Hp. cbn in Hp.
      rewrite length_append.
      pose proof (replace_from_length s old new (String.length old - 1)) as H.
      cbn [String.length]. lia.
    + cbn [orb]. intros H%IH. cbn. lia.
Qed.

Lemma blank_run_shorter : (String.length (nl ++ nl) < String.length blank_run)%nat.
Proof. cbn. lia. Qed.

Lemma collapse_blank_done (fuel : nat) (s : string) :
  (String.length s <= fuel)%nat ->
  Contains (collapse_blank fuel s) blank_run = false.
Proof.
  revert s. induction fuel as [|fuel IH]; intros s Hs.
  - by destruct s; [|cbn in Hs; lia].
  - cbn [collapse_blank]. fold blank_run.
    destruct (Contains s blank_run) eqn:Hc; [|exact Hc].
    apply IH. pose proof (ReplaceAll_shorter s blank_run (nl ++ nl) blank_run_shorter Hc). lia.
Qed.

Lemma collapse_blank_fuel (fuel fuel' : nat) (s : string) :
  (String.length s <= fuel)%nat -> (String.length s <= fuel')%nat ->
  collapse_blank fuel s = collapse_blank fuel' s.
Proof.
  revert fuel' s. induction fuel as [|fuel IH]; intros fuel' s Hs Hs'.
  - destruct s; [|cbn in Hs; lia]. by destruct fuel'.
  - destruct fuel' as [|fuel'].
    { by destruct s; [|cbn in Hs'; lia]. }
    cbn [collapse_blank]. fold blank_run.
    destruct (Contains s blank_run) eqn:Hc; [|done].
    pose proof (ReplaceAll_shorter s blank_run (nl ++ nl) blank_run_shorter Hc) as Hlt.
    apply IH; lia.
Qed.

(** X26: the loop that collapses blank lines comes to its end, and the
    text [stripHTMLTags] returns holds no three line feeds in a row.
    Every round of the loop makes the text shorter, so as many rounds as
    the text has bytes are enough: more rounds change nothing, and no
    three line feeds in a row are left after them.  A text without such a
    run is left as it is. *)
Theorem stripHTMLTags_no_blank_run (rt : GoRuntime) (html : string) :
  Contains (stripHTMLTags rt html) blank_run = false
  /\ (forall s, Contains (collapse_blank (String.length s) s) blank_run = false)
  /\ (forall s n, collapse_blank (String.length s + n) s = collapse_blank (String.length s) s)
  /\ (forall s, Contains s blank_run = true ->
        (String.length (ReplaceAll s blank_run (nl ++ nl)) < String.length s)%nat)
  /\ (forall s, Contains s blank_run = false -> collapse_blank (String.length s) s = s).
Proof.
  split; [|split; [|split; [|split]]].
  - unfold stripHTMLTags.
    set (r := collapse_blank _ _).
    assert (Contains r blank_run = false) as Hr by (apply collapse_blank_done; lia).
    destruct (TrimSpace_infix r) as (a & b & Hab).
    destruct (Contains (TrimSpace r) blank_run) eqn:Hc; [|done].
    rewrite Hab in Hr. by rewrite Contains_app_l in Hr by by apply Contains_app_r.
  - intros s. apply collapse_blank_done. lia.
  - intros s n. apply collapse_blank_fuel; lia.
  - intros s. apply ReplaceAll_shorter, blank_run_shorter.
  - intros s Hs. destruct (String.length s); [done|].
    cbn [collapse_blank]. fold blank_run. by rewrite Hs.
Qed.

End blank_spec.

(* ===================================================================== *)
(** * Opening the link of a group                                         *)
(* ===================================================================== *)

Module reopen_spec.
Import GoStrings.
Import util.
Import gmail_fetch.
Import gmail_unsubscribe.
Import tui.
Import string_facts.
Import normalise_spec.
Import unsubscribe_spec.
Import aggregate_spec.
Import group_spec.
Import blank_spec.
Open Scope list_scope.
#[local] Arguments String.append !_ _ / : simpl nomatch.

(** The bytes a scheme is written with, in either case. *)
Definition scheme_byte (c : ascii) : bool := in_cutset "htps:/" (lower_byte c).

Lemma scheme_byte_visible (c : ascii) : scheme_byte c = true -> visible c = true.
Proof. bytes c. Qed.

Lemma scheme_byte_no_bracket (c : ascii) :
  scheme_byte c = true -> negb (in_cutset "<>" c) = true.
Proof. bytes c. Qed.

Lemma not_ascii_not_visible (c : ascii) : is_ascii_byte c = false -> visible c = false.
Proof. unfold visible. by intros ->. Qed.

(** A white-space rune of three bytes has no ASCII byte. *)
Lemma three_space_high (a b c : ascii) (t : string) :
  space_prefix (String a (String b (String c t))) = 3%nat ->
  is_ascii_byte a = false /\ is_ascii_byte b = false /\ is_ascii_byte c = false.
Proof.
  unfold space_prefix. destruct (is_ascii_space a) eqn:Hs; [done|].
  destruct (code a) as [|p] eqn:Ha; [done|].
  do 8 (try destruct p as [p|p|]); try done.
  all: try (destruct p; done).
  all: unfold is_ascii_byte; rewrite Ha;
    repeat match goal with
    | |- context [(?x =? ?y)%N] => destruct (N.eqb_spec x y)
    | |- context [(?x <=? ?y)%N] => destruct (N.leb_spec x y)
    end; cbn; try done; intros _; repeat split; try done; apply N.ltb_ge; lia.
Qed.

(** What [TrimSpace] cuts at the end holds no visible byte. *)
Lemma space_suffix_rev_dropped (r : string) :
  str_forall (fun c => negb (visible c)) (take (space_suffix_rev r) r) = true.
Proof.
  destruct r as [|a t]; [done|]. unfold space_suffix_rev.
  destruct (is_ascii_space a) eqn:Ha.
  { cbn. destruct (visible a) eqn:Hv; [|by destruct t].
    by rewrite (visible_not_space a Hv) in Ha. }
  destruct t as [|b u]; [done|].
  destruct ((code b =? 194)%N && ((code a =? 133)%N || (code a =? 160)%N)) eqn:H2.
  { apply andb_true_iff in H2 as [Hb Hor]. apply N.eqb_eq in Hb.
    cbn. rewrite (not_ascii_not_visible a), (not_ascii_not_visible b); [by destruct u| |].
    - unfold is_ascii_byte. by rewrite Hb.
    - unfold is_ascii_byte. apply orb_true_iff in Hor as [H|H]; apply N.eqb_eq in H;
        by rewrite H. }
  destruct u as [|c v]; [done|].
  destruct (Nat.eqb _ 3) eqn:H3; [|done].
  apply Nat.eqb_eq, three_space_high in H3 as (Hc & Hb & Ha').
  cbn. rewrite (not_ascii_not_visible a Ha'), (not_ascii_not_visible b Hb),
    (not_ascii_not_visible c Hc). by destruct v.
Qed.

Lemma take_forall_bound (q : ascii -> bool) (x y : string) (c : ascii) (n : nat) :
  str_forall q (take n (x ++ String c y)) = true -> q c = false ->
  (n <= String.length x)%nat.
Proof.
  intros H Hc. revert n H. induction x as [|a x IH]; intros [|n] H; cbn in *; try lia.
  - by rewrite Hc in H.
  - apply andb_true_iff in H as [_ H]. apply IH in H. lia.
Qed.

Lemma drop_app_le (n : nat) (x z : string) :
  (n <= String.length x)%nat -> drop n (x ++ z) = (drop n x ++ z)%string.
Proof.
  revert n. induction x as [|a x IH]; intros [|n] Hn; cbn in *; try done; try lia.
  apply IH. lia.
Qed.

(** The cut at the end stops before a visible byte. *)
Lemma trim_space_right_keeps (fuel : nat) (x y : string) (c : ascii) :
  visible c = true ->
  exists x', trim_space_right_rev fuel (x ++ String c y) = (x' ++ String c y)%string.
Proof.
  intros Hc. revert x. induction fuel as [|fuel IH]; intros x; [by exists x|].
  cbn [trim_space_right_rev].
  destruct (space_suffix_rev (x ++ String c y)) as [|n] eqn:E; [by exists x|].
  pose proof (space_suffix_rev_dropped (x ++ String c y)) as Hd. rewrite E in Hd.
  apply take_forall_bound in Hd; [|by rewrite Hc].
  rewrite drop_app_le by done. apply IH.
Qed.

Lemma rev_head (q : string) : q <> "" -> exists c y, String.rev q = String c y.
Proof.
  intros Hq. destruct (String.rev q) as [|c y] eqn:E; [|by eauto].
  apply (f_equal String.rev) in E. rewrite rev_involutive in E. by subst.
Qed.

(** [TrimSpace] keeps a prefix of visible bytes. *)
Lemma TrimSpace_keeps (q rest : string) :
  q <> "" -> str_forall visible q = true ->
  exists rest', TrimSpace (q ++ rest) = (q ++ rest')%string.
Proof.
  intros Hq Hv. unfold TrimSpace.
  rewrite trim_space_left_id.
  2:{ destruct q as [|c q]; [done|]. cbn [str_forall] in Hv.
      apply andb_true_iff in Hv as [Hc _]. by apply visible_no_space_prefix. }
  rewrite rev_append. destruct (rev_head q Hq) as (c & y & Hr).
  assert (visible c = true) as Hc.
  { rewrite <- str_forall_rev, Hr in Hv. cbn [str_forall] in Hv.
    by apply andb_true_iff in Hv as [? _]. }
  rewrite Hr.
  destruct (trim_space_right_keeps (String.length (q ++ rest)) (String.rev rest) y c Hc)
    as [x' ->].
  exists (String.rev x'). by rewrite rev_append, <- Hr, rev_involutive.
Qed.

Lemma TrimRight_cons (a : ascii) (r cutset : string) :
  in_cutset cutset a = false ->
  TrimRight (String a r) cutset = String a (TrimRight r cutset).
Proof. intros Ha. cbn [TrimRight]. rewrite Ha. by destruct (TrimRight r cutset). Qed.

(** [Trim] keeps a prefix of bytes that are not in the cutset. *)
Lemma Trim_keeps (q rest cutset : string) :
  q <> "" -> str_forall (fun c => negb (in_cutset cutset c)) q = true ->
  Trim (q ++ rest) cutset = (q ++ TrimRight rest cutset)%string.
Proof.
  intros Hq Hc. unfold Trim.
  assert (TrimLeft (q ++ rest) cutset = (q ++ rest)%string) as ->.
  { destruct q as [|c q]; [done|]. cbn [str_forall] in Hc.
    apply andb_true_iff in Hc as [Hc _]. apply negb_true_iff in Hc.
    cbn. by rewrite Hc. }
  clear Hq. induction q as [|c q IH]; [done|].
  cbn [str_forall] in Hc. apply andb_true_iff in Hc as [Hc Hq].
  apply negb_true_iff in Hc. cbn [String.append].
  by rewrite TrimRight_cons, IH.
Qed.

Lemma TrimLeft_bytes (p : ascii -> bool) (s cutset : string) :
  str_forall p s = true -> str_forall p (TrimLeft s cutset) = true.
Proof.
  induction s as [|a s IH]; [done|]. intros Hs. cbn [TrimLeft].
  destruct (in_cutset cutset a); [|done].
  cbn [str_forall] in Hs. apply andb_true_iff in Hs as [_ Hs]. by apply IH.
Qed.

Lemma TrimRight_bytes (p : ascii -> bool) (s cutset : string) :
  str_forall p s = true -> str_forall p (TrimRight s cutset) = true.
Proof.
  induction s as [|a s IH]; [done|]. intros Hs. cbn [TrimRight].
  cbn [str_forall] in Hs. apply andb_true_iff in Hs as [Ha Hs]. specialize (IH Hs).
  destruct (TrimRight s cutset) as [|b t].
  - destruct (in_cutset cutset a); [done|]. cbn. by rewrite Ha.
  - cbn [str_forall] in *. by rewrite Ha, IH.
Qed.

(** The cleaning of an entry takes bytes away and adds none. *)
Lemma clean_bytes (p : ascii -> bool) (s : string) :
  str_forall p s = true -> str_forall p (TrimSpace (Trim (TrimSpace s) "<>")) = true.
Proof.
  intros Hs. apply strip_spec.TrimSpace_bytes. unfold Trim.
  apply TrimRight_bytes, TrimLeft_bytes. by apply strip_spec.TrimSpace_bytes.
Qed.

Lemma HasPrefix_take (s p : string) :
  HasPrefix s p = true -> take (String.length p) s = p.
Proof.
  revert s. induction p as [|a p IH]; intros s; [by destruct s|].
  destruct s as [|b s]; [done|]. cbn.
  destruct (ascii_dec a b) as [->|]; [|done]. intros H. by rewrite IH.
Qed.

Lemma HasPrefix_app_self (p x : string) : HasPrefix (p ++ x) p = true.
Proof.
  induction p as [|a p IH]; [by destruct x|]. cbn.
  by destruct (ascii_dec a a).
Qed.

Lemma take_str_map (f : ascii -> ascii) (n : nat) (s : string) :
  take n (str_map f s) = str_map f (take n s).
Proof. revert n. induction s as [|a s IH]; intros [|n]; cbn; try done. by rewrite IH. Qed.

(** An ASCII text that starts with a scheme [p], in any case: the bytes
    of the scheme, and what follows. *)
Lemma scheme_prefix (u p : string) :
  p <> "" -> str_forall (in_cutset "htps:/") p = true ->
  HasPrefix (str_map lower_byte u) p = true ->
  exists q rest,
    u = (q ++ rest)%string /\ q <> "" /\ str_forall scheme_byte q = true
    /\ str_map lower_byte q = p.
Proof.
  intros Hp Hbytes Hpre. apply HasPrefix_take in Hpre. rewrite take_str_map in Hpre.
  exists (take (String.length p) u), (drop (String.length p) u).
  split; [by rewrite take_drop|]. split; [|split; [|done]].
  - intros Hq. rewrite Hq in Hpre. by subst p.
  - unfold scheme_byte. by rewrite <- (str_forall_map (in_cutset "htps:/")), Hpre.
Qed.

(** A text with an http or https scheme keeps it when what follows the
    scheme is replaced. *)
Lemma has_http_scheme_prefix (rt : GoRuntime) (u : string) :
  str_forall is_ascii_byte u = true -> has_http_scheme rt u = true ->
  exists q rest,
    u = (q ++ rest)%string /\ q <> "" /\ str_forall scheme_byte q = true
    /\ forall rest', str_forall is_ascii_byte rest' = true ->
         has_http_scheme rt (q ++ rest') = true.
Proof.
  intros Hu. unfold has_http_scheme. rewrite (ToLower_ascii rt u Hu).
  intros [H|H]%orb_true_iff.
  - destruct (scheme_prefix u "http://") as (q & rest & -> & Hq & Hs & Hl); try done.
    exists q, rest. repeat split; try done. intros rest' Hr.
    rewrite ToLower_ascii, str_map_app, Hl, HasPrefix_app_self; [done|].
    rewrite str_forall_app, Hr, andb_true_r.
    eapply str_forall_impl; [|exact Hs]. intros c Hc.
    by apply visible_ascii, scheme_byte_visible.
  - destruct (scheme_prefix u "https://") as (q & rest & -> & Hq & Hs & Hl); try done.
    exists q, rest. repeat split; try done. intros rest' Hr.
    rewrite ToLower_ascii, str_map_app, Hl, HasPrefix_app_self; [apply orb_true_r|].
    rewrite str_forall_app, Hr, andb_true_r.
    eapply str_forall_impl; [|exact Hs]. intros c Hc.
    by apply visible_ascii, scheme_byte_visible.
Qed.

(** The cleaning of an entry keeps its scheme. *)
Lemma clean_keeps_scheme (rt : GoRuntime) (u : string) :
  str_forall is_ascii_byte u = true -> has_http_scheme rt u = true ->
  has_http_scheme rt (TrimSpace (Trim (TrimSpace u) "<>")) = true.
Proof.
  intros Hu Hs. pose proof (clean_bytes is_ascii_byte u Hu) as Hclean.
  destruct (has_http_scheme_prefix rt u Hu Hs) as (q & rest & -> & Hq & Hb & Hkeep).
  assert (str_forall visible q = true) as Hv.
  { eapply str_forall_impl; [|exact Hb]. apply scheme_byte_visible. }
  assert (str_forall (fun c => negb (in_cutset "<>" c)) q = true) as Hc.
  { eapply str_forall_impl; [|exact Hb]. apply scheme_byte_no_bracket. }
  revert Hclean. destruct (TrimSpace_keeps q rest Hq Hv) as [r1 ->].
  rewrite (Trim_keeps q r1 "<>" Hq Hc).
  destruct (TrimSpace_keeps q (TrimRight r1 "<>") Hq Hv) as [r3 ->].
  rewrite str_forall_app. intros [_ Hr3]%andb_true_iff. by apply Hkeep.
Qed.

Lemma Split_lacks (s : string) (sep : ascii) :
  lacks sep s = true -> Split s sep = [s].
Proof.
  unfold lacks. induction s as [|a s IH]; [done|]. cbn [str_forall Split].
  intros [Ha Hs]%andb_true_iff. apply negb_true_iff, Ascii.eqb_neq in Ha.
  destruct (ascii_dec a sep) as [?|_]; [done|]. by rewrite (IH Hs).
Qed.

Lemma Split_pieces_lack (s : string) (sep : ascii) :
  Forall (fun p => lacks sep p = true) (Split s sep).
Proof.
  unfold lacks. induction s as [|a s IH]; [by apply Forall_cons|]. cbn [Split].
  destruct (ascii_dec a sep) as [?|Ha]; [by apply Forall_cons|].
  apply Ascii.eqb_neq in Ha.
  destruct (Split s sep) as [|p ps]; apply Forall_cons.
  - split; [|done]. cbn. by rewrite Ha.
  - apply Forall_cons in IH as [Hp Hps]. split; [|done]. cbn. by rewrite Ha, Hp.
Qed.

Lemma Split_pieces_bytes (p : ascii -> bool) (s : string) (sep : ascii) :
  str_forall p s = true -> Forall (fun x => str_forall p x = true) (Split s sep).
Proof.
  induction s as [|a s IH]; [intros _; by apply Forall_cons|]. cbn [str_forall Split].
  intros [Ha Hs]%andb_true_iff. specialize (IH Hs).
  destruct (ascii_dec a sep) as [?|_]; [by apply Forall_cons|].
  destruct (Split s sep) as [|x xs]; apply Forall_cons.
  - split; [|done]. cbn. by rewrite Ha.
  - apply Forall_cons in IH as [Hx Hxs]. split; [|done]. cbn. by rewrite Ha, Hx.
Qed.

(** The link taken from an ASCII header, given as a header again: the
    link is found, cleaned once more. *)
Lemma extract_again (rt : GoRuntime) (header : string) :
  str_forall is_ascii_byte header = true ->
  extractHTTPUnsubscribeURL rt header <> "" ->
  extractHTTPUnsubscribeURL rt (extractHTTPUnsubscribeURL rt header)
  = TrimSpace (Trim (TrimSpace (extractHTTPUnsubscribeURL rt header)) "<>")
  /\ has_http_scheme rt
       (extractHTTPUnsubscribeURL rt (extractHTTPUnsubscribeURL rt header)) = true.
Proof.
  intros Hh Hne.
  assert (exists p, p ∈ Split header ","
                    /\ extractHTTPUnsubscribeURL rt header
                       = TrimSpace (Trim (TrimSpace p) "<>")
                    /\ has_http_scheme rt (extractHTTPUnsubscribeURL rt header) = true)
    as (p & Hp & Hu & Hs).
  { revert Hne. unfold extractHTTPUnsubscribeURL. rewrite first_http_part_entries.
    unfold first_http.
    destruct (filter _ _) as [|e l] eqn:E; [done|]. intros _. cbn.
    assert (e ∈ filter (fun e => has_http_scheme rt e = true)
                  (map (fun p => TrimSpace (Trim (TrimSpace p) "<>")) (Split header ",")))
      as Hin by (rewrite E; left).
    apply list_elem_of_filter in Hin as [He Hin].
    apply list_elem_of_fmap in Hin as (p & -> & Hp). by exists p. }
  set (u := extractHTTPUnsubscribeURL rt header) in *.
  assert (str_forall is_ascii_byte u = true) as Hascii.
  { rewrite Hu. apply clean_bytes.
    pose proof (Split_pieces_bytes is_ascii_byte header "," Hh) as Hall.
    by eapply Forall_forall in Hall. }
  assert (lacks "," u = true) as Hcomma.
  { rewrite Hu. apply clean_bytes.
    pose proof (Split_pieces_lack header ",") as Hall.
    by eapply Forall_forall in Hall. }
  pose proof (clean_keeps_scheme rt u Hascii Hs) as Hkeep.
  unfold extractHTTPUnsubscribeURL at 1 2. rewrite (Split_lacks u "," Hcomma).
  cbn [first_http_part]. unfold has_http_scheme in Hkeep. by rewrite Hkeep.
Qed.

(** A letter whose header has a bracket too many, and the machine it is
    read on. *)
Definition shop_letters : list MessageRef.t :=
  [ MessageRef.mk "1" "Deals" "" "shop@example.com" "<http://example.com/u> >" "" ].

Definition deals : SenderGroup.t :=
  SenderGroup.mk "shop@example.com" "Deals" "Shop" 1 "Deals" "" "" ["1"]
    "http://example.com/u>".

Definition laptop : Host := {| GOOS := "linux"; exec_Start := fun _ _ => None |}.

(** X27: the unsubscribe command of a group that shows a link finds this
    link.  [unsubscribeCmd] gives the stored link to
    [OpenUnsubscribeURL], which reads it as a header once more; for a
    group made from records with ASCII List-Unsubscribe headers the link
    read is the stored one cleaned again, it has an http or https scheme,
    and the command of the platform is started with it: neither the error
    of the missing HTTP link nor the refusal of a non-HTTP URL is met.
    The link opened can differ from the link stored. *)
Theorem unsubscribeCmd_opens_link (rt : GoRuntime) (host : Host)
    (msgs : list MessageRef.t) (key : string) (g : SenderGroup.t) :
  AggregateBySenderSubject rt msgs !! key = Some g ->
  Forall (fun m => str_forall is_ascii_byte (MessageRef.ListUnsubscribe m) = true) msgs ->
  SenderGroup.UnsubscribeURL g <> "" ->
  exists url,
    url = TrimSpace (Trim (TrimSpace (SenderGroup.UnsubscribeURL g)) "<>")
    /\ has_http_scheme rt url = true
    /\ (unsubscribeCmd rt host g).1
       = match platform_command host url with
         | Some c => [c]
         | None => []
         end
    /\ action_err (unsubscribeCmd rt host g).2
       = match platform_command host url with
         | Some c => exec_Start host (cmd c) (args c)
         | None => Some (Err ("unsupported platform " ++ GOOS host))
         end.
Proof.
  intros Hg Hascii Hne.
  destruct (aggregate_fields rt msgs key g Hg) as (_ & _ & Hu & _).
  destruct (first_of_elem (links rt (members rt key msgs))) as [He|Hin];
    [by rewrite <- Hu in He|].
  rewrite <- Hu in Hin. unfold links in Hin.
  apply list_elem_of_fmap in Hin as (m & Hm & Hin).
  apply list_elem_of_filter in Hin as [_ Hin].
  eapply Forall_forall in Hascii; [|exact Hin]. rewrite Hm in Hne.
  destruct (extract_again rt _ Hascii Hne) as [Hagain Hscheme].
  rewrite <- Hm in Hagain, Hscheme, Hne.
  exists (extractHTTPUnsubscribeURL rt (SenderGroup.UnsubscribeURL g)).
  split; [exact Hagain|]. split; [exact Hscheme|].
  unfold unsubscribeCmd, OpenUnsubscribeURL, OpenBrowser.
  set (url := extractHTTPUnsubscribeURL rt (SenderGroup.UnsubscribeURL g)) in *.
  rewrite decide_False.
  2:{ intros Hurl. rewrite Hurl in Hscheme. by vm_compute in Hscheme. }
  destruct (platform_command host url) as [c|]; [|done].
  unfold has_http_scheme in Hscheme. rewrite <- negb_orb, Hscheme. cbn [negb].
  by destruct (exec_Start host (cmd c) (args c)).
Qed.

Lemma unsubscribeCmd_opens_link_witness :
  exists url,
    url = TrimSpace (Trim (TrimSpace (SenderGroup.UnsubscribeURL deals)) "<>")
    /\ has_http_scheme ascii_runtime url = true
    /\ (unsubscribeCmd ascii_runtime laptop deals).1
       = match platform_command laptop url with
         | Some c => [c]
         | None => []
         end
    /\ action_err (unsubscribeCmd ascii_runtime laptop deals).2
       = match platform_command laptop url with
         | Some c => exec_Start laptop (cmd c) (args c)
         | None => Some (Err ("unsupported platform " ++ GOOS laptop))
         end.
Proof.
  apply (unsubscribeCmd_opens_link ascii_runtime laptop shop_letters
           "shop@example.com||Deals" deals).
  - vm_compute. reflexivity.
  - repeat constructor.
  - discriminate.
Defined.

(** The link stored for the letter ends with a bracket; the link opened
    does not. *)
Example unsubscribeCmd_opens_cleaned :
  AggregateBySenderSubject ascii_runtime shop_letters !! "shop@example.com||Deals"
  = Some deals
  /\ (unsubscribeCmd ascii_runtime laptop deals).1
     = [ {| cmd := "xdg-open"; args := ["http://example.com/u"] |} ].
Proof. split; vm_compute; reflexivity. Qed.

End reopen_spec.

(* ===================================================================== *)
(** * The cache after a full scan                                         *)
(* ===================================================================== *)

Module scan_rows_spec.
Import gmailv1.
Import gmail_sync.
Import store.
Import batch_spec.
Import store_spec.
Open Scope list_scope.

Lemma first_error_none (a b : option error) :
  first_error a b = None -> a = None /\ b = None.
Proof. by destruct a, b. Qed.

Lemma upsert_rows_app (rows : gmap string MessageRef.t) (l l' : list MessageRef.t) :
  upsert_rows rows (l ++ l') = upsert_rows (upsert_rows rows l) l'.
Proof. apply fold_left_app. Qed.

Section Rows.
Variable st : SQLiteStore.

(** What the collecting loop keeps true while no error is recorded: no
    result carried an error, and the table with the buffer written to it
    is the table of the start with the records received written to it. *)
Definition rows_written (rs : list result) (c : collector SQLiteStore) : Prop :=
  c_collectErr c = None ->
  Forall (fun r => err r = None) rs
  /\ upsert_rows (messages (c_store c)) (c_buf c)
     = upsert_rows (messages st) (map ref (filter usable rs))
  /\ metadata (c_store c) = metadata st
  /\ (filter usable rs = [] -> c_done c = 0%Z).

Lemma collect_rows_written (rs : list result) (c : collector SQLiteStore) (r : result) :
  rows_written rs c -> rows_written (rs ++ [r]) (collect c r).
Proof.
  intros Hc. unfold rows_written, collect.
  rewrite filter_app, filter_cons, filter_nil.
  destruct (decide (usable r)) as [[He Hf]|Hu].
  - rewrite He, decide_False by done. rewrite map_app. cbn [map].
    destruct (decide (batch <= length (c_buf c ++ [ref r]))) as [Hb|Hb].
    + cbn [UpsertMessages SQLite_MessageStore].
      destruct (SQLite_UpsertMessages (c_store c) (c_buf c ++ [ref r])) as [s e] eqn:Hup.
      cbn [c_collectErr c_store c_buf c_done].
      intros [Hn ->]%first_error_none. destruct (Hc Hn) as (Hall & Hrows & Hmeta & _).
      apply upsert_succeeded in Hup as [Hs Hm].
      split; [apply Forall_app; split; [done|by apply Forall_cons]|].
      split; [|split; [congruence|by destruct (filter usable rs)]].
      cbn [upsert_rows fold_left]. fold (upsert_rows (messages s) []).
      rewrite Hs, !upsert_rows_app, Hrows. done.
    + cbn [c_collectErr c_store c_buf c_done].
      intros Hn. destruct (Hc Hn) as (Hall & Hrows & Hmeta & _).
      split; [apply Forall_app; split; [done|by apply Forall_cons]|].
      split; [|split; [done|by destruct (filter usable rs)]].
      by rewrite !upsert_rows_app, Hrows.
  - rewrite app_nil_r. destruct (err r) as [e|] eqn:He.
    { cbn [c_collectErr]. by intros [_ ?]%first_error_none. }
    rewrite decide_True by (apply dec_stable; intros Hf; by apply Hu).
    intros Hn. destruct (Hc Hn) as (Hall & Hrows & Hmeta & Hdone).
    split; [|done]. apply Forall_app. split; [done|]. by apply Forall_cons.
Qed.

Lemma collect_all_rows_written (rs : list result) :
  rows_written rs
    (fold_left collect rs
       {| c_store := st; c_collectErr := None; c_buf := []; c_done := 0 |}).
Proof.
  induction rs as [|r rs IH] using rev_ind.
  - intros _. by repeat split.
  - rewrite fold_left_app. cbn [fold_left]. by apply collect_rows_written.
Qed.

End Rows.

Lemma set_cursor_succeeded (s s' : SQLiteStore) (h : string) :
  SQLite_SetLastHistoryID s h = (s', None) ->
  messages s' = messages s /\ metadata s' = <["last_history_id" := h]> (metadata s).
Proof.
  unfold SQLite_SetLastHistoryID.
  destruct (db_call s) as [s0 [e|]] eqn:H0; [done|]. intros [= <-].
  by apply db_call_ok in H0 as [-> ->].
Qed.

(** X28: the cache after a full scan that returned no error.  No result
    received carried an error.  The row of an id is the record of the
    last result received that carries this id, among the results with a
    sender that can be normalised, and the row it was before the scan
    when there is none.  The cursor row is the one of the start when no
    record was received; otherwise the metadata are those of the start
    with, at most, the cursor written. *)
Theorem FullScan_rows (rt : GoRuntime) (run : Run) (svc : Service)
    (st st' : SQLiteStore) (id : string) :
  FullScan rt run svc (Some st) = (Some st', None) ->
  Forall (fun r => err r = None) (scan_results rt run svc)
  /\ messages st' !! id
     = match last_with id (map ref (filter usable (scan_results rt run svc))) with
       | Some m => Some m
       | None => messages st !! id
       end
  /\ (filter usable (scan_results rt run svc) = [] -> metadata st' = metadata st)
  /\ (metadata st' = metadata st
      \/ exists h, metadata st' = <["last_history_id" := h]> (metadata st)).
Proof.
  unfold FullScan. destruct (currentHistoryID svc) as [hid [e|]]; [done|].
  pose proof (collect_all_rows_written st (scan_results rt run svc)) as Hc.
  set (c := fold_left collect _ _) in *.
  destruct (decide (0 < length (c_buf c))) as [Hbuf|Hbuf].
  - cbn [UpsertMessages SQLite_MessageStore].
    destruct (SQLite_UpsertMessages (c_store c) (c_buf c)) as [s1 e1] eqn:Hup.
    destruct (c_done c >? 0)%Z eqn:Hdone.
    + cbn [SetLastHistoryID SQLite_MessageStore].
      destruct (SQLite_SetLastHistoryID s1 hid) as [s2 e2] eqn:Hset.
      intros [= <- [[Hn ->]%first_error_none ->]%first_error_none].
      destruct (Hc Hn) as (Hall & Hrows & Hmeta & Hzero).
      apply upsert_succeeded in Hup as [Hs1 Hm1].
      apply set_cursor_succeeded in Hset as [Hs2 Hm2].
      split; [done|]. split; [|split].
      * by rewrite Hs2, Hs1, Hrows, upsert_rows_lookup.
      * intros Hnone. rewrite (Hzero Hnone) in Hdone. done.
      * right. exists hid. by rewrite Hm2, Hm1, Hmeta.
    + intros [= <- [Hn ->]%first_error_none].
      destruct (Hc Hn) as (Hall & Hrows & Hmeta & Hzero).
      apply upsert_succeeded in Hup as [Hs1 Hm1].
      split; [done|]. split; [|split].
      * by rewrite Hs1, Hrows, upsert_rows_lookup.
      * intros _. by rewrite Hm1.
      * left. by rewrite Hm1.
  - assert (c_buf c = []) as Hnil by (destruct (c_buf c); [done|cbn in Hbuf; lia]).
    destruct (c_done c >? 0)%Z eqn:Hdone.
    + cbn [SetLastHistoryID SQLite_MessageStore].
      destruct (SQLite_SetLastHistoryID (c_store c) hid) as [s2 e2] eqn:Hset.
      intros [= <- [Hn ->]%first_error_none].
      destruct (Hc Hn) as (Hall & Hrows & Hmeta & Hzero).
      apply set_cursor_succeeded in Hset as [Hs2 Hm2].
      rewrite Hnil in Hrows. cbn [upsert_rows fold_left] in Hrows.
      fold (upsert_rows (messages st) (map ref (filter usable (scan_results rt run svc))))
        in Hrows.
      split; [done|]. split; [|split].
      * by rewrite Hs2, Hrows, upsert_rows_lookup.
      * intros Hnone. rewrite (Hzero Hnone) in Hdone. done.
      * right. exists hid. by rewrite Hm2, Hmeta.
    + intros [= <- Hn].
      destruct (Hc Hn) as (Hall & Hrows & Hmeta & Hzero).
      rewrite Hnil in Hrows. cbn [upsert_rows fold_left] in Hrows.
      fold (upsert_rows (messages st) (map ref (filter usable (scan_results rt run svc))))
        in Hrows.
      split; [done|]. split; [|split].
      * by rewrite Hrows, upsert_rows_lookup.
      * done.
      * by left.
Qed.

(** The cache after the scan of a mailbox of one message. *)
Definition scanned : SQLiteStore :=
  default cursor_spec.empty_store
    (FullScan ascii_runtime plain_run fullscan_spec.one_message
       (Some cursor_spec.empty_store)).1.

Lemma FullScan_rows_witness :
  messages scanned !! "1"
  = match last_with "1"
            (map ref (filter usable
                        (scan_results ascii_runtime plain_run fullscan_spec.one_message))) with
    | Some m => Some m
    | None => messages cursor_spec.empty_store !! "1"
    end.
Proof.
  refine (proj1 (proj2 (FullScan_rows ascii_runtime plain_run fullscan_spec.one_message
                          cursor_spec.empty_store scanned "1" _))).
  vm_compute. reflexivity.
Defined.

End scan_rows_spec.

(* ===================================================================== *)
(** * Text without markup                                                 *)
(* ===================================================================== *)

Module plain_spec.
Import GoStrings.
Import gmail_body.
Import string_facts.
Import blank_spec.
Open Scope list_scope.
#[local] Arguments String.append !_ _ / : simpl nomatch.

(** Nothing is replaced in a text that lacks the first byte of [old]. *)
Lemma replace_from_lacks (s : string) (a : ascii) (old new : string) :
  lacks a s = true -> replace_from 0 s (String a old) new = s.
Proof.
  unfold lacks. induction s as [|c s IH]; [done|]. cbn [str_forall replace_from].
  intros [Hc Hs]%andb_true_iff. apply negb_true_iff, Ascii.eqb_neq in Hc.
  cbn [HasPrefix]. destruct (ascii_dec a c) as [?|_]; [by subst|].
  by rewrite (IH Hs).
Qed.

Lemma ReplaceAll_lacks (s : string) (a : ascii) (old new : string) :
  lacks a s = true -> ReplaceAll s (String a old) new = s.
Proof. apply replace_from_lacks. Qed.

Lemma break_blocks_plain (rt : GoRuntime) (s : string) :
  lacks "<" s = true -> break_blocks rt s = s.
Proof.
  intros Hs. unfold break_blocks.
  assert (Forall (fun tag => exists t t', tag = String "<" t /\ ToUpper rt tag = String "<" t')
            block_tags) as Htags.
  { unfold block_tags.
    repeat (apply Forall_cons; split;
            [eexists; eexists; split; [reflexivity|];
             rewrite normalise_spec.ToUpper_ascii by reflexivity; reflexivity|]).
    apply Forall_nil_2. }
  induction Htags as [|tag tags (t & t' & -> & Hup) _ IH]; [done|].
  cbn [fold_left]. rewrite Hup.
  by rewrite (ReplaceAll_lacks s "<" t nl Hs), (ReplaceAll_lacks s "<" t' nl Hs).
Qed.

Lemma not_bracket_code (a : ascii) :
  Ascii.eqb a "<" = false -> Ascii.eqb a ">" = false ->
  (code a =? 60)%N = false /\ (code a =? 62)%N = false.
Proof. destruct a as [[] [] [] [] [] [] [] []]; vm_compute; done. Qed.

(** The loop over the runes copies an ASCII text without angle
    brackets. *)
Lemma strip_tags_plain (s : string) :
  str_forall is_ascii_byte s = true -> lacks "<" s = true -> lacks ">" s = true ->
  strip_tags 0 false s = s.
Proof.
  unfold lacks. induction s as [|a s IH]; [done|]. cbn [str_forall strip_tags].
  intros [Ha Hs]%andb_true_iff [Hl Hls]%andb_true_iff [Hg Hgs]%andb_true_iff.
  apply negb_true_iff in Hl, Hg.
  destruct (not_bracket_code a Hl Hg) as [-> ->].
  unfold rune_len. unfold is_ascii_byte in Ha. rewrite Ha.
  by rewrite IH.
Qed.

Lemma collapse_blank_plain (fuel : nat) (s : string) :
  Contains s blank_run = false -> collapse_blank fuel s = s.
Proof.
  intros Hs. destruct fuel; [done|]. cbn [collapse_blank]. fold blank_run. by rewrite Hs.
Qed.

(** A note of two paragraphs, with white space at both ends. *)
Definition note : string := ("  Hello Bob," ++ nl ++ nl ++ "see you at 5 " ++ nl)%string.

(** X29: a text without markup comes back as it is.  For an ASCII text
    that holds no angle bracket, no ampersand and no three line feeds in a
    row, [stripHTMLTags] returns the text with the white space at its two
    ends cut, and nothing else changed. *)
Theorem stripHTMLTags_plain (rt : GoRuntime) (s : string) :
  str_forall is_ascii_byte s = true ->
  lacks "<" s = true -> lacks ">" s = true -> lacks "&" s = true ->
  Contains s blank_run = false ->
  stripHTMLTags rt s = TrimSpace s.
Proof.
  intros Hascii Hl Hg Hamp Hblank. unfold stripHTMLTags.
  rewrite break_blocks_plain, strip_tags_plain, strip_spec.no_entity by done.
  by rewrite collapse_blank_plain.
Qed.

Lemma stripHTMLTags_plain_witness :
  stripHTMLTags ascii_runtime note = ("Hello Bob," ++ nl ++ nl ++ "see you at 5")%string.
Proof.
  rewrite (stripHTMLTags_plain ascii_runtime note); reflexivity.
Defined.

End plain_spec.
